(** * matchit: pattern algebra of [develop/matchit/patterns.h]

    A shallow embedding of the matcher, the identifier cells and the clause
    driver, followed by the properties of the specification that concern
    them.

    Conventions of the embedding.
    - C++ values are dynamically tagged ([Val]); what is a static type error
      in the source (a [Ds] against a scalar, say) is a plain mismatch here.
    - [int32_t] depths are integers of [Z]; the two arithmetic operations of
      the source on them ([depth + 1] and [mDepth - depth]) are written with
      their two's complement wrap-around.
    - [Id] objects live in a heap ([Heap]); the address of an object stands
      for the C++ reference to it.
    - User callables ([Meet], [App], [when], handlers) are total functions;
      the nullary ones read the identifier cells they captured, so they take
      the heap. *)

From Stdlib Require Import ZArith String Lia Bool.
From stdpp Require Import base relations list.

Open Scope Z_scope.
Set Warnings "-register-all".

(** ** Values *)

Inductive Val : Type :=
| VInt (n : Z)
| VTuple (xs : list Val)      (* std::tuple, std::pair *)
| VArray (xs : list Val)      (* std::array: tuple-like and uniform *)
| VRange (xs : list Val).     (* sized iterable: std::vector, Subrange, ... *)

(** The host language's [operator==]. *)
Fixpoint Val_eqb (a b : Val) {struct a} : bool :=
  let fix list_eqb (xs ys : list Val) {struct xs} : bool :=
    match xs, ys with
    | [], [] => true
    | x :: xs', y :: ys' => Val_eqb x y && list_eqb xs' ys'
    | _, _ => false
    end in
  match a, b with
  | VInt n, VInt m => Z.eqb n m
  | VTuple xs, VTuple ys => list_eqb xs ys
  | VArray xs, VArray ys => list_eqb xs ys
  | VRange xs, VRange ys => list_eqb xs ys
  | _, _ => false
  end.

(** [std::is_scalar_v] on a by-value result. *)
Definition is_scalar (v : Val) : bool :=
  match v with VInt _ => true | _ => false end.

(** Outcome of a call that may throw [std::logic_error]. *)
Inductive Except (A : Type) : Type :=
| Ok (a : A)
| Throw (what : string).
Arguments Ok {A} a.
Arguments Throw {A} what.

(** ** 32-bit signed arithmetic *)

Definition wrap32 (z : Z) : Z := (z + 2 ^ 31) mod 2 ^ 32 - 2 ^ 31.
Definition add32 (a b : Z) : Z := wrap32 (a + b).
Definition sub32 (a b : Z) : Z := wrap32 (a - b).
Definition int32 (z : Z) : Prop := - 2 ^ 31 <= z < 2 ^ 31.

(** ** Identifier cells: [Id<Type>::Block] *)

(** [ValueVariant<Type>]: empty, owned value, or pointer to the scrutinee's
    storage (modelled by the value it points to, which a match never
    changes). *)
Inductive ValueVariant : Type :=
| monostate
| owned (v : Val)
| borrowed (p : Val).

Record Block : Type := mkBlock { mVariant : ValueVariant; mDepth : Z }.

(** [Block{}] *)
Definition freshBlock : Block := mkBlock monostate 0.

Module Block.

Definition hasValue (b : Block) : bool :=
  match mVariant b with
  | owned _ => true
  | borrowed _ => true
  | monostate => false
  end.

Definition value (b : Block) : Except Val :=
  match mVariant b with
  | owned v => Ok v
  | borrowed p => Ok p
  | monostate => Throw "invalid state!"
  end.

Definition mutableValue (b : Block) : Except Val :=
  match mVariant b with
  | owned v => Ok v
  | borrowed _ => Throw "Cannot get mutableValue for pointer type!"
  | monostate => Throw "Invalid state!"
  end.

Definition reset (depth : Z) (b : Block) : Block :=
  if sub32 (mDepth b) depth >=? 0
  then mkBlock monostate depth
  else b.

(** The [assert] inside is not part of the model (it is compiled out under
    [NDEBUG] and changes no state). *)
Definition confirm (depth : Z) (b : Block) : Block :=
  if (mDepth b >? depth) || (mDepth b =? 0)
  then mkBlock (mVariant b) depth
  else b.

(** [IdUtil::bindValue]: the two overloads, selected by [StorePointer]. *)
Definition bindValue (v : Val) (storePointer : bool) : ValueVariant :=
  if storePointer then borrowed v else owned v.

End Block.

(** ** [Id<Type>] objects and their heap *)

(** [BlockVT = std::variant<Block, Block *>]: an [Id] owns its block, or
    points to the block owned by the [Id] at the given address. *)
Inductive BlockVT : Type :=
| ownBlock (b : Block)
| ptrBlock (p : nat).

Abbreviation Heap := (list BlockVT).

(** Every block pointer designates an [Id] that owns its block. *)
Definition wfHeap (h : Heap) : Prop :=
  forall (a p : nat), h !! a = Some (ptrBlock p) ->
    exists b, h !! p = Some (ownBlock b).

Module Id.

(** Address of the [Id] owning the block that [block()] returns. *)
Definition owner (h : Heap) (id : nat) : nat :=
  match h !! id with
  | Some (ptrBlock p) => p
  | _ => id
  end.

(** Contents of the block owned at [o] (a fresh block stands for what a
    dangling reference would read). *)
Definition load (h : Heap) (o : nat) : Block :=
  match h !! o with
  | Some (ownBlock b) => b
  | _ => freshBlock
  end.

Definition store (h : Heap) (o : nat) (b : Block) : Heap :=
  match h !! o with
  | Some (ownBlock _) => <[o := ownBlock b]> h
  | _ => h
  end.

(** [Id::block()] *)
Definition block (h : Heap) (id : nat) : Block := load h (owner h id).

(** Write through the reference returned by [block()]. *)
Definition setBlock (h : Heap) (id : nat) (b : Block) : Heap :=
  store h (owner h id) b.

(** [Id()]: a new object owning a fresh block. *)
Definition new (h : Heap) : Heap * nat :=
  (h ++ [ownBlock freshBlock], length h).

(** [Id(Id const &id)]: [mBlock = BlockVT{&id.block()}]. *)
Definition copy (h : Heap) (id : nat) : Heap * nat :=
  (h ++ [ptrBlock (owner h id)], length h).

Definition hasValue (h : Heap) (id : nat) : bool :=
  Block.hasValue (block h id).

Definition value (h : Heap) (id : nat) : Except Val :=
  Block.value (block h id).

(** [Id::move()] reads through [mutableValue()]. *)
Definition move (h : Heap) (id : nat) : Except Val :=
  Block.mutableValue (block h id).

Definition reset (depth : Z) (h : Heap) (id : nat) : Heap :=
  setBlock h id (Block.reset depth (block h id)).

Definition confirm (depth : Z) (h : Heap) (id : nat) : Heap :=
  setBlock h id (Block.confirm depth (block h id)).

Section MatchValue.
(** [IdTraits<Type>::equal], the overridable equality. *)
Variable equal : Val -> Val -> bool.

(** [Id::matchValue]; [lvalue] tells whether [Value] is an lvalue
    reference, which is what [StorePointer<Type, Value>] amounts to
    ([std::is_scalar] is false on every reference type). *)
Definition matchValue (h : Heap) (id : nat) (v : Val) (lvalue : bool)
  : bool * Heap :=
  if hasValue h id then
    match Block.value (block h id) with
    | Ok stored => (equal stored v, h)
    | Throw _ => (false, h)
    end
  else
    (true,
     setBlock h id
       (mkBlock (Block.bindValue v lvalue) (mDepth (block h id)))).
End MatchValue.

End Id.

(** [IdTraits<Type>::equal] as the library defines it. *)
Definition IdTraits_equal (lhs rhs : Val) : bool := Val_eqb lhs rhs.

(** ** Patterns *)

Inductive Pattern : Type :=
| PLit (v : Val)                                  (* any type with [==] *)
| PWildcard                                       (* [_] *)
| POr (ps : list Pattern)
| PMeet (pred : Heap -> Val -> bool)
| PApp (unary : Heap -> Val -> Val) (byRef : bool) (p : Pattern)
| PAnd (ps : list Pattern)
| PNot (p : Pattern)
| PId (id : nat)
| PDs (ps : list Pattern)
| POoo
| POooBinder (id : nat)
| PPostCheck (p : Pattern) (pred : Heap -> bool).

Inductive IdProcess : Type := kCANCEL | kCONFIRM.

(** [Context<Ts...>]: append-only buffer of intermediate values. *)
Abbreviation Context := (list Val).
Definition emplace_back (c : Context) (v : Val) : Context := c ++ [v].

(** What a match reads and writes: the identifier cells and the context. *)
Abbreviation St := (list BlockVT * list Val)%type.

(** [PatternTraits<Id<Type>>::processIdImpl] *)
Definition processIdImpl_Id (id : nat) (depth : Z) (idProcess : IdProcess)
    (h : Heap) : Heap :=
  match idProcess with
  | kCANCEL => Id.reset depth h id
  | kCONFIRM => Id.confirm depth h id
  end.

(** [processId]: each [PatternTraits<...>::processIdImpl], children visited
    left to right. *)
Fixpoint processId (p : Pattern) (depth : Z) (idProcess : IdProcess)
    (h : Heap) {struct p} : Heap :=
  match p with
  | PLit _ | PWildcard | PMeet _ | POoo => h
  | POr ps | PAnd ps | PDs ps =>
      fold_left (fun h' q => processId q depth idProcess h') ps h
  | PApp _ _ q | PNot q | PPostCheck q _ => processId q depth idProcess h
  | PId id | POooBinder id => processIdImpl_Id id depth idProcess h
  end.

(** [PatternTraits<...>::nbIdV]. [OooBinder<T>] takes it from the traits of
    the bound type [T], which is the primary template; [PostCheck] declares
    none. *)
Fixpoint nbIdV (p : Pattern) : nat :=
  match p with
  | PId _ => 1
  | POr ps | PAnd ps | PDs ps => list_sum (map nbIdV ps)
  | PApp _ _ q | PNot q => nbIdV q
  | _ => 0
  end.

(** [NbIdInTuple] *)
Definition NbIdInTuple (ps : list Pattern) : nat := list_sum (map nbIdV ps).

Definition isOooBinderV (p : Pattern) : bool :=
  match p with POooBinder _ => true | _ => false end.

Definition isOooOrBinderV (p : Pattern) : bool :=
  match p with POoo | POooBinder _ => true | _ => false end.

Definition nbOooOrBinderV (ps : list Pattern) : nat :=
  list_sum (map (fun p => if isOooOrBinderV p then 1 else 0)%nat ps).

(** [findOooIdxImpl]: the sum of the indices that hold a splice. *)
Definition findOooIdx (ps : list Pattern) : nat :=
  list_sum (imap (fun I p => if isOooOrBinderV p then I else 0)%nat ps).

(** [size_t] arithmetic (64-bit) and the cast to [long]. *)
Definition wrap_size_t (z : Z) : Z := z mod 2 ^ 64.
Definition to_long (z : Z) : Z := (z + 2 ^ 63) mod 2 ^ 64 - 2 ^ 63.

(** The wrapper part of [matchPattern]: confirm or cancel the identifiers of
    the pattern according to the result. *)
Definition afterMatch (p : Pattern) (depth : Z) (r : bool * St) : bool * St :=
  let '(result, (h, c)) := r in
  let process := if result then kCONFIRM else kCANCEL in
  (result, (processId p depth process h, c)).

(** [matchPattern] on an [Id<Type>]. *)
Definition matchPattern_Id (equal : Val -> Val -> bool) (id : nat)
    (v : Val) (lv : bool) (depth : Z) (s : St) : bool * St :=
  afterMatch (PId id) depth
    (let '(h, c) := s in
     let '(r, h') := Id.matchValue equal h id v lv in (r, (h', c))).

(** [matchPattern] on an [OooBinder<T>]: its implementation matches the
    bound [Id] one level deeper. *)
Definition matchPattern_OooBinder (equal : Val -> Val -> bool) (id : nat)
    (v : Val) (lv : bool) (depth : Z) (s : St) : bool * St :=
  afterMatch (POooBinder id) depth
    (matchPattern_Id equal id v lv (add32 depth 1) s).

Section Children.
(** [mp q x lv s] is [matchPattern(x, q, depth + 1, context)]. *)
Variable mp : Pattern -> Val -> bool -> St -> bool * St.

(** [(matchPattern(value, patterns, depth + 1, context) || ...)] over all
    children, the last one receiving the forwarded value. *)
Fixpoint matchOr (ps : list Pattern) (v : Val) (lvLast : bool) (s : St)
    {struct ps} : bool * St :=
  match ps with
  | [] => (false, s)
  | q :: qs =>
      let lv := match qs with [] => lvLast | _ => true end in
      let '(r, s1) := mp q v lv s in
      if r then (true, s1) else matchOr qs v lvLast s1
  end.

(** [(matchPattern(value, patterns, depth + 1, context) && ...)] *)
Fixpoint matchAnd (ps : list Pattern) (v : Val) (lvLast : bool) (s : St)
    {struct ps} : bool * St :=
  match ps with
  | [] => (true, s)
  | q :: qs =>
      let lv := match qs with [] => lvLast | _ => true end in
      let '(r, s1) := mp q v lv s in
      if r then matchAnd qs v lvLast s1 else (false, s1)
  end.

(** The fold [(func(elem(I), get<I + patternStartIdx>(patternTuple)) && ...)]
    for [I] from [I0] on, [size] times; [skip] patterns are still to be
    passed over before the pattern of index [patternStartIdx]. An index
    outside the value ([get<I>] past the arity, which does not compile) is
    a mismatch. *)
Fixpoint matchElems (ps : list Pattern) (skip size : nat)
    (elem : nat -> option Val) (I0 : nat) (lv : bool) (s : St)
    {struct ps} : bool * St :=
  match ps with
  | [] => (true, s)
  | q :: qs =>
      match skip with
      | S k => matchElems qs k size elem I0 lv s
      | O =>
          match size with
          | O => (true, s)
          | S sz =>
              match elem I0 with
              | None => (false, s)
              | Some x =>
                  let '(r, s1) := mp q x lv s in
                  if r then matchElems qs O sz elem (S I0) lv s1
                  else (false, s1)
              end
          end
      end
  end.

(** [matchPatternMultiple<valueStartIdx, patternStartIdx, size>] *)
Definition matchPatternMultiple (valueStartIdx patternStartIdx size : nat)
    (valueTuple : list Val) (lv : bool) (ps : list Pattern) (s : St)
    : bool * St :=
  matchElems ps patternStartIdx size
    (fun I => valueTuple !! (I + valueStartIdx)%nat) O lv s.

(** [matchPatternRange<patternStartIdx, size>]; the iterator
    [valueRangeBegin] is the list of the elements from it on. *)
Definition matchPatternRange (patternStartIdx size : nat)
    (valueRangeBegin : list Val) (ps : list Pattern) (s : St)
    : bool * St :=
  matchElems ps patternStartIdx size
    (fun I => valueRangeBegin !! I) O true s.
End Children.

(** ** The matcher *)

Section Matcher.
(** [IdTraits<Type>::equal] *)
Variable equal : Val -> Val -> bool.

Section Destructure.
Variable mp : Pattern -> Val -> bool -> St -> bool * St.

(** The [OooBinder] branch shared by both overloads: the subrange is put
    in the context, then the binder is matched (at [depth], not
    [depth + 1]) against it, read back from the context, when the patterns
    before it matched. *)
Definition matchSplice (ps : list Pattern) (idxOoo : nat) (sub : Val)
    (depth : Z) (r : bool * St) : bool * St :=
  match ps !! idxOoo with
  | Some (POooBinder id) =>
      let '(result, (h, c)) := r in
      let s1 := (h, emplace_back c sub) in
      if result then matchPattern_OooBinder equal id sub true depth s1
      else (false, s1)
  | _ => r
  end.

(** [PatternTraits<Ds<Patterns...>>::matchPatternImpl], tuple-like
    overload. A [static_assert] that fails is a mismatch. *)
Definition matchDsTuple (isArray : bool) (valueTuple : list Val)
    (lv : bool) (ps : list Pattern) (depth : Z) (s : St) : bool * St :=
  let valLen := length valueTuple in
  let patLen := length ps in
  match nbOooOrBinderV ps with
  | O =>
      if (patLen =? valLen)%nat
      then matchPatternMultiple mp 0 0 patLen valueTuple true ps s
      else (false, s)
  | 1%nat =>
      let idxOoo := findOooIdx ps in
      let isBinder :=
        match ps !! idxOoo with
        | Some q => isOooBinderV q
        | None => false
        end in
      if isBinder && negb isArray then (false, s)
      else
        let r := matchPatternMultiple mp 0 0 idxOoo valueTuple lv ps s in
        let rangeSize :=
          to_long (wrap_size_t (Z.of_nat valLen - (Z.of_nat patLen - 1))) in
        let sub :=
          VRange (take (Z.to_nat rangeSize) (drop idxOoo valueTuple)) in
        let '(result, s2) := matchSplice ps idxOoo sub depth r in
        if result then
          matchPatternMultiple mp
            (Z.to_nat (wrap_size_t (Z.of_nat valLen - Z.of_nat patLen
                                    + Z.of_nat idxOoo + 1)))
            (idxOoo + 1) (patLen - idxOoo - 1) valueTuple lv ps s2
        else (false, s2)
  | _ => (false, s)
  end.

(** [PatternTraits<Ds<Patterns...>>::matchPatternImpl], range
    overload. *)
Definition matchDsRange (valueRange : list Val) (ps : list Pattern)
    (depth : Z) (s : St) : bool * St :=
  let nbPat := length ps in
  match nbOooOrBinderV ps with
  | O =>
      if negb (length valueRange =? nbPat)%nat then (false, s)
      else matchPatternRange mp 0 nbPat valueRange ps s
  | 1%nat =>
      if Z.of_nat (length valueRange) <? wrap_size_t (Z.of_nat nbPat - 1)
      then (false, s)
      else
        let idxOoo := findOooIdx ps in
        let r := matchPatternRange mp 0 idxOoo valueRange ps s in
        let valLen := length valueRange in
        let patLen := nbPat in
        let beginOoo := drop idxOoo valueRange in
        let rangeSize :=
          to_long (wrap_size_t (Z.of_nat valLen - (Z.of_nat patLen - 1))) in
        let sub := VRange (take (Z.to_nat rangeSize) beginOoo) in
        let '(result, s2) := matchSplice ps idxOoo sub depth r in
        let beginAfterOoo :=
          drop (Z.to_nat (to_long (wrap_size_t
                  (Z.of_nat valLen - Z.of_nat patLen + 1)))) beginOoo in
        if result then
          matchPatternRange mp (idxOoo + 1) (patLen - idxOoo - 1)
            beginAfterOoo ps s2
        else (false, s2)
  | _ => (false, s)
  end.
End Destructure.

(** [PatternTraits<Pattern>::matchPatternImpl] for every pattern kind.
    [lv] tells whether the value reaches the pattern as an lvalue. *)
Fixpoint matchPatternImpl (p : Pattern) (v : Val) (lv : bool) (depth : Z)
    (s : St) {struct p} : bool * St :=
  let mp := fun (q : Pattern) (x : Val) (lvx : bool) (s' : St) =>
    afterMatch q (add32 depth 1)
      (matchPatternImpl q x lvx (add32 depth 1) s') in
  match p with
  | PLit c => (Val_eqb c v, s)
  | PWildcard => (true, s)
  | POr ps => matchOr mp ps v lv s
  | PMeet pred => (pred (fst s) v, s)
  | PApp unary byRef q =>
      let r := unary (fst s) v in
      if byRef || is_scalar r then mp q r byRef s
      else mp q r false (fst s, emplace_back (snd s) r)
  | PAnd ps =>
      matchAnd mp ps v
        (if (NbIdInTuple (removelast ps) =? 0)%nat then lv else true) s
  | PNot q => let '(r, s1) := mp q v lv s in (negb r, s1)
  | PId id =>
      let '(h, c) := s in
      let '(r, h') := Id.matchValue equal h id v lv in (r, (h', c))
  | PDs ps =>
      match v with
      | VTuple xs => matchDsTuple mp false xs lv ps depth s
      | VArray xs => matchDsTuple mp true xs lv ps depth s
      | VRange xs => matchDsRange mp xs ps depth s
      | VInt _ => (false, s)
      end
  | POoo => (true, s)
  | POooBinder id => matchPattern_Id equal id v lv (add32 depth 1) s
  | PPostCheck q pred =>
      let '(r, s1) := mp q v lv s in (r && pred (fst s1), s1)
  end.

(** [matchPattern] *)
Definition matchPattern (p : Pattern) (v : Val) (lv : bool) (depth : Z)
    (s : St) : bool * St :=
  afterMatch p depth (matchPatternImpl p v lv depth s).

(** ** The clause driver *)

(** [PatternPair<Pattern, Func>] *)
Record PatternPair (R : Type) : Type := mkPatternPair {
  mPattern : Pattern;
  mHandler : Heap -> R
}.
Arguments mPattern {R} _.
Arguments mHandler {R} _.

(** State of a run of the driver: the identifier cells, and the indices of
    the clauses whose handler has been executed, oldest first. *)
Definition Run : Type := (Heap * list nat)%type.

(** The scrutinee of the driver. [matchPatterns] hands
    [std::forward<Value>(value)] to every clause in turn. A scrutinee
    passed as an lvalue ([Value] is an lvalue reference) is captured by
    pointer or copied, and one of scalar type is copied, so that every
    clause sees the same value: these are the scrutinees of this model. An
    rvalue of class type, which a capture by value in one clause leaves
    moved-from for the clauses after it, is not among them. *)
Inductive Scrutinee : Type :=
  | lvalueOf (v : Val)
  | scalarOf (n : Z).

Definition Scrutinee_value (sc : Scrutinee) : Val :=
  match sc with
  | lvalueOf v => v
  | scalarOf n => VInt n
  end.

(** Whether [Value] is an lvalue reference. *)
Definition Scrutinee_lvalue (sc : Scrutinee) : bool :=
  match sc with
  | lvalueOf _ => true
  | scalarOf _ => false
  end.

Section Driver.
Context {R : Type}.

(** [PatternPair::matchValue] *)
Definition PatternPair_matchValue (pp : PatternPair R) (v : Val)
    (lv : bool) (s : St) : bool * St :=
  matchPattern (mPattern pp) v lv 0 s.

(** [processId] called on a [PatternPair]: [PatternTraits] has no
    specialisation for [PatternPair], so the call selects the primary
    template, whose [processIdImpl] has an empty body. *)
Definition processId_PatternPair (pp : PatternPair R) (depth : Z)
    (idProcess : IdProcess) (h : Heap) : Heap := h.

(** The lambda [func] of [matchPatterns] applied to clause number [i]:
    a fresh context, the match, then on success the handler and
    [processId(pattern, 0, IdProcess::kCANCEL)], where [pattern] is the
    [PatternPair]. *)
Definition func (i : nat) (pp : PatternPair R) (sc : Scrutinee)
    (result : R) (run : Run) : bool * R * Run :=
  let '(h, executed) := run in
  let context : Context := [] in
  let '(matched, (h1, _)) :=
    PatternPair_matchValue pp (Scrutinee_value sc) (Scrutinee_lvalue sc)
      (h, context) in
  if matched then
    let result' := mHandler pp h1 in
    (true, result',
     (processId_PatternPair pp 0 kCANCEL h1, executed ++ [i]))
  else (false, result, (h1, executed)).

(** [(func(patterns, value, result) || ...)] *)
Fixpoint tryClauses (i : nat) (pps : list (PatternPair R)) (sc : Scrutinee)
    (result : R) (run : Run) : bool * R * Run :=
  match pps with
  | [] => (false, result, run)
  | pp :: rest =>
      let '(matched, result', run') := func i pp sc result run in
      if matched then (true, result', run')
      else tryClauses (S i) rest sc result' run'
  end.

(** [matchPatterns], expression form ([RetType] is not [void]);
    [result0] is [RetType result{}]. *)
Definition matchPatterns (result0 : R) (sc : Scrutinee)
    (pps : list (PatternPair R)) (run : Run) : Except R * Run :=
  let '(matched, result, run') := tryClauses 0 pps sc result0 run in
  if negb matched
  then (Throw "Error: no patterns got matched!", run')
  else (Ok result, run').

(** [matchPatterns], statement form ([RetType] is [void]). *)
Definition matchPatterns_void (result0 : R) (sc : Scrutinee)
    (pps : list (PatternPair R)) (run : Run) : Run :=
  let '(_, _, run') := tryClauses 0 pps sc result0 run in run'.
End Driver.
End Matcher.

Arguments mkPatternPair {R} _ _.
Arguments mPattern {R} _.
Arguments mHandler {R} _.

(** ** Vocabulary of the statements *)

(** The [Id] objects a pattern refers to, in the order [processId] visits
    them. *)
Fixpoint ids (p : Pattern) : list nat :=
  match p with
  | PId id | POooBinder id => [id]
  | POr ps | PAnd ps | PDs ps => concat (map ids ps)
  | PApp _ _ q | PNot q | PPostCheck q _ => ids q
  | _ => []
  end.

(** The blocks behind them. *)
Definition cellsOf (h : Heap) (p : Pattern) : list nat :=
  map (Id.owner h) (ids p).

(** Number of levels the matcher descends below a pattern. *)
Fixpoint height (p : Pattern) : Z :=
  match p with
  | POr ps | PAnd ps | PDs ps => 1 + foldr Z.max 1 (map height ps)
  | PApp _ _ q | PNot q | PPostCheck q _ => 1 + height q
  | POooBinder _ => 1
  | _ => 0
  end.

Definition max32 : Z := 2 ^ 31 - 1.

(** A depth from which a pattern can be matched without leaving [int32_t]. *)
Definition depthOk (depth : Z) (p : Pattern) : Prop :=
  0 <= depth /\ depth + height p <= max32.

(** A cell as [Id()] or the driver leaves it. *)
Definition isFresh (h : Heap) (o : nat) : Prop := Id.load h o = freshBlock.

(** A cell whose recorded depth is one the matcher can have written. *)
Definition cellOk (h : Heap) (o : nat) : Prop :=
  0 <= mDepth (Id.load h o) <= max32.

(** What [processIdImpl] does to the block of an [Id]. *)
Definition processBlock (idProcess : IdProcess) (depth : Z) (b : Block)
    : Block :=
  match idProcess with
  | kCANCEL => Block.reset depth b
  | kCONFIRM => Block.confirm depth b
  end.

(** One thing [matchPattern] does to a block at a depth between [lo] and
    [hi]: confirm it, reset it, or bind it and confirm the binding. *)
Inductive Step (lo hi : Z) : Block -> Block -> Prop :=
| step_confirm d b :
    lo <= d <= hi -> Step lo hi b (Block.confirm d b)
| step_reset d b :
    lo <= d <= hi -> Step lo hi b (Block.reset d b)
| step_bind d b v sp :
    lo <= d <= hi -> mVariant b = monostate ->
    Step lo hi b
      (Block.confirm d (mkBlock (Block.bindValue v sp) (mDepth b))).

Definition Touch (lo hi : Z) : Block -> Block -> Prop := rtc (Step lo hi).

(** The heap in which every owned block [b] at address [a] has become
    [f a b]. *)
Definition heapMap (f : nat -> Block -> Block) (h : Heap) : Heap :=
  imap (fun a x =>
          match x with
          | ownBlock b => ownBlock (f a b)
          | ptrBlock p => ptrBlock p
          end) h.

(** [h'] differs from [h] by blocks at the addresses [cs], each related to
    its former contents by [Rel]. *)
Definition Eff (Rel : Block -> Block -> Prop) (cs : list nat)
    (h h' : Heap) : Prop :=
  forall a : nat,
    match h !! a with
    | Some (ownBlock b) =>
        exists b', h' !! a = Some (ownBlock b') /\ Rel b b' /\
                   (a ∉ cs -> b' = b)
    | x => h' !! a = x
    end.

(** Sub-patterns matched one after the other against the elements of a
    sequence, each from the state its predecessor left, all with success. *)
Inductive Chain (mp : Pattern -> Val -> bool -> St -> bool * St)
    : list Pattern -> list Val -> St -> St -> Prop :=
| chain_nil s : Chain mp [] [] s s
| chain_cons q qs x xs s s1 s2 :
    mp q x true s = (true, s1) ->
    Chain mp qs xs s1 s2 ->
    Chain mp (q :: qs) (x :: xs) s s2.

(** [processId] applies [processBlock] once to each cell of the pattern. *)
Definition processAll (cs : list nat) (proc : IdProcess) (depth : Z)
    (h : Heap) : Heap :=
  heapMap (fun a b => if decide (a ∈ cs) then processBlock proc depth b else b)
    h.

(** [matchPattern] of a child, one level below [depth]. *)
Definition matchChild (equal : Val -> Val -> bool) (depth : Z)
    : Pattern -> Val -> bool -> St -> bool * St :=
  fun q x lvx s' => matchPattern equal q x lvx (add32 depth 1) s'.

(** What [matchPatternImpl] alone may do to a block: for an [Id], nothing or
    the bare binding of an empty cell; for the other kinds, whatever the
    calls of [matchPattern] inside it do. *)
Definition ImplRel (p : Pattern) (depth : Z) (r : bool)
    : Block -> Block -> Prop :=
  match p with
  | PId _ =>
      fun b b' =>
        b' = b \/
        (r = true /\ mVariant b = monostate /\
         exists v sp, b' = mkBlock (Block.bindValue v sp) (mDepth b))
  | _ => Touch depth (depth + height p)
  end.

(** The children named in [ps] are matched by [mp] with effect [Rel] on
    their own cells. *)
Definition childrenSpec (mp : Pattern -> Val -> bool -> St -> bool * St)
    (Rel : Block -> Block -> Prop) (ps : list Pattern) : Prop :=
  forall q, q ∈ ps -> forall x lvx (s : St) r (s' : St),
    mp q x lvx s = (r, s') ->
    Eff Rel (cellsOf (fst s) q) (fst s) (fst s').

(** The effect of [matchPatternImpl] on a pattern, at every depth from
    which it can be matched. *)
Definition ImplSpec (equal : Val -> Val -> bool) (q : Pattern) : Prop :=
  forall v lv depth (s : St) r (s' : St),
    depthOk depth q ->
    matchPatternImpl equal q v lv depth s = (r, s') ->
    Eff (ImplRel q depth r) (cellsOf (fst s) q) (fst s) (fst s').

(** The heap in which the cells [cs] are as [Id()] makes them. *)
Definition resetCells (cs : list nat) (h : Heap) : Heap :=
  heapMap (fun a b => if decide (a ∈ cs) then freshBlock else b) h.

(** Recorded depth within the range the matcher writes. *)
Definition okBlock (b : Block) : Prop := 0 <= mDepth b <= max32.

(** A block that a rollback to depth [D] clears if it is bound: it was
    never touched, or its recorded depth is [D] at least. *)
Definition rollsBack (D : Z) (b : Block) : Prop :=
  (mVariant b = monostate /\ mDepth b = 0) \/ D <= mDepth b.

(** Clauses the driver can run from heap [h]: patterns that fit in the
    depth range, over cells whose recorded depth is in it too. *)
Definition clausesOk {R} (pps : list (PatternPair R)) (h : Heap) : Prop :=
  forall pp : PatternPair R, pp ∈ pps ->
    (depthOk 0 (mPattern pp) /\
     forall o : nat, o ∈ cellsOf h (mPattern pp) -> cellOk h o)%type.

(** Clauses whose identifier cells are all as [Id()] makes them: empty,
    with recorded depth 0. *)
Definition clausesFresh {R} (pps : list (PatternPair R)) (h : Heap) : Prop :=
  forall pp : PatternPair R, pp ∈ pps ->
    (depthOk 0 (mPattern pp) /\
     forall o : nat, o ∈ cellsOf h (mPattern pp) -> isFresh h o)%type.

(** The value captured by cell [id], for handlers yielding integers. *)
Definition captured (h : list BlockVT) (id : nat) : Z :=
  match Id.value h id with
  | Ok (VInt n) => n
  | _ => 0
  end.

(** Alternatives tried one after the other against the same value, each
    from the state its predecessor left, all without success. *)
Inductive FailChain (mp : Pattern -> Val -> bool -> St -> bool * St)
    (v : Val) : list Pattern -> St -> St -> Prop :=
| fail_nil s : FailChain mp v [] s s
| fail_cons q qs s s1 s2 :
    mp q v true s = (false, s1) ->
    FailChain mp v qs s1 s2 ->
    FailChain mp v (q :: qs) s s2.

(** The most [emplace_back]s a match of a pattern can make: one for an
    [App] whose result goes through the context, one for a binding
    splice. *)
Fixpoint nbPush (p : Pattern) : nat :=
  match p with
  | PApp _ byRef q => (if byRef then 0 else 1) + nbPush q
  | POr ps | PAnd ps | PDs ps => list_sum (map nbPush ps)
  | PNot q | PPostCheck q _ => nbPush q
  | POooBinder _ => 1
  | _ => 0
  end.

(** The context of [s'] is the one of [s] with [n] elements at most
    appended. *)
Definition ctxGrows (n : nat) (s s' : St) : Prop :=
  exists ext : list Val, snd s' = snd s ++ ext /\ (length ext <= n)%nat.

(** ** Type lists: [WithinTypes], [PrependUnique], [Unique]

    A [std::tuple<Ts...>] of types is the list of their names. *)
Section TypeLists.
Context {A : Type} `{EqDecision A}.

(** [(std::is_same_v<T, Ts> || ...)] *)
Definition WithinTypes (T : A) (Ts : list A) : bool :=
  existsb (fun U => bool_decide (T = U)) Ts.

Definition PrependUnique (T : A) (Ts : list A) : list A :=
  let unique := negb (WithinTypes T Ts) in
  if unique then T :: Ts else Ts.

Fixpoint Unique (Ts : list A) : list A :=
  match Ts with
  | [] => []
  | T :: Ts' => PrependUnique T (Unique Ts')
  end.
End TypeLists.

(** [Id::at(pattern)]: [and_(pattern, *this)], the conjunction holding a
    copy of the [Id]. *)
Definition Id_at (h : Heap) (x : nat) (p : Pattern) : Heap * Pattern :=
  let '(h1, y) := Id.copy h x in (h1, PAnd [p; PId y]).

(** The block at address [o] holds the value [v]. *)
Definition holds (h : Heap) (o : nat) (v : Val) : Prop :=
  exists bb, h !! o = Some (ownBlock bb) /\ Block.value bb = Ok v.

(** Conjuncts matched one after the other against the same value, each
    from the state its predecessor left, all with success; the last one
    receives the value as [lvLast] says, the others as an lvalue. *)
Inductive AndChain (mp : Pattern -> Val -> bool -> St -> bool * St)
    (v : Val) (lvLast : bool) : list Pattern -> St -> St -> Prop :=
| and_nil s : AndChain mp v lvLast [] s s
| and_cons q qs s s1 s2 :
    mp q v (match qs with [] => lvLast | _ => true end) s = (true, s1) ->
    AndChain mp v lvLast qs s1 s2 ->
    AndChain mp v lvLast (q :: qs) s s2.

(** The splice [q] of a [Ds] at depth [depth], met in state [s1] with the
    elements [sub] it stands for, leaves state [s2]: a plain [ooo] changes
    nothing; a binding splice has the subrange put in the context and is
    matched against it, with success. *)
Definition spliceStep (equal : Val -> Val -> bool) (depth : Z)
    (q : Pattern) (sub : Val) (s1 s2 : St) : Prop :=
  match q with
  | POooBinder _ =>
      matchPattern equal q sub true depth
        (fst s1, emplace_back (snd s1) sub) = (true, s2)
  | _ => s2 = s1
  end.

(** * Properties *)

(** ** Induction on patterns *)

Lemma Pattern_ind' (P : Pattern -> Prop) :
  (forall v, P (PLit v)) ->
  P PWildcard ->
  (forall ps, Forall P ps -> P (POr ps)) ->
  (forall pred, P (PMeet pred)) ->
  (forall unary byRef q, P q -> P (PApp unary byRef q)) ->
  (forall ps, Forall P ps -> P (PAnd ps)) ->
  (forall q, P q -> P (PNot q)) ->
  (forall id, P (PId id)) ->
  (forall ps, Forall P ps -> P (PDs ps)) ->
  P POoo ->
  (forall id, P (POooBinder id)) ->
  (forall q pred, P q -> P (PPostCheck q pred)) ->
  forall p, P p.
Proof.
  intros HLit HWild HOr HMeet HApp HAnd HNot HId HDs HOoo HBind HPost.
  fix IH 1. intros p.
  destruct p as [v| |ps|pred|unary byRef q|ps|q|id|ps| |id|q pred].
  - apply HLit.
  - apply HWild.
  - apply HOr. induction ps as [|q qs IHqs]; constructor; [apply IH|exact IHqs].
  - apply HMeet.
  - apply HApp, IH.
  - apply HAnd. induction ps as [|q qs IHqs]; constructor; [apply IH|exact IHqs].
  - apply HNot, IH.
  - apply HId.
  - apply HDs. induction ps as [|q qs IHqs]; constructor; [apply IH|exact IHqs].
  - apply HOoo.
  - apply HBind.
  - apply HPost, IH.
Qed.

(** ** 32-bit arithmetic in range *)

Lemma wrap32_id z : int32 z -> wrap32 z = z.
Proof.
  unfold int32, wrap32. intros Hz.
  rewrite Z.mod_small by lia. lia.
Qed.

Lemma add32_succ depth : 0 <= depth -> depth + 1 <= max32 ->
  add32 depth 1 = depth + 1.
Proof.
  unfold add32, max32. intros. apply wrap32_id. unfold int32. lia.
Qed.

Lemma sub32_exact m d : 0 <= m <= max32 -> 0 <= d <= max32 ->
  sub32 m d = m - d.
Proof.
  unfold sub32, max32. intros. apply wrap32_id. unfold int32. lia.
Qed.

Lemma foldr_max_lower (l : list Z) : 1 <= foldr Z.max 1 l.
Proof. induction l; simpl; lia. Qed.

Lemma height_nonneg p : 0 <= height p.
Proof.
  induction p using Pattern_ind'; simpl;
    try pose proof (foldr_max_lower (map height ps)); lia.
Qed.

Lemma height_elem q ps : q ∈ ps -> height q <= foldr Z.max 1 (map height ps).
Proof.
  induction 1; simpl; lia.
Qed.

(** ** The heap under pointwise updates *)

Lemma heapMap_lookup f (h : Heap) (a : nat) :
  heapMap f h !! a =
  match h !! a with
  | Some (ownBlock b) => Some (ownBlock (f a b))
  | x => x
  end.
Proof.
  unfold heapMap. rewrite list_lookup_imap.
  destruct (h !! a) as [[b|q]|]; reflexivity.
Qed.

Lemma heapMap_ext f g (h : Heap) :
  (forall a b, h !! a = Some (ownBlock b) -> f a b = g a b) ->
  heapMap f h = heapMap g h.
Proof.
  intros Hfg. apply list_eq. intros a. rewrite !heapMap_lookup.
  destruct (h !! a) as [[b|q]|] eqn:E; try reflexivity.
  rewrite (Hfg a b E). reflexivity.
Qed.

Lemma heapMap_id f (h : Heap) :
  (forall a b, h !! a = Some (ownBlock b) -> f a b = b) -> heapMap f h = h.
Proof.
  intros Hf. apply list_eq. intros a. rewrite heapMap_lookup.
  destruct (h !! a) as [[b|q]|] eqn:E; try reflexivity.
  rewrite (Hf a b E). reflexivity.
Qed.

Lemma heapMap_compose f g (h : Heap) :
  heapMap f (heapMap g h) = heapMap (fun a b => f a (g a b)) h.
Proof.
  apply list_eq. intros a. rewrite !heapMap_lookup.
  destruct (h !! a) as [[b|q]|]; reflexivity.
Qed.

Lemma owner_heapMap f h id : Id.owner (heapMap f h) id = Id.owner h id.
Proof.
  unfold Id.owner. rewrite heapMap_lookup.
  destruct (h !! id) as [[b|q]|]; reflexivity.
Qed.

Lemma cellsOf_heapMap f h p : cellsOf (heapMap f h) p = cellsOf h p.
Proof.
  unfold cellsOf. apply map_ext. intros id. apply owner_heapMap.
Qed.

Lemma load_heapMap f h o :
  Id.load (heapMap f h) o =
  match h !! o with
  | Some (ownBlock b) => f o b
  | _ => freshBlock
  end.
Proof.
  unfold Id.load. rewrite heapMap_lookup.
  destruct (h !! o) as [[b|q]|]; reflexivity.
Qed.

(** Every write of the library to a cell is a pointwise update. *)
Lemma setBlock_heapMap h id (g : Block -> Block) :
  Id.setBlock h id (g (Id.block h id)) =
  heapMap (fun a b => if decide (a = Id.owner h id) then g b else b) h.
Proof.
  unfold Id.setBlock, Id.store, Id.block, Id.load.
  set (o := Id.owner h id).
  destruct (h !! o) as [[b|q]|] eqn:E.
  - apply list_eq. intros a. rewrite heapMap_lookup.
    destruct (decide (a = o)) as [->|Hne].
    + rewrite E. apply list_lookup_insert_eq.
      apply lookup_lt_is_Some. eauto.
    + rewrite list_lookup_insert_ne by congruence.
      destruct (h !! a) as [[b'|q']|]; reflexivity.
  - symmetry. apply heapMap_id. intros a b Ha.
    destruct (decide (a = o)) as [->|Hne]; [congruence|reflexivity].
  - symmetry. apply heapMap_id. intros a b Ha.
    destruct (decide (a = o)) as [->|Hne]; [congruence|reflexivity].
Qed.

Lemma sub32_diag d : sub32 d d = 0.
Proof. unfold sub32. rewrite Z.sub_diag. reflexivity. Qed.

Lemma processBlock_idemp proc d b :
  processBlock proc d (processBlock proc d b) = processBlock proc d b.
Proof.
  destruct proc; simpl.
  - unfold Block.reset.
    destruct (sub32 (mDepth b) d >=? 0) eqn:E; simpl.
    + rewrite sub32_diag. reflexivity.
    + rewrite E. reflexivity.
  - unfold Block.confirm.
    destruct ((mDepth b >? d) || (mDepth b =? 0)) eqn:E; simpl.
    + destruct ((d >? d) || (d =? 0)); reflexivity.
    + rewrite E. reflexivity.
Qed.

Lemma cellsOf_children h ps :
  map (Id.owner h) (concat (map ids ps)) = concat (map (cellsOf h) ps).
Proof.
  induction ps as [|q qs IH]; simpl; [reflexivity|].
  rewrite map_app, IH. reflexivity.
Qed.

Lemma processAll_app cs1 cs2 proc depth h :
  processAll cs2 proc depth (processAll cs1 proc depth h) =
  processAll (cs1 ++ cs2) proc depth h.
Proof.
  unfold processAll. rewrite heapMap_compose. apply heapMap_ext.
  intros a b _.
  destruct (decide (a ∈ cs1)) as [H1|H1], (decide (a ∈ cs2)) as [H2|H2],
           (decide (a ∈ cs1 ++ cs2)) as [H3|H3];
    rewrite ?processBlock_idemp; try reflexivity;
    exfalso; rewrite elem_of_app in H3; tauto.
Qed.

Lemma processId_children proc depth ps :
  Forall (fun q => forall h,
            processId q depth proc h = processAll (cellsOf h q) proc depth h)
         ps ->
  forall h,
    fold_left (fun h' q => processId q depth proc h') ps h =
    processAll (concat (map (cellsOf h) ps)) proc depth h.
Proof.
  induction 1 as [|q qs Hq _ IH]; intros h; simpl.
  - unfold processAll. symmetry. apply heapMap_id. intros a b _.
    destruct (decide (a ∈ [])) as [Hin|]; [inversion Hin|reflexivity].
  - rewrite Hq, IH.
    replace (map (cellsOf (processAll (cellsOf h q) proc depth h)) qs)
      with (map (cellsOf h) qs)
      by (apply map_ext; intros; symmetry; apply cellsOf_heapMap).
    apply processAll_app.
Qed.

Lemma processId_processAll p depth proc h :
  processId p depth proc h = processAll (cellsOf h p) proc depth h.
Proof.
  revert h. induction p as [v| |ps IH|pred|unary byRef q IH|ps IH|q IH|id
                            |ps IH| |id|q pred IH] using Pattern_ind';
    intros h; simpl;
    try (unfold processAll; symmetry; apply heapMap_id; intros a b _;
         destruct (decide (a ∈ cellsOf h _)) as [Hin|];
         [inversion Hin|reflexivity]);
    try (unfold cellsOf; simpl; rewrite cellsOf_children;
         apply processId_children; exact IH);
    try (apply IH).
  all: unfold processIdImpl_Id, Id.reset, Id.confirm, processAll;
    destruct proc; rewrite setBlock_heapMap; apply heapMap_ext;
    intros a b _; unfold cellsOf; simpl;
    destruct (decide (a = Id.owner h id)) as [->|Hne],
             (decide (_ ∈ [Id.owner h id])) as [Hin|Hin];
    try reflexivity; exfalso;
    rewrite list_elem_of_singleton in Hin; tauto.
Qed.

(** ** Effects on the heap *)

Lemma Touch_mono lo hi lo' hi' b b' :
  lo' <= lo -> hi <= hi' -> Touch lo hi b b' -> Touch lo' hi' b b'.
Proof.
  intros Hlo Hhi. induction 1 as [|b1 b2 b3 Hs _ IH]; [apply rtc_refl|].
  eapply rtc_l; [|exact IH].
  destruct Hs; constructor; (lia || assumption).
Qed.

Lemma Eff_refl Rel cs h : (forall b, Rel b b) -> Eff Rel cs h h.
Proof.
  intros HR a. destruct (h !! a) as [[b|q]|]; eauto.
Qed.

Lemma Eff_trans Rel cs h h1 h2 :
  (forall b1 b2 b3, Rel b1 b2 -> Rel b2 b3 -> Rel b1 b3) ->
  Eff Rel cs h h1 -> Eff Rel cs h1 h2 -> Eff Rel cs h h2.
Proof.
  intros HR H1 H2 a. specialize (H1 a). specialize (H2 a).
  destruct (h !! a) as [[b|q]|].
  - destruct H1 as (b1 & E1 & R1 & F1). rewrite E1 in H2.
    destruct H2 as (b2 & E2 & R2 & F2).
    exists b2. split; [exact E2|]. split; [eauto|].
    intros Hn. rewrite F2, F1 by exact Hn. reflexivity.
  - rewrite H1 in H2. exact H2.
  - rewrite H1 in H2. exact H2.
Qed.

Lemma Eff_mono (Rel Rel' : Block -> Block -> Prop) cs cs' h h' :
  (forall b b', Rel b b' -> Rel' b b') -> cs ⊆ cs' ->
  Eff Rel cs h h' -> Eff Rel' cs' h h'.
Proof.
  intros HR Hcs H a. specialize (H a).
  destruct (h !! a) as [[b|q]|]; try exact H.
  destruct H as (b' & E & R & F). exists b'. repeat split; auto.
Qed.

Lemma Eff_owner Rel cs h h' id :
  Eff Rel cs h h' -> Id.owner h' id = Id.owner h id.
Proof.
  intros H. specialize (H id). unfold Id.owner.
  destruct (h !! id) as [[b|q]|].
  - destruct H as (b' & -> & _). reflexivity.
  - rewrite H. reflexivity.
  - rewrite H. reflexivity.
Qed.

Lemma Eff_cellsOf Rel cs h h' p :
  Eff Rel cs h h' -> cellsOf h' p = cellsOf h p.
Proof.
  intros H. unfold cellsOf. apply map_ext. intros id.
  eapply Eff_owner, H.
Qed.

Lemma Eff_heapMap (Rel : Block -> Block -> Prop) cs f h :
  (forall a b, h !! a = Some (ownBlock b) ->
     Rel b (f a b) /\ (a ∉ cs -> f a b = b)) ->
  Eff Rel cs h (heapMap f h).
Proof.
  intros Hf a. rewrite heapMap_lookup.
  destruct (h !! a) as [[b|q]|] eqn:E; try reflexivity.
  destruct (Hf a b E). eauto.
Qed.

Lemma cells_children_eq Rel cs h h' (ps : list Pattern) :
  Eff Rel cs h h' -> map (cellsOf h') ps = map (cellsOf h) ps.
Proof.
  intros H. apply map_ext. intros q. eapply Eff_cellsOf, H.
Qed.

Section ChildrenEffects.
Variable mp : Pattern -> Val -> bool -> St -> bool * St.
Variable Rel : Block -> Block -> Prop.
Hypothesis Rel_refl : forall b, Rel b b.
Hypothesis Rel_trans : forall b1 b2 b3, Rel b1 b2 -> Rel b2 b3 -> Rel b1 b3.

Local Abbreviation childrenSpec := (childrenSpec mp Rel).

Lemma childrenSpec_tail q qs : childrenSpec (q :: qs) -> childrenSpec qs.
Proof. intros H q' Hin. apply H. right. exact Hin. Qed.

Lemma child_then_rest q qs x lvx (s : St) r (s1 s2 : St) :
  childrenSpec (q :: qs) ->
  mp q x lvx s = (r, s1) ->
  Eff Rel (concat (map (cellsOf (fst s1)) qs)) (fst s1) (fst s2) ->
  Eff Rel (concat (map (cellsOf (fst s)) (q :: qs))) (fst s) (fst s2).
Proof.
  intros Hsp Hq Hrest.
  pose proof (Hsp q ltac:(left) _ _ _ _ _ Hq) as E1.
  apply Eff_trans with (h1 := fst s1); [exact Rel_trans| |].
  - eapply Eff_mono; [| |exact E1]; [auto|].
    simpl. intros a Ha. apply elem_of_app. left. exact Ha.
  - rewrite (cells_children_eq _ _ _ _ qs E1) in Hrest.
    eapply Eff_mono; [| |exact Hrest]; [auto|].
    simpl. intros a Ha. apply elem_of_app. right. exact Ha.
Qed.

Lemma child_only q qs x lvx (s : St) r (s1 : St) :
  childrenSpec (q :: qs) ->
  mp q x lvx s = (r, s1) ->
  Eff Rel (concat (map (cellsOf (fst s)) (q :: qs))) (fst s) (fst s1).
Proof.
  intros Hsp Hq. eapply child_then_rest; eauto.
  apply Eff_refl, Rel_refl.
Qed.

Lemma matchOr_eff ps : childrenSpec ps ->
  forall v lvLast (s : St) r (s' : St), matchOr mp ps v lvLast s = (r, s') ->
  Eff Rel (concat (map (cellsOf (fst s)) ps)) (fst s) (fst s').
Proof.
  induction ps as [|q qs IH]; intros Hsp v lvLast s r s'; simpl.
  - intros [= <- <-]. apply Eff_refl, Rel_refl.
  - destruct (mp q v _ s) as [r1 s1] eqn:Hq. destruct r1.
    + intros [= <- <-]. eapply child_only; eauto.
    + intros Hrest. eapply child_then_rest; eauto.
      eapply IH; eauto using childrenSpec_tail.
Qed.

Lemma matchAnd_eff ps : childrenSpec ps ->
  forall v lvLast (s : St) r (s' : St), matchAnd mp ps v lvLast s = (r, s') ->
  Eff Rel (concat (map (cellsOf (fst s)) ps)) (fst s) (fst s').
Proof.
  induction ps as [|q qs IH]; intros Hsp v lvLast s r s'; simpl.
  - intros [= <- <-]. apply Eff_refl, Rel_refl.
  - destruct (mp q v _ s) as [r1 s1] eqn:Hq. destruct r1.
    + intros Hrest. eapply child_then_rest; eauto.
      eapply IH; eauto using childrenSpec_tail.
    + intros [= <- <-]. eapply child_only; eauto.
Qed.

Lemma matchElems_eff ps : childrenSpec ps ->
  forall skip size elem I0 lv (s : St) r (s' : St),
    matchElems mp ps skip size elem I0 lv s = (r, s') ->
    Eff Rel (concat (map (cellsOf (fst s)) ps)) (fst s) (fst s').
Proof.
  induction ps as [|q qs IH]; intros Hsp skip size elem I0 lv s r s'; simpl.
  - intros [= <- <-]. apply Eff_refl, Rel_refl.
  - destruct skip as [|k].
    + destruct size as [|sz].
      { intros [= <- <-]. apply Eff_refl, Rel_refl. }
      destruct (elem I0) as [x|].
      2: { intros [= <- <-]. apply Eff_refl, Rel_refl. }
      destruct (mp q x lv s) as [r1 s1] eqn:Hq. destruct r1.
      * intros Hrest. eapply child_then_rest; eauto.
        eapply IH; eauto using childrenSpec_tail.
      * intros [= <- <-]. eapply child_only; eauto.
    + intros Hrest.
      eapply Eff_mono; [| |eapply IH; eauto using childrenSpec_tail].
      * auto.
      * intros a Ha. apply elem_of_app. right. exact Ha.
Qed.
End ChildrenEffects.

(** ** What one call of the matcher does to the cells *)

Lemma Touch_refl lo hi b : Touch lo hi b b.
Proof. apply rtc_refl. Qed.

Lemma Touch_trans lo hi b1 b2 b3 :
  Touch lo hi b1 b2 -> Touch lo hi b2 b3 -> Touch lo hi b1 b3.
Proof. apply rtc_trans. Qed.

Lemma Step_process lo hi d (r : bool) b :
  lo <= d <= hi ->
  Step lo hi b (processBlock (if r then kCONFIRM else kCANCEL) d b).
Proof. destruct r; simpl; constructor; assumption. Qed.

Lemma ImplRel_process p depth (r : bool) b b1 :
  ImplRel p depth r b b1 ->
  Touch depth (depth + height p) b
    (processBlock (if r then kCONFIRM else kCANCEL) depth b1).
Proof.
  pose proof (height_nonneg p) as Hh.
  assert (Hgen : Touch depth (depth + height p) b b1 ->
                 Touch depth (depth + height p) b
                   (processBlock (if r then kCONFIRM else kCANCEL) depth b1)).
  { intros HT. eapply rtc_r; [exact HT|]. apply Step_process. lia. }
  destruct p; simpl; try exact Hgen.
  intros [->|(-> & Hm & v & sp & ->)].
  - apply rtc_once, Step_process. simpl. lia.
  - apply rtc_once. simpl. apply step_bind; [lia|exact Hm].
Qed.

Lemma cellsOf_elem h q (ps : list Pattern) :
  q ∈ ps -> cellsOf h q ⊆ concat (map (cellsOf h) ps).
Proof.
  induction 1 as [q qs|q q' qs _ IH]; simpl; intros a Ha;
    apply elem_of_app; [left|right]; auto.
Qed.

(** The wrapper [matchPattern] finishes what [matchPatternImpl] did. *)
Lemma afterMatch_eff p depth r (h h1 : list BlockVT) (c1 : list Val) :
  Eff (ImplRel p depth r) (cellsOf h p) h h1 ->
  Eff (Touch depth (depth + height p)) (cellsOf h p) h
      (fst (snd (afterMatch p depth (r, (h1, c1))))).
Proof.
  intros H. simpl. rewrite processId_processAll.
  rewrite (Eff_cellsOf _ _ _ _ p H).
  intros a. specialize (H a). unfold processAll. rewrite heapMap_lookup.
  destruct (h !! a) as [[b|q]|].
  - destruct H as (b1 & -> & R & F).
    destruct (decide (a ∈ cellsOf h p)) as [Hin|Hn].
    + eexists. split; [reflexivity|]. split; [|tauto].
      apply ImplRel_process, R.
    + exists b1. split; [reflexivity|]. rewrite (F Hn).
      split; [apply Touch_refl|reflexivity].
  - rewrite H. reflexivity.
  - rewrite H. reflexivity.
Qed.

Section MatcherEffects.
Variable equal : Val -> Val -> bool.

Lemma matchValue_eff h id v lv depth r h1 :
  Id.matchValue equal h id v lv = (r, h1) ->
  Eff (ImplRel (PId id) depth r) (cellsOf h (PId id)) h h1.
Proof.
  unfold Id.matchValue.
  destruct (Id.hasValue h id) eqn:Hhas.
  - destruct (Block.value (Id.block h id)); intros [= <- <-];
      apply Eff_refl; left; reflexivity.
  - intros [= <- <-].
    change (mkBlock (Block.bindValue v lv) (mDepth (Id.block h id)))
      with ((fun b => mkBlock (Block.bindValue v lv) (mDepth b))
              (Id.block h id)).
    rewrite setBlock_heapMap. apply Eff_heapMap.
    intros a b Ha. unfold cellsOf. simpl.
    destruct (decide (a = Id.owner h id)) as [->|Hne].
    + split.
      * right. split; [reflexivity|]. split; [|eauto].
        unfold Id.hasValue, Id.block, Id.load in Hhas. rewrite Ha in Hhas.
        unfold Block.hasValue in Hhas.
        destruct (mVariant b); congruence.
      * intros Hn. exfalso. apply Hn. left.
    + split; [left; reflexivity|reflexivity].
Qed.

Lemma matchPattern_Id_eff id v lv depth (s : St) r (s' : St) :
  matchPattern_Id equal id v lv depth s = (r, s') ->
  Eff (Touch depth depth) (cellsOf (fst s) (PId id)) (fst s) (fst s').
Proof.
  unfold matchPattern_Id. destruct s as [h c].
  destruct (Id.matchValue equal h id v lv) as [r1 h1] eqn:Hm.
  intros Heq.
  pose proof (afterMatch_eff (PId id) depth r1 h h1 c
                (matchValue_eff _ _ _ _ depth _ _ Hm)) as E.
  rewrite Heq in E. simpl in E. simpl.
  replace (depth + 0) with depth in E by lia. exact E.
Qed.

Lemma matchPattern_OooBinder_eff id v lv depth (s : St) r (s' : St) :
  0 <= depth -> depth + 1 <= max32 ->
  matchPattern_OooBinder equal id v lv depth s = (r, s') ->
  Eff (Touch depth (depth + 1)) (cellsOf (fst s) (PId id)) (fst s) (fst s').
Proof.
  intros H0 H1. unfold matchPattern_OooBinder.
  rewrite add32_succ by assumption.
  destruct (matchPattern_Id equal id v lv (depth + 1) s)
    as [r1 [h1 c1]] eqn:Hm.
  intros Heq. apply matchPattern_Id_eff in Hm.
  pose proof (afterMatch_eff (POooBinder id) depth r1 (fst s) h1 c1) as E.
  rewrite Heq in E. simpl in E. apply E.
  eapply Eff_mono; [| |exact Hm]; [|reflexivity].
  intros b b'. apply Touch_mono; lia.
Qed.
End MatcherEffects.

Lemma Eff_seq Rel (ps : list Pattern) (h h1 h2 : list BlockVT) :
  (forall b1 b2 b3, Rel b1 b2 -> Rel b2 b3 -> Rel b1 b3) ->
  Eff Rel (concat (map (cellsOf h) ps)) h h1 ->
  Eff Rel (concat (map (cellsOf h1) ps)) h1 h2 ->
  Eff Rel (concat (map (cellsOf h) ps)) h h2.
Proof.
  intros HR E1 E2. rewrite (cells_children_eq _ _ _ _ ps E1) in E2.
  eapply Eff_trans; eauto.
Qed.

Section DestructureEffects.
Variable equal : Val -> Val -> bool.
Variable mp : Pattern -> Val -> bool -> St -> bool * St.
Variables depth hi : Z.
Variable ps : list Pattern.
Hypothesis depth_nonneg : 0 <= depth.
Hypothesis depth_succ : depth + 1 <= max32.
Hypothesis hi_succ : depth + 1 <= hi.
Hypothesis children : childrenSpec mp (Touch depth hi) ps.

Local Abbreviation Rel := (Touch depth hi).
Local Abbreviation cells := (fun h : list BlockVT => concat (map (cellsOf h) ps)).

Lemma matchSplice_eff idxOoo sub (r0 : bool) (s1 : St) r (s2 : St) :
  matchSplice equal ps idxOoo sub depth (r0, s1) = (r, s2) ->
  Eff Rel (cells (fst s1)) (fst s1) (fst s2).
Proof.
  unfold matchSplice. destruct s1 as [h c].
  destruct (ps !! idxOoo) as [q|] eqn:E;
    [destruct q|]; try (intros [= <- <-]; apply Eff_refl, Touch_refl).
  destruct r0.
  - intros Hm.
    apply matchPattern_OooBinder_eff in Hm; try assumption.
    eapply Eff_mono; [| |exact Hm].
    + intros b b'. apply Touch_mono; lia.
    + simpl. apply (cellsOf_elem h (POooBinder id)).
      eapply list_elem_of_lookup_2, E.
  - intros [= <- <-]. apply Eff_refl, Touch_refl.
Qed.

Lemma matchPatternMultiple_eff vs pstart size xs lv (s : St) r (s' : St) :
  matchPatternMultiple mp vs pstart size xs lv ps s = (r, s') ->
  Eff Rel (cells (fst s)) (fst s) (fst s').
Proof.
  unfold matchPatternMultiple.
  intros H. eapply (matchElems_eff mp (Touch depth hi));
    [apply Touch_refl|apply Touch_trans|exact children|exact H].
Qed.

Lemma matchPatternRange_eff pstart size xs (s : St) r (s' : St) :
  matchPatternRange mp pstart size xs ps s = (r, s') ->
  Eff Rel (cells (fst s)) (fst s) (fst s').
Proof.
  unfold matchPatternRange.
  intros H. eapply (matchElems_eff mp (Touch depth hi));
    [apply Touch_refl|apply Touch_trans|exact children|exact H].
Qed.

Lemma matchDsTuple_eff isArray xs lv (s : St) r (s' : St) :
  matchDsTuple equal mp isArray xs lv ps depth s = (r, s') ->
  Eff Rel (cells (fst s)) (fst s) (fst s').
Proof.
  unfold matchDsTuple.
  destruct (nbOooOrBinderV ps) as [|[|n]].
  - destruct (length ps =? length xs)%nat.
    + apply matchPatternMultiple_eff.
    + intros [= <- <-]. apply Eff_refl, Touch_refl.
  - destruct (_ && negb isArray).
    { intros [= <- <-]. apply Eff_refl, Touch_refl. }
    destruct (matchPatternMultiple mp 0 0 _ xs lv ps s) as [r0 s1] eqn:E1.
    destruct (matchSplice equal ps _ _ depth (r0, s1)) as [r2 s2] eqn:E2.
    apply matchPatternMultiple_eff in E1. apply matchSplice_eff in E2.
    pose proof (Eff_seq _ _ _ _ _ (Touch_trans depth hi) E1 E2) as E12.
    destruct r2.
    + intros E3. apply matchPatternMultiple_eff in E3.
      exact (Eff_seq _ _ _ _ _ (Touch_trans depth hi) E12 E3).
    + intros [= <- <-]. exact E12.
  - intros [= <- <-]. apply Eff_refl, Touch_refl.
Qed.

Lemma matchDsRange_eff xs (s : St) r (s' : St) :
  matchDsRange equal mp xs ps depth s = (r, s') ->
  Eff Rel (cells (fst s)) (fst s) (fst s').
Proof.
  unfold matchDsRange.
  destruct (nbOooOrBinderV ps) as [|[|n]].
  - destruct (negb _).
    + intros [= <- <-]. apply Eff_refl, Touch_refl.
    + apply matchPatternRange_eff.
  - destruct (_ <? _).
    { intros [= <- <-]. apply Eff_refl, Touch_refl. }
    destruct (matchPatternRange mp 0 _ xs ps s) as [r0 s1] eqn:E1.
    destruct (matchSplice equal ps _ _ depth (r0, s1)) as [r2 s2] eqn:E2.
    apply matchPatternRange_eff in E1. apply matchSplice_eff in E2.
    pose proof (Eff_seq _ _ _ _ _ (Touch_trans depth hi) E1 E2) as E12.
    destruct r2.
    + intros E3. apply matchPatternRange_eff in E3.
      exact (Eff_seq _ _ _ _ _ (Touch_trans depth hi) E12 E3).
    + intros [= <- <-]. exact E12.
  - intros [= <- <-]. apply Eff_refl, Touch_refl.
Qed.
End DestructureEffects.

Section MatchPatternEffects.
Variable equal : Val -> Val -> bool.

(** [matchPatternImpl] with the recursive calls folded back into
    [matchPattern]. *)
Lemma matchPatternImpl_eq p v lv depth (s : St) :
  matchPatternImpl equal p v lv depth s =
  let mp := matchChild equal depth in
  match p with
  | PLit c => (Val_eqb c v, s)
  | PWildcard => (true, s)
  | POr ps => matchOr mp ps v lv s
  | PMeet pred => (pred (fst s) v, s)
  | PApp unary byRef q =>
      let r := unary (fst s) v in
      if byRef || is_scalar r then mp q r byRef s
      else mp q r false (fst s, emplace_back (snd s) r)
  | PAnd ps =>
      matchAnd mp ps v
        (if (NbIdInTuple (removelast ps) =? 0)%nat then lv else true) s
  | PNot q => let '(r, s1) := mp q v lv s in (negb r, s1)
  | PId id =>
      let '(h, c) := s in
      let '(r, h') := Id.matchValue equal h id v lv in (r, (h', c))
  | PDs ps =>
      match v with
      | VTuple xs => matchDsTuple equal mp false xs lv ps depth s
      | VArray xs => matchDsTuple equal mp true xs lv ps depth s
      | VRange xs => matchDsRange equal mp xs ps depth s
      | VInt _ => (false, s)
      end
  | POoo => (true, s)
  | POooBinder id => matchPattern_Id equal id v lv (add32 depth 1) s
  | PPostCheck q pred =>
      let '(r, s1) := mp q v lv s in (r && pred (fst s1), s1)
  end.
Proof. destruct p; reflexivity. Qed.

Lemma wrapper_eff q : ImplSpec equal q ->
  forall v lv depth (s : St) r (s' : St),
    depthOk depth q ->
    matchPattern equal q v lv depth s = (r, s') ->
    Eff (Touch depth (depth + height q)) (cellsOf (fst s) q) (fst s) (fst s').
Proof.
  intros IH v lv depth s r s' Hd. unfold matchPattern.
  destruct (matchPatternImpl equal q v lv depth s) as [r1 [h1 c1]] eqn:E.
  intros Heq.
  pose proof (afterMatch_eff q depth r1 (fst s) h1 c1 (IH _ _ _ _ _ _ Hd E))
    as HE.
  rewrite Heq in HE. exact HE.
Qed.

Lemma child_eff q depth hi : ImplSpec equal q ->
  0 <= depth -> depth + 1 + height q <= max32 -> depth + 1 + height q <= hi ->
  forall x lvx (s : St) r (s' : St),
    matchChild equal depth q x lvx s = (r, s') ->
    Eff (Touch depth hi) (cellsOf (fst s) q) (fst s) (fst s').
Proof.
  intros IH H0 Hmax Hhi x lvx s r s'. unfold matchChild.
  pose proof (height_nonneg q).
  rewrite add32_succ by lia. intros Hm.
  apply (wrapper_eff q IH) in Hm; [|split; lia].
  eapply Eff_mono; [| |exact Hm]; [|reflexivity].
  intros b b'. apply Touch_mono; lia.
Qed.

Lemma children_eff ps depth hi : Forall (ImplSpec equal) ps ->
  0 <= depth ->
  depth + 1 + foldr Z.max 1 (map height ps) <= max32 ->
  depth + 1 + foldr Z.max 1 (map height ps) <= hi ->
  childrenSpec (matchChild equal depth) (Touch depth hi) ps.
Proof.
  intros IH H0 Hmax Hhi q Hin x lvx s r s'.
  pose proof (height_elem q ps Hin).
  rewrite Forall_forall in IH.
  apply child_eff; auto; lia.
Qed.

Lemma matchPatternImpl_eff p : ImplSpec equal p.
Proof.
  induction p as [c| |ps IH|pred|unary byRef q IH|ps IH|q IH|id
                  |ps IH| |id|q pred IH] using Pattern_ind';
    intros v lv depth s r s' [H0 Hmax]; rewrite matchPatternImpl_eq;
    cbv beta iota zeta; simpl height in Hmax.
  - intros [= <- <-]. apply Eff_refl, Touch_refl.
  - intros [= <- <-]. apply Eff_refl, Touch_refl.
  - intros Hm. unfold cellsOf. simpl. rewrite cellsOf_children.
    eapply matchOr_eff; [apply Touch_refl|apply Touch_trans| |exact Hm].
    apply children_eff; auto; lia.
  - intros [= <- <-]. apply Eff_refl, Touch_refl.
  - destruct (byRef || _); intros Hm;
      exact (child_eff q depth (depth + (1 + height q)) IH H0
               ltac:(lia) ltac:(lia) _ _ _ _ _ Hm).
  - intros Hm. unfold cellsOf. simpl. rewrite cellsOf_children.
    eapply matchAnd_eff; [apply Touch_refl|apply Touch_trans| |exact Hm].
    apply children_eff; auto; lia.
  - destruct (matchChild equal depth q v lv s) as [r1 s1] eqn:E.
    intros [= <- <-].
    exact (child_eff q depth (depth + (1 + height q)) IH H0
             ltac:(lia) ltac:(lia) _ _ _ _ _ E).
  - destruct s as [h c].
    destruct (Id.matchValue equal h id v lv) as [r1 h1] eqn:E.
    intros [= <- <-]. exact (matchValue_eff equal _ _ _ _ depth _ _ E).
  - pose proof (foldr_max_lower (map height ps)) as Hl.
    assert (Hc : childrenSpec (matchChild equal depth)
                   (Touch depth (depth + height (PDs ps))) ps)
      by (apply children_eff; simpl; auto; lia).
    unfold cellsOf. simpl ids. rewrite cellsOf_children.
    destruct v as [n|xs|xs|xs].
    + intros [= <- <-]. apply Eff_refl, Touch_refl.
    + apply matchDsTuple_eff; simpl; auto; lia.
    + apply matchDsTuple_eff; simpl; auto; lia.
    + apply matchDsRange_eff; simpl; auto; lia.
  - intros [= <- <-]. apply Eff_refl, Touch_refl.
  - rewrite add32_succ by lia. intros Hm.
    apply matchPattern_Id_eff in Hm.
    eapply Eff_mono; [| |exact Hm]; [|reflexivity].
    intros b b'. simpl. apply Touch_mono; lia.
  - destruct (matchChild equal depth q v lv s) as [r1 s1] eqn:E.
    intros [= <- <-].
    exact (child_eff q depth (depth + (1 + height q)) IH H0
             ltac:(lia) ltac:(lia) _ _ _ _ _ E).
Qed.

(** One call of [matchPattern] touches only the cells of its pattern, and
    only by steps at the depths of the pattern. *)
Lemma matchPattern_eff p v lv depth (s : St) r (s' : St) :
  depthOk depth p ->
  matchPattern equal p v lv depth s = (r, s') ->
  Eff (Touch depth (depth + height p)) (cellsOf (fst s) p) (fst s) (fst s').
Proof. apply wrapper_eff, matchPatternImpl_eff. Qed.
End MatchPatternEffects.

(** ** Invariants of the blocks *)

Lemma Touch_okBlock lo hi b b' :
  0 <= lo -> hi <= max32 -> Touch lo hi b b' -> okBlock b -> okBlock b'.
Proof.
  intros Hlo Hhi. unfold okBlock.
  induction 1 as [|b1 b2 b3 Hs _ IH]; [auto|].
  intros Hb. apply IH. clear IH.
  destruct Hs as [d b Hd|d b Hd|d b v sp Hd Hm];
    unfold Block.confirm, Block.reset; simpl;
    repeat match goal with |- context [if ?c then _ else _] => destruct c end;
    simpl; lia.
Qed.

Lemma Touch_rollsBack D lo hi b b' :
  D <= lo -> Touch lo hi b b' -> rollsBack D b -> rollsBack D b'.
Proof.
  intros Hlo. unfold rollsBack.
  induction 1 as [|b1 b2 b3 Hs _ IH]; [auto|].
  intros Hb. apply IH. clear IH.
  destruct Hs as [d b Hd|d b Hd|d b v sp Hd Hm].
  - unfold Block.confirm.
    destruct ((mDepth b >? d) || (mDepth b =? 0)) eqn:E; simpl; [lia|tauto].
  - unfold Block.reset.
    destruct (sub32 (mDepth b) d >=? 0); simpl; [lia|tauto].
  - unfold Block.confirm. simpl.
    destruct ((mDepth b >? d) || (mDepth b =? 0)) eqn:E; simpl; [lia|].
    right. apply orb_false_iff in E. destruct E as [_ E].
    apply Z.eqb_neq in E. lia.
Qed.

Lemma reset_fires d b :
  okBlock b -> 0 <= d <= mDepth b -> Block.reset d b = mkBlock monostate d.
Proof.
  unfold okBlock, Block.reset. intros Hb Hd.
  rewrite sub32_exact by lia.
  destruct (mDepth b - d >=? 0) eqn:E; [reflexivity|lia].
Qed.

Lemma reset_empty d b :
  mVariant b = monostate -> mVariant (Block.reset d b) = monostate.
Proof.
  unfold Block.reset. destruct (_ >=? 0); auto.
Qed.

Lemma confirm_variant d b : mVariant (Block.confirm d b) = mVariant b.
Proof.
  unfold Block.confirm. destruct (_ || _); reflexivity.
Qed.

(** A rollback to depth [D] empties every block that [rollsBack D]. *)
Lemma reset_rollsBack D b :
  okBlock b -> 0 <= D -> rollsBack D b ->
  mVariant (Block.reset D b) = monostate.
Proof.
  intros Hok HD [[Hm _]|Hge].
  - apply reset_empty, Hm.
  - rewrite reset_fires; auto.
Qed.

Lemma processAll_idemp cs proc d h :
  processAll cs proc d (processAll cs proc d h) = processAll cs proc d h.
Proof.
  unfold processAll. rewrite heapMap_compose. apply heapMap_ext.
  intros a b _. destruct (decide (a ∈ cs)); [|reflexivity].
  apply processBlock_idemp.
Qed.

Lemma cellsOf_resetCells cs h p : cellsOf (resetCells cs h) p = cellsOf h p.
Proof. apply cellsOf_heapMap. Qed.

Lemma owner_resetCells cs h id :
  Id.owner (resetCells cs h) id = Id.owner h id.
Proof. apply owner_heapMap. Qed.

Lemma load_resetCells cs h o :
  Id.load (resetCells cs h) o =
  if decide (o ∈ cs) then freshBlock else Id.load h o.
Proof.
  unfold resetCells. rewrite load_heapMap. unfold Id.load.
  destruct (h !! o) as [[b|q]|], (decide (o ∈ cs)); reflexivity.
Qed.

Lemma resetCells_fresh cs h :
  (forall o, o ∈ cs -> isFresh h o) -> resetCells cs h = h.
Proof.
  intros Hf. apply heapMap_id. intros a b Ha.
  destruct (decide (a ∈ cs)) as [Hin|]; [|reflexivity].
  specialize (Hf a Hin). unfold isFresh, Id.load in Hf.
  rewrite Ha in Hf. congruence.
Qed.

(** ** One attempt of the driver *)

Section Attempt.
Variable equal : Val -> Val -> bool.

Lemma matchPattern_cellsOf p v lv depth (s : St) r (s' : St) q :
  depthOk depth p ->
  matchPattern equal p v lv depth s = (r, s') ->
  cellsOf (fst s') q = cellsOf (fst s) q.
Proof.
  intros Hd Hm. eapply Eff_cellsOf, matchPattern_eff; eauto.
Qed.

(** The last thing [matchPattern] does is to process the identifiers. *)
Lemma matchPattern_processed p v lv depth (s : St) r (s' : St) :
  depthOk depth p ->
  matchPattern equal p v lv depth s = (r, s') ->
  processAll (cellsOf (fst s) p) (if r then kCONFIRM else kCANCEL) depth
    (fst s') = fst s'.
Proof.
  intros Hd. unfold matchPattern.
  destruct (matchPatternImpl equal p v lv depth s) as [r1 [h1 c1]] eqn:E.
  simpl. intros [= <- <-]. simpl.
  rewrite processId_processAll.
  pose proof (Eff_cellsOf _ _ _ _ p
                (matchPatternImpl_eff equal p _ _ _ _ _ _ Hd E)) as Hc.
  simpl in Hc. rewrite Hc. apply processAll_idemp.
Qed.

(** Cancelling at depth 0 after a match at depth 0 leaves the cells of the
    pattern as [Id()] makes them, and the others as they were. *)
Lemma attempt_resets p v lv (h : list BlockVT) (c : list Val) r h1 c1 :
  depthOk 0 p ->
  (forall o, o ∈ cellsOf h p -> cellOk h o) ->
  matchPattern equal p v lv 0 (h, c) = (r, (h1, c1)) ->
  processAll (cellsOf h p) kCANCEL 0 h1 = resetCells (cellsOf h p) h.
Proof.
  intros Hd Hok Hm.
  pose proof (matchPattern_eff equal _ _ _ _ _ _ _ Hd Hm) as E. simpl in E.
  apply list_eq. intros a. unfold processAll, resetCells.
  rewrite !heapMap_lookup. specialize (E a).
  destruct (h !! a) as [[b|q]|] eqn:Ha.
  - destruct E as (b1 & -> & HT & F).
    destruct (decide (a ∈ cellsOf h p)) as [Hin|Hn].
    + f_equal. f_equal. simpl.
      assert (Hb : okBlock b).
      { specialize (Hok a Hin). unfold cellOk, Id.load in Hok.
        rewrite Ha in Hok. exact Hok. }
      destruct Hd as [_ Hd].
      apply (Touch_okBlock 0 (0 + height p)) in HT; [|lia|lia|exact Hb].
      rewrite reset_fires; [reflexivity|exact HT|]. unfold okBlock in HT. lia.
    + rewrite (F Hn). reflexivity.
  - rewrite E. reflexivity.
  - rewrite E. reflexivity.
Qed.

(** The heap after an attempt: its cells cancelled at depth 0 when the
    pattern does not match, and as the match left it when it does. *)
Lemma func_spec {R} i (pp : PatternPair R) sc (res : R)
    (h : list BlockVT) (ex : list nat) :
  depthOk 0 (mPattern pp) ->
  (forall o, o ∈ cellsOf h (mPattern pp) -> cellOk h o) ->
  exists m h1 c1,
    matchPattern equal (mPattern pp) (Scrutinee_value sc)
      (Scrutinee_lvalue sc) 0 (h, []) = (m, (h1, c1)) /\
    func equal i pp sc res (h, ex) =
    (m, if m then mHandler pp h1 else res,
     (if m then h1 else resetCells (cellsOf h (mPattern pp)) h,
      if m then ex ++ [i] else ex)).
Proof.
  intros Hd Hok. unfold func, PatternPair_matchValue, processId_PatternPair.
  destruct (matchPattern equal (mPattern pp) (Scrutinee_value sc)
              (Scrutinee_lvalue sc) 0 (h, []))
    as [m [h1 c1]] eqn:E.
  exists m, h1, c1. split; [reflexivity|].
  destruct m; [reflexivity|].
  pose proof (attempt_resets _ _ _ _ _ _ _ _ Hd Hok E) as Hr.
  rewrite <- Hr.
  pose proof (matchPattern_processed _ _ _ _ _ _ _ Hd E) as Hp.
  simpl in Hp. rewrite Hp. reflexivity.
Qed.
End Attempt.

(** ** The clause driver *)

Lemma hasValue_resetCells cs h id :
  Id.hasValue (resetCells cs h) id =
  if decide (Id.owner h id ∈ cs) then false else Id.hasValue h id.
Proof.
  unfold Id.hasValue, Id.block.
  rewrite owner_resetCells, load_resetCells.
  destruct (decide (Id.owner h id ∈ cs)); reflexivity.
Qed.

Lemma owner_in_cellsOf h p id : id ∈ ids p -> Id.owner h id ∈ cellsOf h p.
Proof.
  intros Hin. unfold cellsOf. apply list_elem_of_fmap. eauto.
Qed.

Lemma cellOk_resetCells cs h o : cellOk h o -> cellOk (resetCells cs h) o.
Proof.
  unfold cellOk. rewrite load_resetCells.
  destruct (decide (o ∈ cs)); [|auto].
  intros _. simpl. unfold max32. lia.
Qed.

Lemma clausesOk_tail {R} (pp : PatternPair R) rest cs h :
  clausesOk (pp :: rest) h -> clausesOk rest (resetCells cs h).
Proof.
  intros Hok pp' Hin. destruct (Hok pp' ltac:(right; exact Hin)) as [Hd Hc].
  split; [exact Hd|]. intros o. rewrite cellsOf_resetCells.
  intros Ho. apply cellOk_resetCells, Hc, Ho.
Qed.

(** C1 (capture hygiene), where the code departs from it. The driver's
    [processId(pattern, 0, IdProcess::kCANCEL)] after the handler receives
    the [PatternPair], for which [processIdImpl] is empty, so the cells of
    the clause that matched are not cancelled. In the match of [7] against
    the one clause [x -> *x], from the cell of [x] as [Id()] makes it: the
    call returns 7 and, in the expression form and in the statement form,
    leaves [x] bound to 7; a second call of the same match on [8] then
    compares 8 with the binding left behind and throws, where from an empty
    cell it returns 8. *)
Theorem capture_outlives_match :
  let x := 0%nat in
  let pps := [mkPatternPair (PId x) (fun h => captured h x)] in
  let start : Run := ([ownBlock freshBlock], []) in
  let run := matchPatterns IdTraits_equal 0 (scalarOf 7) pps start in
  let run_void := matchPatterns_void IdTraits_equal 0 (scalarOf 7) pps start in
  fst run = Ok 7 /\
  Id.hasValue (fst (snd run)) x = true /\
  Id.value (fst (snd run)) x = Ok (VInt 7) /\
  Id.hasValue (fst run_void) x = true /\
  fst (matchPatterns IdTraits_equal 0 (scalarOf 8) pps (snd run)) =
    Throw "Error: no patterns got matched!" /\
  fst (matchPatterns IdTraits_equal 0 (scalarOf 8) pps start) = Ok 8.
Proof. vm_compute. repeat split. Qed.

Lemma clausesFresh_tail {R} (pp : PatternPair R) rest h :
  clausesFresh (pp :: rest) h -> clausesFresh rest h.
Proof. intros Hf pp' Hin. apply Hf. right. exact Hin. Qed.

Section DriverOrder.
Variable equal : Val -> Val -> bool.
Context {R : Type}.

(** An attempt on fresh cells: a pattern that does not match leaves the
    heap as it found it, one that matches leaves it as the match made
    it. *)
Lemma func_fresh i (pp : PatternPair R) sc (res : R)
    (h : list BlockVT) (ex : list nat) :
  depthOk 0 (mPattern pp) ->
  (forall o, o ∈ cellsOf h (mPattern pp) -> isFresh h o) ->
  func equal i pp sc res (h, ex) =
  (let r := matchPattern equal (mPattern pp) (Scrutinee_value sc)
              (Scrutinee_lvalue sc) 0 (h, []) in
   (fst r, if fst r then mHandler pp (fst (snd r)) else res,
    (if fst r then fst (snd r) else h, if fst r then ex ++ [i] else ex))).
Proof.
  intros Hd Hf.
  assert (Hc : forall o, o ∈ cellsOf h (mPattern pp) -> cellOk h o).
  { intros o Ho. specialize (Hf o Ho). unfold isFresh in Hf.
    unfold cellOk. rewrite Hf. simpl. unfold max32. lia. }
  destruct (func_spec equal i pp sc res h ex Hd Hc)
    as (m & h1 & c1 & -> & ->).
  rewrite resetCells_fresh by exact Hf. reflexivity.
Qed.

Lemma tryClauses_first sc (pps : list (PatternPair R)) :
  forall i0 res (h : list BlockVT) (ex : list nat) k pp,
    clausesFresh pps h ->
    pps !! k = Some pp ->
    fst (matchPattern equal (mPattern pp) (Scrutinee_value sc)
           (Scrutinee_lvalue sc) 0 (h, [])) = true ->
    (forall j pj, (j < k)%nat -> pps !! j = Some pj ->
       fst (matchPattern equal (mPattern pj) (Scrutinee_value sc)
              (Scrutinee_lvalue sc) 0 (h, [])) = false) ->
    tryClauses equal i0 pps sc res (h, ex) =
    (let h1 := fst (snd (matchPattern equal (mPattern pp) (Scrutinee_value sc)
                           (Scrutinee_lvalue sc) 0 (h, []))) in
     (true, mHandler pp h1, (h1, ex ++ [(i0 + k)%nat]))).
Proof.
  induction pps as [|p0 rest IH]; intros i0 res h ex k pp Hf Hk Hyes Hno.
  - rewrite lookup_nil in Hk. discriminate.
  - cbn [tryClauses].
    destruct (Hf p0 ltac:(left)) as [Hd Hc].
    rewrite (func_fresh i0 p0 sc res h ex Hd Hc). cbv zeta.
    destruct k as [|k].
    + injection Hk as ->. rewrite Hyes. rewrite Nat.add_0_r. reflexivity.
    + rewrite (Hno 0%nat p0 ltac:(lia) eq_refl).
      rewrite (IH (S i0) res h ex k pp (clausesFresh_tail _ _ _ Hf) Hk Hyes).
      * cbv zeta. rewrite Nat.add_succ_r. reflexivity.
      * intros j pj Hj Hpj. apply (Hno (S j) pj); [lia|exact Hpj].
Qed.

Lemma tryClauses_none sc (pps : list (PatternPair R)) :
  forall i0 res (h : list BlockVT) (ex : list nat),
    clausesFresh pps h ->
    (forall pp, pp ∈ pps ->
       fst (matchPattern equal (mPattern pp) (Scrutinee_value sc)
              (Scrutinee_lvalue sc) 0 (h, [])) = false) ->
    tryClauses equal i0 pps sc res (h, ex) = (false, res, (h, ex)).
Proof.
  induction pps as [|p0 rest IH]; intros i0 res h ex Hf Hno.
  - reflexivity.
  - cbn [tryClauses].
    destruct (Hf p0 ltac:(left)) as [Hd Hc].
    rewrite (func_fresh i0 p0 sc res h ex Hd Hc). cbv zeta.
    rewrite (Hno p0 ltac:(left)).
    apply IH; [exact (clausesFresh_tail _ _ _ Hf)|].
    intros pp Hin. apply Hno. right. exact Hin.
Qed.

(** Ordered first match, for a scrutinee that every clause sees unchanged.
    In an expression-form match from identifier cells as [Id()] makes
    them, when the pattern of clause [k] matches the value and no pattern
    of an earlier clause does (later ones may), the driver returns what the
    handler of clause [k] yields on the captures of that match, the
    handler of clause [k] is the one handler it has executed, and the heap
    it leaves is the one the match of clause [k] made: the captures of
    that clause stay bound. *)
Theorem ordered_first_match (result0 : R) sc (pps : list (PatternPair R))
    (h : list BlockVT) (ex : list nat) (k : nat) (pp : PatternPair R) :
  clausesFresh pps h ->
  pps !! k = Some pp ->
  fst (matchPattern equal (mPattern pp) (Scrutinee_value sc)
         (Scrutinee_lvalue sc) 0 (h, [])) = true ->
  (forall j pj, (j < k)%nat -> pps !! j = Some pj ->
     fst (matchPattern equal (mPattern pj) (Scrutinee_value sc)
            (Scrutinee_lvalue sc) 0 (h, [])) = false) ->
  matchPatterns equal result0 sc pps (h, ex) =
  (let h1 := fst (snd (matchPattern equal (mPattern pp) (Scrutinee_value sc)
                         (Scrutinee_lvalue sc) 0 (h, []))) in
   (Ok (mHandler pp h1), (h1, ex ++ [k]))).
Proof.
  intros Hf Hk Hyes Hno. unfold matchPatterns.
  rewrite (tryClauses_first sc pps 0 result0 h ex k pp Hf Hk Hyes Hno).
  reflexivity.
Qed.

(** C4 (no match), with the message the driver gives, for a scrutinee
    passed as an lvalue or of scalar type. In an expression-form match
    from identifier cells as [Id()] makes them, when the pattern of no
    clause matches the value, the driver throws [std::logic_error] with the
    message [Error: no patterns got matched!], having executed no handler
    and leaving the cells as it found them. *)
Theorem no_match_throws (result0 : R) sc (pps : list (PatternPair R))
    (h : list BlockVT) (ex : list nat) :
  clausesFresh pps h ->
  (forall pp, pp ∈ pps ->
     fst (matchPattern equal (mPattern pp) (Scrutinee_value sc)
            (Scrutinee_lvalue sc) 0 (h, [])) = false) ->
  matchPatterns equal result0 sc pps (h, ex) =
  (Throw "Error: no patterns got matched!", (h, ex)).
Proof.
  intros Hf Hno. unfold matchPatterns.
  rewrite (tryClauses_none sc pps 0 result0 h ex Hf Hno).
  reflexivity.
Qed.
End DriverOrder.

Ltac each_clause Hin :=
  repeat (apply elem_of_cons in Hin; destruct Hin as [->|Hin]);
  [..|apply elem_of_nil in Hin; destruct Hin].

Ltac fresh_clause :=
  split;
  [unfold depthOk, max32; simpl; lia
  |let o := fresh "o" in let Ho := fresh "Ho" in
   intros o Ho; simpl in Ho;
   repeat (apply elem_of_cons in Ho; destruct Ho as [->|Ho]);
   [..|apply elem_of_nil in Ho; destruct Ho]; reflexivity].

Lemma ordered_first_match_witness :
  matchPatterns IdTraits_equal 0 (lvalueOf (VInt 7))
    [mkPatternPair (PLit (VInt 1)) (fun _ => 10);
     mkPatternPair (PId 0) (fun h => 2 * captured h 0);
     mkPatternPair (PLit (VInt 7)) (fun _ => 30);
     mkPatternPair PWildcard (fun _ => 40)]
    ([ownBlock freshBlock], []) =
  (Ok 14, ([ownBlock (mkBlock (borrowed (VInt 7)) 0)], [1%nat])).
Proof.
  refine (ordered_first_match IdTraits_equal 0 (lvalueOf (VInt 7))
            [mkPatternPair (PLit (VInt 1)) (fun _ => 10);
             mkPatternPair (PId 0) (fun h => 2 * captured h 0);
             mkPatternPair (PLit (VInt 7)) (fun _ => 30);
             mkPatternPair PWildcard (fun _ => 40)]
            [ownBlock freshBlock] [] 1
            (mkPatternPair (PId 0) (fun h => 2 * captured h 0))
            _ eq_refl eq_refl _).
  - intros pp Hin. each_clause Hin; fresh_clause.
  - intros [|j] pj Hj Hpj; [|lia].
    injection Hpj as <-. reflexivity.
Defined.

Lemma no_match_throws_witness :
  matchPatterns IdTraits_equal 0 (lvalueOf (VInt 99))
    [mkPatternPair (PLit (VInt 1)) (fun _ => 97);
     mkPatternPair (PLit (VInt 2)) (fun _ => 98)]
    ([], []) =
  (Throw "Error: no patterns got matched!", ([], [])).
Proof.
  refine (no_match_throws IdTraits_equal 0 (lvalueOf (VInt 99))
            [mkPatternPair (PLit (VInt 1)) (fun _ => 97);
             mkPatternPair (PLit (VInt 2)) (fun _ => 98)] [] [] _ _).
  - intros pp Hin. each_clause Hin; fresh_clause.
  - intros pp Hin. each_clause Hin; reflexivity.
Defined.

(** C4 as stated fails on the message: on the match of [99] against the
    clauses [1 -> 'a'] and [2 -> 'b'], the exception does not carry the
    message [no patterns got matched]. *)
Lemma no_match_message_counterexample :
  fst (matchPatterns IdTraits_equal 0 (lvalueOf (VInt 99))
         [mkPatternPair (PLit (VInt 1)) (fun _ => 97);
          mkPatternPair (PLit (VInt 2)) (fun _ => 98)]
         ([], []))
  <> Throw "no patterns got matched".
Proof. vm_compute. discriminate. Qed.

(** ** Identifier cells *)

Lemma store_heapMap (h : list BlockVT) o b' :
  Id.store h o b' = heapMap (fun a b => if decide (a = o) then b' else b) h.
Proof.
  unfold Id.store.
  destruct (h !! o) as [[b|q]|] eqn:E.
  - apply list_eq. intros a. rewrite heapMap_lookup.
    destruct (decide (a = o)) as [->|Hne].
    + rewrite E. apply list_lookup_insert_eq, lookup_lt_is_Some. eauto.
    + rewrite list_lookup_insert_ne by congruence.
      destruct (h !! a) as [[b0|q0]|]; reflexivity.
  - symmetry. apply heapMap_id. intros a b Ha.
    destruct (decide (a = o)) as [->|]; [congruence|reflexivity].
  - symmetry. apply heapMap_id. intros a b Ha.
    destruct (decide (a = o)) as [->|]; [congruence|reflexivity].
Qed.

Lemma block_setBlock (h : list BlockVT) id b b' :
  h !! Id.owner h id = Some (ownBlock b) ->
  Id.block (Id.setBlock h id b') id = b'.
Proof.
  intros Ho. unfold Id.block, Id.setBlock. rewrite store_heapMap.
  rewrite owner_heapMap, load_heapMap, Ho.
  destruct (decide _); [reflexivity|congruence].
Qed.

Lemma block_owned (h : list BlockVT) id b :
  h !! Id.owner h id = Some (ownBlock b) -> Id.block h id = b.
Proof. intros Ho. unfold Id.block, Id.load. rewrite Ho. reflexivity. Qed.

Lemma setBlock_same (h : list BlockVT) id b :
  h !! Id.owner h id = Some (ownBlock b) -> Id.setBlock h id b = h.
Proof.
  intros Ho. unfold Id.setBlock, Id.store. rewrite Ho.
  apply list_insert_id, Ho.
Qed.

(** C5 (identifier-cell match rule). For a cell with block [b] and a value
    [v]: when the cell is empty, [matchValue] succeeds and stores [v] (the
    cell then reads [v], at the recorded depth it had); when the cell holds
    [stored], [matchValue] returns [equal stored v] for the equality hook
    [equal] of [IdTraits], and leaves the heap, hence the stored value, as
    it was, on a mismatch as on a match. *)
Theorem matchValue_rule (equal : Val -> Val -> bool) (h : list BlockVT)
    (id : nat) (v : Val) (lv : bool) (b : Block) :
  h !! Id.owner h id = Some (ownBlock b) ->
  (mVariant b = monostate ->
   exists h', Id.matchValue equal h id v lv = (true, h') /\
              Id.hasValue h' id = true /\
              Id.value h' id = Ok v /\
              mDepth (Id.block h' id) = mDepth b) /\
  (forall stored, Block.value b = Ok stored ->
     Id.matchValue equal h id v lv = (equal stored v, h)).
Proof.
  intros Ho. pose proof (block_owned h id b Ho) as Hb.
  unfold Id.matchValue, Id.hasValue, Id.value. rewrite Hb. split.
  - intros Hm. unfold Block.hasValue. rewrite Hm.
    eexists. split; [reflexivity|].
    rewrite (block_setBlock h id b _ Ho).
    unfold Block.hasValue, Block.value, Block.bindValue.
    destruct lv; simpl; auto.
  - intros stored Hs. unfold Block.hasValue.
    unfold Block.value in Hs |- *.
    destruct (mVariant b); try discriminate; injection Hs as ->; reflexivity.
Qed.

Lemma matchValue_rule_witness :
  (exists h', Id.matchValue IdTraits_equal [ownBlock freshBlock] 0 (VInt 5)
                false = (true, h') /\
              Id.hasValue h' 0 = true /\
              Id.value h' 0 = Ok (VInt 5) /\
              mDepth (Id.block h' 0) = 0) /\
  (forall stored, Block.value freshBlock = Ok stored ->
     Id.matchValue IdTraits_equal [ownBlock freshBlock] 0 (VInt 5) false =
     (IdTraits_equal stored (VInt 5), [ownBlock freshBlock])).
Proof.
  destruct (matchValue_rule IdTraits_equal [ownBlock freshBlock] 0 (VInt 5)
              false freshBlock eq_refl) as [Hempty Hfull].
  split; [exact (Hempty eq_refl)|exact Hfull].
Defined.

(** C8 (cell reset rule). For a cell with block [b] and a depth [d] such
    that [mDepth - depth] is representable: when the recorded depth is [d]
    at least, [reset(d)] empties the value slot and sets the recorded depth
    to [d]; otherwise it leaves the block, and the heap, as they were. *)
Theorem reset_rule (h : list BlockVT) (id : nat) (d : Z) (b : Block) :
  h !! Id.owner h id = Some (ownBlock b) ->
  int32 (mDepth b - d) ->
  (d <= mDepth b ->
   Block.reset d b = mkBlock monostate d /\
   Id.block (Id.reset d h id) id = mkBlock monostate d) /\
  (mDepth b < d ->
   Block.reset d b = b /\ Id.reset d h id = h).
Proof.
  intros Ho Hr. pose proof (block_owned h id b Ho) as Hb.
  unfold Id.reset. rewrite Hb, (block_setBlock h id b _ Ho).
  unfold Block.reset, sub32. rewrite (wrap32_id _ Hr).
  split; intros Hd.
  - destruct (mDepth b - d >=? 0) eqn:E; [auto|lia].
  - destruct (mDepth b - d >=? 0) eqn:E; [lia|].
    split; [reflexivity|]. apply setBlock_same, Ho.
Qed.

Lemma reset_rule_witness :
  (1 <= 3 ->
   Block.reset 1 (mkBlock (owned (VInt 5)) 3) = mkBlock monostate 1 /\
   Id.block (Id.reset 1 [ownBlock (mkBlock (owned (VInt 5)) 3)] 0) 0 =
   mkBlock monostate 1) /\
  (3 < 1 ->
   Block.reset 1 (mkBlock (owned (VInt 5)) 3) = mkBlock (owned (VInt 5)) 3 /\
   Id.reset 1 [ownBlock (mkBlock (owned (VInt 5)) 3)] 0 =
   [ownBlock (mkBlock (owned (VInt 5)) 3)]).
Proof.
  apply (reset_rule [ownBlock (mkBlock (owned (VInt 5)) 3)] 0 1
           (mkBlock (owned (VInt 5)) 3) eq_refl).
  unfold int32. simpl. lia.
Defined.

(** C9 (invalid identifier read). Reading [value()] from an empty cell
    throws at once; reading [mutableValue()], as [move()] does, from a cell
    that holds a pointer throws at once; [value()] on a cell that holds a
    value or a pointer to one returns it. *)
Theorem invalid_identifier_read (h : list BlockVT) (id : nat) :
  (mVariant (Id.block h id) = monostate ->
   Id.value h id = Throw "invalid state!") /\
  (forall p, mVariant (Id.block h id) = borrowed p ->
     Block.mutableValue (Id.block h id) =
       Throw "Cannot get mutableValue for pointer type!" /\
     Id.move h id = Throw "Cannot get mutableValue for pointer type!") /\
  (forall v, mVariant (Id.block h id) = owned v \/
             mVariant (Id.block h id) = borrowed v ->
     Id.hasValue h id = true /\ Id.value h id = Ok v).
Proof.
  unfold Id.value, Id.move, Id.hasValue, Block.value, Block.mutableValue,
    Block.hasValue.
  split; [|split].
  - intros ->. reflexivity.
  - intros p ->. split; reflexivity.
  - intros v [-> | ->]; split; reflexivity.
Qed.

Lemma invalid_identifier_read_witness :
  Id.value [ownBlock freshBlock] 0 = Throw "invalid state!" /\
  Id.move [ownBlock (mkBlock (borrowed (VInt 5)) 0)] 0 =
    Throw "Cannot get mutableValue for pointer type!" /\
  Id.value [ownBlock (mkBlock (borrowed (VInt 5)) 0)] 0 = Ok (VInt 5).
Proof.
  split; [|split].
  - exact (proj1 (invalid_identifier_read [ownBlock freshBlock] 0) eq_refl).
  - exact (proj2 (proj1 (proj2 (invalid_identifier_read
             [ownBlock (mkBlock (borrowed (VInt 5)) 0)] 0))
             (VInt 5) eq_refl)).
  - exact (proj2 (proj2 (proj2 (invalid_identifier_read
             [ownBlock (mkBlock (borrowed (VInt 5)) 0)] 0))
             (VInt 5) (or_intror eq_refl))).
Defined.

Lemma owner_copy_old (h : list BlockVT) x id :
  (id < length h)%nat ->
  Id.owner (fst (Id.copy h x)) id = Id.owner h id.
Proof.
  intros Hlt. unfold Id.copy, Id.owner. simpl.
  rewrite lookup_app_l by exact Hlt. reflexivity.
Qed.

Lemma owner_copy_new (h : list BlockVT) x :
  Id.owner (fst (Id.copy h x)) (snd (Id.copy h x)) = Id.owner h x.
Proof.
  unfold Id.copy, Id.owner at 1. simpl.
  rewrite lookup_app_r by lia. rewrite Nat.sub_diag. reflexivity.
Qed.

Lemma wfHeap_owner (h : list BlockVT) x :
  wfHeap h -> (x < length h)%nat ->
  exists b, h !! Id.owner h x = Some (ownBlock b) /\
            (Id.owner h x < length h)%nat.
Proof.
  intros Hwf Hlt. unfold Id.owner.
  destruct (lookup_lt_is_Some_2 h x Hlt) as [[b|p] E]; rewrite E.
  - exists b. auto.
  - destruct (Hwf x p E) as [b Hb]. exists b. split; [exact Hb|].
    apply lookup_lt_is_Some. eauto.
Qed.

(** C10 (copies alias one cell). An [Id] [y] copy-constructed from an
    existing [Id] [x] designates the block [x] designates, so [matchValue],
    [reset], [confirm], [hasValue] and [value] through [y] read and write
    what they do through [x]; in a well-formed heap, a binding made through
    [y] is read through [x]. *)
Theorem copy_aliases (h : list BlockVT) (x : nat) :
  (x < length h)%nat ->
  let h1 := fst (Id.copy h x) in
  let y := snd (Id.copy h x) in
  Id.owner h1 y = Id.owner h1 x /\
  (forall equal v lv,
     Id.matchValue equal h1 y v lv = Id.matchValue equal h1 x v lv) /\
  (forall d, Id.reset d h1 y = Id.reset d h1 x) /\
  (forall d, Id.confirm d h1 y = Id.confirm d h1 x) /\
  Id.hasValue h1 y = Id.hasValue h1 x /\
  Id.value h1 y = Id.value h1 x /\
  (wfHeap h -> Id.hasValue h1 x = false ->
   forall equal v lv,
     let h2 := snd (Id.matchValue equal h1 y v lv) in
     Id.hasValue h2 x = true /\ Id.value h2 x = Ok v).
Proof.
  intros Hlt h1 y.
  assert (Hown : Id.owner h1 y = Id.owner h1 x).
  { unfold h1, y. rewrite owner_copy_new, owner_copy_old by exact Hlt.
    reflexivity. }
  assert (Hblock : Id.block h1 y = Id.block h1 x)
    by (unfold Id.block; rewrite Hown; reflexivity).
  assert (Hset : forall b, Id.setBlock h1 y b = Id.setBlock h1 x b)
    by (intros b; unfold Id.setBlock; rewrite Hown; reflexivity).
  assert (Hmatch : forall equal v lv,
            Id.matchValue equal h1 y v lv = Id.matchValue equal h1 x v lv).
  { intros equal v lv. unfold Id.matchValue, Id.hasValue.
    rewrite Hblock, Hset. reflexivity. }
  split; [exact Hown|]. split; [exact Hmatch|].
  split; [intros d; unfold Id.reset; rewrite Hblock, Hset; reflexivity|].
  split; [intros d; unfold Id.confirm; rewrite Hblock, Hset; reflexivity|].
  split; [unfold Id.hasValue; rewrite Hblock; reflexivity|].
  split; [unfold Id.value; rewrite Hblock; reflexivity|].
  intros Hwf Hempty equal v lv h2.
  destruct (wfHeap_owner h x Hwf Hlt) as (b & Hb & Hob).
  assert (Hb1 : h1 !! Id.owner h1 x = Some (ownBlock b)).
  { unfold h1. rewrite owner_copy_old by exact Hlt.
    unfold Id.copy. simpl. rewrite lookup_app_l by exact Hob. exact Hb. }
  unfold h2. rewrite Hmatch. unfold Id.matchValue. rewrite Hempty. simpl.
  unfold Id.hasValue, Id.value. rewrite (block_setBlock h1 x b _ Hb1).
  unfold Block.bindValue. destruct lv; split; reflexivity.
Qed.

Lemma copy_aliases_witness :
  let h1 := fst (Id.copy [ownBlock freshBlock] 0) in
  let y := snd (Id.copy [ownBlock freshBlock] 0) in
  y = 1%nat /\ Id.owner h1 y = Id.owner h1 0 /\
  Id.value (snd (Id.matchValue IdTraits_equal h1 y (VInt 5) false)) 0 =
  Ok (VInt 5).
Proof.
  pose proof (copy_aliases [ownBlock freshBlock] 0 ltac:(simpl; lia)) as H.
  cbv zeta in H. destruct H as (Hown & _ & _ & _ & _ & _ & Hbind).
  split; [reflexivity|]. split; [exact Hown|].
  refine (proj2 (Hbind _ eq_refl IdTraits_equal (VInt 5) false)).
  intros a p Ha. destruct a as [|a]; simpl in Ha; discriminate.
Defined.

(** ** Destructuring *)

Lemma matchElems_chain mp (ps : list Pattern) :
  forall (xs : list Val) (elem : nat -> option Val) (I0 : nat) (s s' : St),
    length xs = length ps ->
    (forall i, (i < length xs)%nat -> elem (I0 + i)%nat = xs !! i) ->
    matchElems mp ps 0 (length ps) elem I0 true s = (true, s') <->
    Chain mp ps xs s s'.
Proof.
  induction ps as [|q qs IH]; intros [|x xs] elem I0 s s' Hlen Helem;
    try discriminate.
  - simpl. split.
    + intros [= <-]. constructor.
    + inversion 1. reflexivity.
  - simpl.
    pose proof (Helem 0%nat ltac:(simpl; lia)) as H0.
    rewrite Nat.add_0_r in H0. simpl in H0. rewrite H0.
    assert (Hrest : forall s1,
              matchElems mp qs 0 (length qs) elem (S I0) true s1 = (true, s')
              <-> Chain mp qs xs s1 s').
    { intros s1. apply IH; [simpl in Hlen; lia|].
      intros i Hi. specialize (Helem (S i) ltac:(simpl; lia)).
      rewrite Nat.add_succ_r in Helem. exact Helem. }
    destruct (mp q x true s) as [r s1] eqn:E. split.
    + destruct r; [|discriminate].
      intros Hm. econstructor; [exact E|]. apply Hrest, Hm.
    + inversion 1 as [|? ? ? ? ? s1' ? Hq Hc]; subst.
      rewrite E in Hq. injection Hq as -> ->. apply Hrest, Hc.
Qed.

(** C6 (splice-free destructure of a range). For a [Ds] of [n] sub-patterns
    none of which is a splice, matched against a range: when [size()] is not
    [n] the match fails, touching nothing; when it is [n], the match
    succeeds exactly when every sub-pattern matches the element of its
    index, each from the state the previous one left, and it leaves the
    state the last one left. *)
Theorem ds_range_size_law (equal : Val -> Val -> bool) (ps : list Pattern)
    (xs : list Val) (lv : bool) (depth : Z) (s : St) :
  nbOooOrBinderV ps = 0%nat ->
  (length xs <> length ps ->
   matchPatternImpl equal (PDs ps) (VRange xs) lv depth s = (false, s)) /\
  (length xs = length ps ->
   forall s' : St,
     matchPatternImpl equal (PDs ps) (VRange xs) lv depth s = (true, s') <->
     Chain (matchChild equal depth) ps xs s s').
Proof.
  intros Hnb. rewrite matchPatternImpl_eq. cbv beta iota zeta.
  unfold matchDsRange. rewrite Hnb. split.
  - intros Hne. apply Nat.eqb_neq in Hne. rewrite Hne. reflexivity.
  - intros Heq s'. rewrite (proj2 (Nat.eqb_eq _ _) Heq). simpl negb.
    unfold matchPatternRange. apply matchElems_chain; [exact Heq|].
    intros i _. reflexivity.
Qed.

Lemma ds_range_size_law_witness :
  (length [VInt 1; VInt 2] <> length [PLit (VInt 1); PId 0] ->
   matchPatternImpl IdTraits_equal (PDs [PLit (VInt 1); PId 0])
     (VRange [VInt 1; VInt 2]) true 0 ([ownBlock freshBlock], []) =
   (false, ([ownBlock freshBlock], []))) /\
  (length [VInt 1; VInt 2] = length [PLit (VInt 1); PId 0] ->
   forall s' : St,
     matchPatternImpl IdTraits_equal (PDs [PLit (VInt 1); PId 0])
       (VRange [VInt 1; VInt 2]) true 0 ([ownBlock freshBlock], []) =
     (true, s') <->
     Chain (matchChild IdTraits_equal 0) [PLit (VInt 1); PId 0]
       [VInt 1; VInt 2] ([ownBlock freshBlock], []) s').
Proof.
  apply (ds_range_size_law IdTraits_equal [PLit (VInt 1); PId 0]
           [VInt 1; VInt 2] true 0 ([ownBlock freshBlock], [])).
  reflexivity.
Defined.

(** *** Where the splice is *)

Lemma splice_sum_none (f : nat -> nat) (ps : list Pattern) :
  nbOooOrBinderV ps = 0%nat ->
  list_sum (imap (fun I p => if isOooOrBinderV p then f I else 0%nat) ps)
  = 0%nat.
Proof.
  revert f. induction ps as [|p ps IH]; intros f; [reflexivity|].
  unfold nbOooOrBinderV. rewrite imap_cons. simpl.
  destruct (isOooOrBinderV p); [discriminate|].
  intros Hnb. simpl. apply (IH (f ∘ S)). exact Hnb.
Qed.

Lemma splice_sum_one (c : nat) (ps : list Pattern) :
  nbOooOrBinderV ps = 1%nat ->
  exists pre q post,
    ps = pre ++ q :: post /\ isOooOrBinderV q = true /\
    nbOooOrBinderV pre = 0%nat /\ nbOooOrBinderV post = 0%nat /\
    list_sum (imap (fun I p => if isOooOrBinderV p then (c + I)%nat else 0%nat)
                ps) = (c + length pre)%nat.
Proof.
  revert c. induction ps as [|p ps IH]; intros c; [discriminate|].
  unfold nbOooOrBinderV. rewrite imap_cons. simpl.
  destruct (isOooOrBinderV p) eqn:Ep.
  - intros [= Hnb]. exists [], p, ps. simpl. repeat split; auto.
    change ((fun I p0 => if isOooOrBinderV p0 then (c + I)%nat else 0%nat) ∘ S)
      with (fun I p0 =>
              if isOooOrBinderV p0 then (fun J => (c + S J)%nat) I else 0%nat).
    rewrite (splice_sum_none _ ps Hnb). lia.
  - intros Hnb. simpl in Hnb.
    destruct (IH (S c) Hnb) as (pre & q & post & -> & Hq & Hpre & Hpost & Hs).
    exists (p :: pre), q, post. simpl. repeat split; auto.
    + unfold nbOooOrBinderV. simpl. rewrite Ep. exact Hpre.
    + transitivity (S c + length pre)%nat; [|lia].
      rewrite <- Hs. f_equal.
      apply imap_ext. intros i x _. simpl.
      destruct (isOooOrBinderV x); lia.
Qed.

(** With exactly one splice among the sub-patterns, [findOooIdx] is its
    index. *)
Lemma findOooIdx_spec (ps : list Pattern) :
  nbOooOrBinderV ps = 1%nat ->
  exists pre q post,
    ps = pre ++ q :: post /\ isOooOrBinderV q = true /\
    nbOooOrBinderV pre = 0%nat /\ nbOooOrBinderV post = 0%nat /\
    findOooIdx ps = length pre.
Proof.
  intros Hnb. destruct (splice_sum_one 0 ps Hnb)
    as (pre & q & post & Hps & Hq & Hpre & Hpost & Hs).
  exists pre, q, post. repeat split; auto.
Qed.

Lemma findOooIdx_lt (ps : list Pattern) :
  nbOooOrBinderV ps = 1%nat -> (findOooIdx ps < length ps)%nat.
Proof.
  intros Hnb.
  destruct (findOooIdx_spec ps Hnb) as (pre & q & post & -> & _ & _ & _ & ->).
  rewrite length_app. simpl. lia.
Qed.

Lemma wrap_size_t_id z : 0 <= z < 2 ^ 64 -> wrap_size_t z = z.
Proof. intros Hz. unfold wrap_size_t. apply Z.mod_small, Hz. Qed.

Lemma to_long_id z : - 2 ^ 63 <= z < 2 ^ 63 -> to_long z = z.
Proof.
  intros Hz. unfold to_long. rewrite Z.mod_small by lia. lia.
Qed.

(** The range overload with one splice, its index arithmetic carried
    out. *)
Lemma matchDsRange_splice (equal : Val -> Val -> bool) (ps : list Pattern)
    (xs : list Val) (lv : bool) (depth : Z) (s : St) :
  nbOooOrBinderV ps = 1%nat ->
  Z.of_nat (length xs) < 2 ^ 63 -> Z.of_nat (length ps) < 2 ^ 63 ->
  let n := length ps in
  let L := length xs in
  let k := findOooIdx ps in
  let W := (L - (n - 1))%nat in
  (k < n)%nat /\
  ((L < n - 1)%nat ->
   matchPatternImpl equal (PDs ps) (VRange xs) lv depth s = (false, s)) /\
  ((n - 1 <= L)%nat ->
   length (take W (drop k xs)) = W /\
   matchPatternImpl equal (PDs ps) (VRange xs) lv depth s =
   let mp := matchChild equal depth in
   let '(result, s2) :=
     matchSplice equal ps k (VRange (take W (drop k xs))) depth
       (matchPatternRange mp 0 k xs ps s) in
   if result
   then matchPatternRange mp (k + 1) (n - k - 1) (drop (k + W) xs) ps s2
   else (false, s2)).
Proof.
  intros Hnb HL Hn n L k W.
  pose proof (findOooIdx_lt ps Hnb) as Hk. fold n k in Hk.
  split; [exact Hk|].
  rewrite matchPatternImpl_eq. cbv beta iota zeta.
  unfold matchDsRange. rewrite Hnb. fold n L k.
  rewrite (wrap_size_t_id (Z.of_nat n - 1)) by lia.
  split.
  - intros Hlt. destruct (Z.of_nat L <? Z.of_nat n - 1) eqn:E; [reflexivity|].
    apply Z.ltb_ge in E. lia.
  - intros Hge. split.
    { rewrite length_take, length_drop. fold L. unfold W. lia. }
    destruct (Z.of_nat L <? Z.of_nat n - 1) eqn:E;
      [apply Z.ltb_lt in E; lia|].
    rewrite (wrap_size_t_id (Z.of_nat L - (Z.of_nat n - 1))) by lia.
    rewrite (to_long_id (Z.of_nat L - (Z.of_nat n - 1))) by lia.
    replace (Z.of_nat L - Z.of_nat n + 1) with (Z.of_nat L - (Z.of_nat n - 1))
      by lia.
    rewrite (wrap_size_t_id (Z.of_nat L - (Z.of_nat n - 1))) by lia.
    rewrite (to_long_id (Z.of_nat L - (Z.of_nat n - 1))) by lia.
    replace (Z.to_nat (Z.of_nat L - (Z.of_nat n - 1))) with W
      by (unfold W; lia).
    rewrite drop_drop. reflexivity.
Qed.

(** C3, where the code departs from it. The tuple overload has no check of
    [L >= n - 1]: a [ds(1, ooo, 1, 2)], of four sub-patterns, matches the
    pair [(1, 2)], the sub-patterns after the splice being matched against
    elements the ones before it were matched against; the range overload
    rejects the same elements. *)
Theorem ds_tuple_splice_short :
  matchPattern IdTraits_equal
    (PDs [PLit (VInt 1); POoo; PLit (VInt 1); PLit (VInt 2)])
    (VTuple [VInt 1; VInt 2]) true 0 ([], []) = (true, ([], [])) /\
  matchPattern IdTraits_equal
    (PDs [PLit (VInt 1); POoo; PLit (VInt 1); PLit (VInt 2)])
    (VRange [VInt 1; VInt 2]) true 0 ([], []) = (false, ([], [])).
Proof. split; vm_compute; reflexivity. Qed.

(** The same for the tuple-like overload, under [L >= n - 1]. *)
Lemma matchDsTuple_splice (equal : Val -> Val -> bool)
    mp (isArray : bool) (ps : list Pattern) (xs : list Val) (lv : bool)
    (depth : Z) (s : St) :
  nbOooOrBinderV ps = 1%nat ->
  Z.of_nat (length xs) < 2 ^ 63 -> Z.of_nat (length ps) < 2 ^ 63 ->
  let n := length ps in
  let L := length xs in
  let k := findOooIdx ps in
  let W := (L - (n - 1))%nat in
  (n - 1 <= L)%nat ->
  isArray = true \/ ps !! k = Some POoo ->
  length (take W (drop k xs)) = W /\
  matchDsTuple equal mp isArray xs lv ps depth s =
  let '(result, s2) :=
    matchSplice equal ps k (VRange (take W (drop k xs))) depth
      (matchPatternMultiple mp 0 0 k xs lv ps s) in
  if result
  then matchPatternMultiple mp (k + W) (k + 1) (n - k - 1) xs lv ps s2
  else (false, s2).
Proof.
  intros Hnb HL Hn n L k W Hge Hkind.
  pose proof (findOooIdx_lt ps Hnb) as Hk. fold n k in Hk.
  split.
  { rewrite length_take, length_drop. fold L. unfold W. lia. }
  unfold matchDsTuple. rewrite Hnb. fold n L k.
  assert (Hb : match ps !! k with
               | Some q => isOooBinderV q
               | None => false
               end && negb isArray = false).
  { destruct Hkind as [-> | ->]; [apply andb_false_r|reflexivity]. }
  rewrite Hb.
  rewrite (wrap_size_t_id (Z.of_nat L - (Z.of_nat n - 1))) by lia.
  rewrite (to_long_id (Z.of_nat L - (Z.of_nat n - 1))) by lia.
  rewrite (wrap_size_t_id (Z.of_nat L - Z.of_nat n + Z.of_nat k + 1)) by lia.
  replace (Z.to_nat (Z.of_nat L - (Z.of_nat n - 1))) with W
    by (unfold W; lia).
  replace (Z.to_nat (Z.of_nat L - Z.of_nat n + Z.of_nat k + 1))
    with (k + W)%nat by (unfold W; lia).
  reflexivity.
Qed.

(** *** The splice law *)

Lemma matchElems_prefix mp (pre rest : list Pattern) :
  forall elem I0 lv (s : St),
    matchElems mp (pre ++ rest) 0 (length pre) elem I0 lv s =
    matchElems mp pre 0 (length pre) elem I0 lv s.
Proof.
  induction pre as [|q qs IH]; intros elem I0 lv s; simpl.
  - destruct rest; reflexivity.
  - destruct (elem I0) as [x|]; [|reflexivity].
    destruct (mp q x lv s) as [r s1]. destruct r; [apply IH|reflexivity].
Qed.

Lemma matchElems_skip mp (pre rest : list Pattern) :
  forall size elem I0 lv (s : St),
    matchElems mp (pre ++ rest) (length pre) size elem I0 lv s =
    matchElems mp rest 0 size elem I0 lv s.
Proof.
  induction pre as [|q qs IH]; intros size elem I0 lv s; simpl;
    [reflexivity|apply IH].
Qed.

(** The sub-patterns before the splice against the elements before it,
    and the ones after it against the elements after it. *)
Lemma matchElems_before mp (pre rest : list Pattern) (ys : list Val)
    (elem : nat -> option Val) (s s1 : St) :
  length ys = length pre ->
  (forall i, (i < length ys)%nat -> elem i = ys !! i) ->
  matchElems mp (pre ++ rest) 0 (length pre) elem 0 true s = (true, s1) <->
  Chain mp pre ys s s1.
Proof.
  intros Hlen Helem. rewrite matchElems_prefix.
  apply matchElems_chain; [exact Hlen|exact Helem].
Qed.

Lemma matchElems_after mp (pre : list Pattern) q (post : list Pattern)
    (zs : list Val) (elem : nat -> option Val) (s2 s' : St) :
  length zs = length post ->
  (forall i, (i < length zs)%nat -> elem i = zs !! i) ->
  matchElems mp (pre ++ q :: post) (length pre + 1) (length post) elem 0
    true s2 = (true, s') <->
  Chain mp post zs s2 s'.
Proof.
  intros Hlen Helem.
  rewrite (cons_middle q pre post), app_assoc.
  replace (length pre + 1)%nat with (length (pre ++ [q]))
    by (rewrite length_app; reflexivity).
  rewrite matchElems_skip.
  apply matchElems_chain; [exact Hlen|exact Helem].
Qed.

Lemma splice_assemble equal mp depth (pre : list Pattern) q
    (post : list Pattern) sub (A : bool * St) (B : St -> bool * St)
    (ys zs : list Val) (s s' : St) :
  isOooOrBinderV q = true ->
  (forall s1, A = (true, s1) <-> Chain mp pre ys s s1) ->
  (forall s2, B s2 = (true, s') <-> Chain mp post zs s2 s') ->
  (let '(result, s2) :=
     matchSplice equal (pre ++ q :: post) (length pre) sub depth A in
   if result then B s2 else (false, s2)) = (true, s') <->
  exists s1 s2,
    Chain mp pre ys s s1 /\ spliceStep equal depth q sub s1 s2 /\
    Chain mp post zs s2 s'.
Proof.
  intros Hq HA HB. unfold matchSplice.
  rewrite (list_lookup_middle pre post q (length pre) eq_refl).
  destruct q; try discriminate.
  - destruct A as [r s1]. destruct r.
    + rewrite HB. split.
      * intros Hc. exists s1, s1.
        split; [apply HA; reflexivity|]. split; [reflexivity|exact Hc].
      * intros (s1' & s2' & Hp & Hs & Hc). simpl in Hs. subst s2'.
        apply HA in Hp. injection Hp as <-. exact Hc.
    + split; [discriminate|].
      intros (s1' & s2' & Hp & _). apply HA in Hp. discriminate.
  - destruct A as [r [h c]]. destruct r.
    + change (matchPattern_OooBinder equal id sub true depth
                (h, emplace_back c sub))
        with (matchPattern equal (POooBinder id) sub true depth
                (h, emplace_back c sub)).
      destruct (matchPattern equal (POooBinder id) sub true depth
                  (h, emplace_back c sub)) as [r2 s2] eqn:E2.
      destruct r2.
      * rewrite HB. split.
        -- intros Hc. exists (h, c), s2.
           split; [apply HA; reflexivity|]. split; [exact E2|exact Hc].
        -- intros (s1' & s2' & Hp & Hs & Hc).
           apply HA in Hp. injection Hp as <-.
           unfold spliceStep in Hs. simpl fst in Hs. simpl snd in Hs.
           rewrite E2 in Hs. injection Hs as <-. exact Hc.
      * split; [discriminate|].
        intros (s1' & s2' & Hp & Hs & Hc).
        apply HA in Hp. injection Hp as <-.
        unfold spliceStep in Hs. simpl fst in Hs. simpl snd in Hs.
        rewrite E2 in Hs. discriminate.
    + split; [discriminate|].
      intros (s1' & s2' & Hp & _). apply HA in Hp. discriminate.
Qed.

(** The splice law of the range overload. A [Ds] of [n] sub-patterns with
    one splice, at index [k], against a range of [L] elements: when
    [L < n - 1] the match fails, touching nothing; when [L >= n - 1] it
    succeeds exactly when the sub-patterns before the splice match the
    elements [0 .. k - 1], one after the other, then the splice takes the
    [L - (n - 1)] elements from index [k] on (a binding splice is matched
    against that subrange), then the sub-patterns after the splice match
    the remaining elements, from index [k + L - (n - 1)] on; and it leaves
    the state the last of these steps left. *)
Theorem ds_range_splice_law (equal : Val -> Val -> bool) (ps : list Pattern)
    (xs : list Val) (lv : bool) (depth : Z) (s : St) :
  nbOooOrBinderV ps = 1%nat ->
  Z.of_nat (length xs) < 2 ^ 63 -> Z.of_nat (length ps) < 2 ^ 63 ->
  let n := length ps in
  let L := length xs in
  let k := findOooIdx ps in
  let W := (L - (n - 1))%nat in
  ((L < n - 1)%nat ->
   matchPatternImpl equal (PDs ps) (VRange xs) lv depth s = (false, s)) /\
  ((n - 1 <= L)%nat ->
   exists q, ps !! k = Some q /\ isOooOrBinderV q = true /\
   forall s' : St,
     matchPatternImpl equal (PDs ps) (VRange xs) lv depth s = (true, s') <->
     exists s1 s2 : St,
       Chain (matchChild equal depth) (take k ps) (take k xs) s s1 /\
       spliceStep equal depth q (VRange (take W (drop k xs))) s1 s2 /\
       Chain (matchChild equal depth) (drop (S k) ps) (drop (k + W) xs)
         s2 s').
Proof.
  intros Hnb HL Hn.
  pose proof (matchDsRange_splice equal ps xs lv depth s Hnb HL Hn) as H.
  cbv zeta in *. destruct H as (_ & Hshort & Hlong).
  split; [exact Hshort|]. intros Hge. destruct (Hlong Hge) as [_ Heq].
  destruct (findOooIdx_spec ps Hnb)
    as (pre & q & post & Hps & Hq & _ & _ & Hidx).
  rewrite Hidx in *. subst ps.
  rewrite length_app in *. simpl length in *.
  exists q. split; [apply list_lookup_middle; reflexivity|].
  split; [exact Hq|]. intros s'. rewrite Heq.
  rewrite take_app_length.
  replace (drop (S (length pre)) (pre ++ q :: post)) with post
    by (rewrite (cons_middle q pre post), app_assoc;
        symmetry; apply drop_app_length'; rewrite length_app; simpl; lia).
  set (W := (length xs - (length pre + S (length post) - 1))%nat).
  apply (splice_assemble equal (matchChild equal depth) depth pre q post
           (VRange (take W (drop (length pre) xs)))
           (matchPatternRange (matchChild equal depth) 0 (length pre) xs
              (pre ++ q :: post) s)
           (fun s2 => matchPatternRange (matchChild equal depth)
              (length pre + 1)
              (length pre + S (length post) - length pre - 1)
              (drop (length pre + W) xs) (pre ++ q :: post) s2)
           (take (length pre) xs) (drop (length pre + W) xs) s s' Hq).
  - intros s1. unfold matchPatternRange. apply matchElems_before.
    + rewrite length_take. lia.
    + intros i Hi. rewrite length_take in Hi. rewrite lookup_take.
      destruct (decide (i < length pre)%nat); [reflexivity|lia].
  - intros s2. unfold matchPatternRange.
    replace (length pre + S (length post) - length pre - 1)%nat
      with (length post) by lia.
    apply matchElems_after; [|reflexivity].
    rewrite length_drop. unfold W. lia.
Qed.

(** The splice law of the tuple-like overload, which has it only for
    [L >= n - 1], and a binding splice only on an array. A [Ds] of [n]
    sub-patterns with one splice, at index [k], against a tuple or an
    array of [L >= n - 1] components, reached as an lvalue: the match
    succeeds exactly when the sub-patterns before the splice match the
    components [0 .. k - 1], one after the other, then the splice takes
    the [L - (n - 1)] components from index [k] on (a binding splice is
    matched against that subrange), then the sub-patterns after the splice
    match the remaining components, from index [k + L - (n - 1)] on. *)
Theorem ds_tuple_splice_law (equal : Val -> Val -> bool) (isArray : bool)
    (ps : list Pattern) (xs : list Val) (depth : Z) (s : St) :
  nbOooOrBinderV ps = 1%nat ->
  Z.of_nat (length xs) < 2 ^ 63 -> Z.of_nat (length ps) < 2 ^ 63 ->
  let n := length ps in
  let L := length xs in
  let k := findOooIdx ps in
  let W := (L - (n - 1))%nat in
  (n - 1 <= L)%nat ->
  isArray = true \/ ps !! k = Some POoo ->
  exists q, ps !! k = Some q /\ isOooOrBinderV q = true /\
  forall s' : St,
    matchPatternImpl equal (PDs ps)
      (if isArray then VArray xs else VTuple xs) true depth s = (true, s') <->
    exists s1 s2 : St,
      Chain (matchChild equal depth) (take k ps) (take k xs) s s1 /\
      spliceStep equal depth q (VRange (take W (drop k xs))) s1 s2 /\
      Chain (matchChild equal depth) (drop (S k) ps) (drop (k + W) xs)
        s2 s'.
Proof.
  intros Hnb HL Hn n L k W Hge Hkind.
  pose proof (matchDsTuple_splice equal (matchChild equal depth) isArray ps
                xs true depth s Hnb HL Hn Hge Hkind) as [_ Heq].
  assert (Himpl : matchPatternImpl equal (PDs ps)
                    (if isArray then VArray xs else VTuple xs) true depth s =
                  matchDsTuple equal (matchChild equal depth) isArray xs true
                    ps depth s).
  { rewrite matchPatternImpl_eq. destruct isArray; reflexivity. }
  rewrite Himpl, Heq. clear Himpl Heq Hkind.
  subst n L k W.
  destruct (findOooIdx_spec ps Hnb)
    as (pre & q & post & Hps & Hq & _ & _ & Hidx).
  rewrite Hidx in *. subst ps.
  rewrite length_app in *. simpl length in *.
  exists q. split; [apply list_lookup_middle; reflexivity|].
  split; [exact Hq|]. intros s'.
  rewrite take_app_length.
  replace (drop (S (length pre)) (pre ++ q :: post)) with post
    by (rewrite (cons_middle q pre post), app_assoc;
        symmetry; apply drop_app_length'; rewrite length_app; simpl; lia).
  set (W := (length xs - (length pre + S (length post) - 1))%nat).
  apply (splice_assemble equal (matchChild equal depth) depth pre q post
           (VRange (take W (drop (length pre) xs)))
           (matchPatternMultiple (matchChild equal depth) 0 0 (length pre) xs
              true (pre ++ q :: post) s)
           (fun s2 => matchPatternMultiple (matchChild equal depth)
              (length pre + W) (length pre + 1)
              (length pre + S (length post) - length pre - 1)
              xs true (pre ++ q :: post) s2)
           (take (length pre) xs) (drop (length pre + W) xs) s s' Hq).
  - intros s1. unfold matchPatternMultiple. apply matchElems_before.
    + rewrite length_take. lia.
    + intros i Hi. rewrite length_take in Hi. rewrite lookup_take.
      rewrite Nat.add_0_r.
      destruct (decide (i < length pre)%nat); [reflexivity|lia].
  - intros s2. unfold matchPatternMultiple.
    replace (length pre + S (length post) - length pre - 1)%nat
      with (length post) by lia.
    apply matchElems_after.
    + rewrite length_drop. unfold W. lia.
    + intros i _. rewrite lookup_drop. f_equal. lia.
Qed.

(** ** Negation *)

Section Negation.
Variable equal : Val -> Val -> bool.

(** The states in which [not_] hides the captures of its sub-pattern.
    When [not_(P)] is matched at depth [d] and every cell referenced by [P]
    is untouched (empty, recorded depth 0) or has a recorded depth above
    [d], no cell referenced by [P] is bound afterwards, whether the node
    succeeds or fails. *)
Theorem not_hides_captures (P : Pattern) (v : Val) (lv : bool) (depth : Z)
    (s : St) (r : bool) (s' : St) :
  depthOk depth (PNot P) ->
  (forall o, o ∈ cellsOf (fst s) P ->
     okBlock (Id.load (fst s) o) /\ rollsBack (depth + 1) (Id.load (fst s) o)) ->
  matchPattern equal (PNot P) v lv depth s = (r, s') ->
  forall id, id ∈ ids P -> Id.hasValue (fst s') id = false.
Proof.
  intros [H0 Hmax] Hcells. simpl height in Hmax.
  pose proof (height_nonneg P) as HhP.
  unfold matchPattern. rewrite matchPatternImpl_eq. cbv beta iota zeta.
  unfold matchChild. rewrite add32_succ by lia.
  destruct (matchPattern equal P v lv (depth + 1) s) as [r1 [h1 c1]] eqn:E.
  assert (HdP : depthOk (depth + 1) P) by (split; lia).
  pose proof (matchPattern_eff equal _ _ _ _ _ _ _ HdP E) as HE.
  pose proof (matchPattern_processed equal _ _ _ _ _ _ _ HdP E) as HP.
  simpl fst in HE, HP.
  unfold afterMatch. intros [= <- <-] id Hin. simpl fst.
  rewrite processId_processAll.
  change (cellsOf h1 (PNot P)) with (cellsOf h1 P).
  rewrite (Eff_cellsOf _ _ _ _ P HE).
  set (cs := cellsOf (fst s) P) in *.
  set (a := Id.owner (fst s) id).
  assert (Ha : a ∈ cs) by (apply owner_in_cellsOf, Hin).
  unfold Id.hasValue, Id.block.
  unfold processAll at 1 2. rewrite owner_heapMap, load_heapMap.
  rewrite (Eff_owner _ _ _ _ id HE). fold a.
  destruct (h1 !! a) as [[b1|q]|] eqn:Hb1; try reflexivity.
  destruct (decide (a ∈ cs)) as [_|Hn]; [|contradiction].
  pose proof (HE a) as HEa. specialize (Hcells a Ha).
  unfold Id.load in Hcells.
  destruct (fst s !! a) as [[b|q]|] eqn:Hb;
    [|rewrite Hb1 in HEa; discriminate|rewrite Hb1 in HEa; discriminate].
  destruct HEa as (b1' & Hb1' & HT & _).
  rewrite Hb1 in Hb1'. injection Hb1' as <-.
  destruct Hcells as [Hok Hroll].
  assert (Hok1 : okBlock b1).
  { eapply (Touch_okBlock (depth + 1)); [| |exact HT|exact Hok]; lia. }
  assert (Hroll1 : rollsBack (depth + 1) b1).
  { eapply (Touch_rollsBack (depth + 1) (depth + 1)); [|exact HT|exact Hroll].
    lia. }
  unfold Block.hasValue.
  destruct r1; simpl.
  - rewrite reset_rollsBack; [reflexivity|exact Hok1|exact H0|].
    destruct Hroll1 as [Hm|Hge]; [left; exact Hm|right; lia].
  - rewrite confirm_variant.
    assert (Hfix : Block.reset (depth + 1) b1 = b1).
    { assert (Hl : processAll cs kCANCEL (depth + 1) h1 !! a = h1 !! a)
        by (rewrite HP; reflexivity).
      unfold processAll in Hl. rewrite heapMap_lookup, Hb1 in Hl.
      destruct (decide (a ∈ cs)); [|contradiction].
      simpl in Hl. congruence. }
    rewrite <- Hfix.
    rewrite reset_rollsBack; [reflexivity|exact Hok1|lia|exact Hroll1].
Qed.
End Negation.

Lemma not_hides_captures_witness :
  Id.hasValue
    (fst (snd (matchPattern IdTraits_equal (PNot (PId 0)) (VInt 3) true 0
                 ([ownBlock freshBlock], [])))) 0 = false.
Proof.
  refine (not_hides_captures IdTraits_equal (PId 0) (VInt 3) true 0
            ([ownBlock freshBlock], []) _ _ _ _ (surjective_pairing _) 0 _).
  - unfold depthOk, max32. simpl. lia.
  - intros o Ho. simpl in Ho. apply list_elem_of_singleton in Ho. subst o.
    split; [unfold okBlock, max32; simpl; lia|left; split; reflexivity].
  - simpl. apply list_elem_of_singleton. reflexivity.
Defined.

(** C7 (not hides captures), where the code departs from it.
    [Id::matchValue] records no depth with a binding, and the
    cancellation of a [not_] node at depth [d] clears only the cells
    recorded at depth [d] or deeper. In
    [and_(or_(and_(x, 1), _), app(f, app(f, or_(not_(x), meet(g)))))]
    matched against [3] from the cell of [x] as [Id()] makes it, the first
    conjunct leaves [x] empty with recorded depth 1; [not_(x)], at depth
    4, then binds [x], fails, and its cancellation at depth 4 does not
    clear a cell recorded at depth 1: [x] is bound to 3 after the failed
    [not_(x)] node. The binding is seen by what follows: with [g] testing
    [x.hasValue()], the clause matches, its handler runs, and [x] is
    still bound when the driver returns. *)
Theorem not_leaves_capture_bound :
  let x := 0%nat in
  let start := ([ownBlock freshBlock], []) : St in
  let before :=
    snd (matchPattern IdTraits_equal
           (POr [PAnd [PId x; PLit (VInt 1)]; PWildcard]) (VInt 3) true 1
           start) in
  let node := matchPattern IdTraits_equal (PNot (PId x)) (VInt 3) true 4
                before in
  let f := fun (_ : list BlockVT) (v : Val) => v in
  let g := fun (h : list BlockVT) (_ : Val) => Id.hasValue h x in
  let whole :=
    PAnd [POr [PAnd [PId x; PLit (VInt 1)]; PWildcard];
          PApp f true (PApp f true (POr [PNot (PId x); PMeet g]))] in
  Id.load (fst before) x = mkBlock monostate 1 /\
  fst node = false /\
  Id.hasValue (fst (snd node)) x = true /\
  Id.value (fst (snd node)) x = Ok (VInt 3) /\
  matchPatterns IdTraits_equal 0 (lvalueOf (VInt 3))
    [mkPatternPair whole (fun _ => 1)] ([ownBlock freshBlock], []) =
  (Ok 1, ([ownBlock (mkBlock (borrowed (VInt 3)) 0)], [0%nat])).
Proof. vm_compute. repeat split. Qed.


(** * Further properties of the matcher *)

(** ** What a match may touch *)

Lemma Eff_load_cases (Rel : Block -> Block -> Prop) cs (h h' : list BlockVT) o :
  Eff Rel cs h h' ->
  (o ∈ cs /\ Rel (Id.load h o) (Id.load h' o)) \/ Id.load h' o = Id.load h o.
Proof.
  intros H. specialize (H o). unfold Id.load.
  destruct (h !! o) as [[b|q]|].
  - destruct H as (b' & -> & R & F).
    destruct (decide (o ∈ cs)) as [Hin|Hn]; [left; auto|].
    right. rewrite (F Hn). reflexivity.
  - rewrite H. right. reflexivity.
  - rewrite H. right. reflexivity.
Qed.

Lemma Eff_same_heap (Rel : Block -> Block -> Prop) (h h' : list BlockVT) :
  Eff Rel [] h h' -> h' = h.
Proof.
  intros H. apply list_eq. intros a. specialize (H a).
  destruct (h !! a) as [[b|q]|]; try exact H.
  destruct H as (b' & -> & _ & F). rewrite F; [reflexivity|].
  apply not_elem_of_nil.
Qed.

Lemma Eff_length (Rel : Block -> Block -> Prop) cs (h h' : list BlockVT) :
  Eff Rel cs h h' -> length h' = length h.
Proof.
  intros H.
  destruct (Nat.lt_trichotomy (length h') (length h)) as [Hlt|[Heq|Hgt]];
    [exfalso|exact Heq|exfalso].
  - specialize (H (length h')).
    destruct (lookup_lt_is_Some_2 h _ Hlt) as [x Hx]. rewrite Hx in H.
    assert (Hn : h' !! length h' = None) by (apply lookup_ge_None; lia).
    destruct x as [b|q]; [destruct H as (b' & H & _)|]; congruence.
  - specialize (H (length h)).
    rewrite (proj2 (lookup_ge_None h (length h)) ltac:(lia)) in H.
    apply lookup_ge_None in H. lia.
Qed.

Section Frame.
Variable equal : Val -> Val -> bool.

(** A call of [matchPattern] leaves every [Id] designating the block it
    designated, creates and destroys none, leaves the block of every cell
    the pattern does not reference as it was, and, for a pattern that
    references no identifier, leaves the whole heap as it was. *)
Theorem matchPattern_frame (p : Pattern) (v : Val) (lv : bool) (depth : Z)
    (s : St) (r : bool) (s' : St) :
  depthOk depth p ->
  matchPattern equal p v lv depth s = (r, s') ->
  (forall id, Id.owner (fst s') id = Id.owner (fst s) id) /\
  length (fst s') = length (fst s) /\
  (forall o, o ∉ cellsOf (fst s) p -> Id.load (fst s') o = Id.load (fst s) o) /\
  (ids p = [] -> fst s' = fst s).
Proof.
  intros Hd Hm. pose proof (matchPattern_eff equal _ _ _ _ _ _ _ Hd Hm) as E.
  split; [intros id; eapply Eff_owner, E|].
  split; [eapply Eff_length, E|].
  split.
  - intros o Hn. destruct (Eff_load_cases _ _ _ _ o E) as [[Hin _]|Heq];
      [contradiction|exact Heq].
  - intros Hids. unfold cellsOf in E. rewrite Hids in E. simpl in E.
    eapply Eff_same_heap, E.
Qed.

(** Recorded depths stay in range, and after a call at depth [d], whatever
    its result, the recorded depth of every cell of the pattern is [d] at
    most: what a call binds or clears is attributed to its own depth or to
    a shallower one. *)
Theorem matchPattern_depths (p : Pattern) (v : Val) (lv : bool) (depth : Z)
    (s : St) (r : bool) (s' : St) :
  depthOk depth p ->
  matchPattern equal p v lv depth s = (r, s') ->
  (forall o, cellOk (fst s) o -> cellOk (fst s') o) /\
  (forall o, o ∈ cellsOf (fst s) p -> cellOk (fst s) o ->
     0 <= mDepth (Id.load (fst s') o) <= depth).
Proof.
  intros Hd Hm. pose proof (matchPattern_eff equal _ _ _ _ _ _ _ Hd Hm) as E.
  pose proof (matchPattern_processed equal _ _ _ _ _ _ _ Hd Hm) as HP.
  destruct Hd as [H0 Hmax]. pose proof (height_nonneg p) as Hh.
  assert (Hkeep : forall o, cellOk (fst s) o -> cellOk (fst s') o).
  { intros o Hok. unfold cellOk in *.
    destruct (Eff_load_cases _ _ _ _ o E) as [[_ HT]|Heq].
    - apply (Touch_okBlock depth (depth + height p)) in HT; auto.
    - rewrite Heq. exact Hok. }
  split; [exact Hkeep|].
  intros o Hin Hok. specialize (Hkeep o Hok). unfold cellOk in Hkeep.
  split; [lia|].
  assert (Hl : Id.load (processAll (cellsOf (fst s) p)
                          (if r then kCONFIRM else kCANCEL) depth (fst s')) o
               = Id.load (fst s') o) by (rewrite HP; reflexivity).
  unfold processAll in Hl. rewrite load_heapMap in Hl.
  unfold Id.load in Hl, Hkeep |- *.
  destruct (fst s' !! o) as [[b|q]|]; simpl; try lia.
  destruct (decide (o ∈ cellsOf (fst s) p)); [|contradiction].
  rewrite <- Hl. destruct r; simpl.
  - unfold Block.confirm.
    destruct ((mDepth b >? depth) || (mDepth b =? 0)) eqn:Ec; simpl; [lia|].
    apply orb_false_iff in Ec. lia.
  - unfold Block.reset.
    destruct (sub32 (mDepth b) depth >=? 0) eqn:Er; simpl; [lia|].
    rewrite sub32_exact in Er by (unfold max32 in *; lia). lia.
Qed.

(** A match that fails is rolled back: when every cell of the pattern is
    untouched or has a recorded depth of [d] at least, a call at depth [d]
    that returns false leaves every cell of the pattern empty. This is the
    atomicity of [and_], [ds], [app], [when] and of each alternative of
    [or_]. *)
Theorem failed_match_rolls_back (p : Pattern) (v : Val) (lv : bool)
    (depth : Z) (s : St) (s' : St) :
  depthOk depth p ->
  (forall o, o ∈ cellsOf (fst s) p ->
     cellOk (fst s) o /\ rollsBack depth (Id.load (fst s) o)) ->
  matchPattern equal p v lv depth s = (false, s') ->
  forall id, id ∈ ids p -> Id.hasValue (fst s') id = false.
Proof.
  intros Hd Hcells Hm id Hin.
  pose proof (matchPattern_eff equal _ _ _ _ _ _ _ Hd Hm) as E.
  pose proof (matchPattern_processed equal _ _ _ _ _ _ _ Hd Hm) as HP.
  destruct Hd as [H0 Hmax]. pose proof (height_nonneg p) as Hh.
  set (o := Id.owner (fst s) id).
  assert (Ho : o ∈ cellsOf (fst s) p) by (apply owner_in_cellsOf, Hin).
  destruct (Hcells o Ho) as [Hok Hroll]. unfold cellOk in Hok.
  unfold Id.hasValue, Id.block. rewrite (Eff_owner _ _ _ _ id E). fold o.
  assert (Hok' : okBlock (Id.load (fst s') o) /\
                 rollsBack depth (Id.load (fst s') o)).
  { destruct (Eff_load_cases _ _ _ _ o E) as [[_ HT]|Heq].
    - split.
      + eapply (Touch_okBlock depth); [| |exact HT|exact Hok]; lia.
      + eapply (Touch_rollsBack depth depth); [|exact HT|exact Hroll]. lia.
    - rewrite Heq. auto. }
  destruct Hok' as [Hok' Hroll'].
  assert (Hl : Id.load (processAll (cellsOf (fst s) p) kCANCEL depth (fst s')) o
               = Id.load (fst s') o) by (rewrite HP; reflexivity).
  unfold processAll in Hl. rewrite load_heapMap in Hl.
  unfold Id.load in Hl, Hok', Hroll' |- *.
  destruct (fst s' !! o) as [[b|q]|]; try reflexivity.
  destruct (decide (o ∈ cellsOf (fst s) p)); [|contradiction].
  simpl in Hl. unfold Block.hasValue. rewrite <- Hl.
  rewrite reset_rollsBack; auto.
Qed.
End Frame.

Lemma matchPattern_frame_witness :
  Id.load
    (fst (snd (matchPattern IdTraits_equal (PId 0) (VInt 3) true 0
                 ([ownBlock freshBlock; ownBlock freshBlock], [])))) 1
  = freshBlock.
Proof.
  refine (proj1 (proj2 (proj2
            (matchPattern_frame IdTraits_equal (PId 0) (VInt 3) true 0
               ([ownBlock freshBlock; ownBlock freshBlock], []) _ _ _
               (surjective_pairing _)))) 1%nat _).
  - unfold depthOk, max32. simpl. lia.
  - simpl. intros Hin. apply list_elem_of_singleton in Hin. discriminate.
Defined.

Lemma matchPattern_depths_witness :
  0 <= mDepth
         (Id.load
            (fst (snd (matchPattern IdTraits_equal
                         (PApp (fun _ x => x) false (PId 0)) (VInt 3) true 2
                         ([ownBlock freshBlock], [])))) 0) <= 2.
Proof.
  refine (proj2 (matchPattern_depths IdTraits_equal
                   (PApp (fun _ x => x) false (PId 0)) (VInt 3) true 2
                   ([ownBlock freshBlock], []) _ _ _ (surjective_pairing _))
            0%nat _ _).
  - unfold depthOk, max32. simpl. lia.
  - simpl. apply list_elem_of_singleton. reflexivity.
  - unfold cellOk, max32. simpl. lia.
Defined.

Lemma failed_match_rolls_back_witness :
  Id.hasValue
    (fst (snd (matchPattern IdTraits_equal (PAnd [PId 0; PLit (VInt 1)])
                 (VInt 3) true 0 ([ownBlock freshBlock], [])))) 0 = false.
Proof.
  refine (failed_match_rolls_back IdTraits_equal
            (PAnd [PId 0; PLit (VInt 1)]) (VInt 3) true 0
            ([ownBlock freshBlock], []) _ _ _ _ 0%nat _).
  - unfold depthOk, max32. simpl. lia.
  - intros o Ho. simpl in Ho. apply list_elem_of_singleton in Ho. subst o.
    split; [unfold cellOk, max32; simpl; lia|left; split; reflexivity].
  - reflexivity.
  - simpl. apply list_elem_of_singleton. reflexivity.
Defined.

(** ** The driver, once more *)

Section DriverRuns.
Variable equal : Val -> Val -> bool.
Context {R : Type}.

Lemma hasValue_outside p v lv (h h1 : list BlockVT) (c1 : list Val) r id :
  depthOk 0 p ->
  matchPattern equal p v lv 0 (h, []) = (r, (h1, c1)) ->
  Id.owner h id ∉ cellsOf h p ->
  Id.hasValue h1 id = Id.hasValue h id.
Proof.
  intros Hd Hm Hn.
  pose proof (matchPattern_eff equal _ _ _ _ _ _ _ Hd Hm) as E.
  simpl fst in E.
  unfold Id.hasValue, Id.block. rewrite (Eff_owner _ _ _ _ id E).
  destruct (Eff_load_cases _ _ _ _ (Id.owner h id) E) as [[Hin _]|Heq];
    [contradiction|rewrite Heq; reflexivity].
Qed.

(** What a run of the clauses leaves in the cells: nothing bound by a
    clause that did not match, except through the clause that did. *)
Lemma tryClauses_hygiene sc (pps : list (PatternPair R)) :
  forall i0 res (h : list BlockVT) (ex : list nat) m res' h' ex',
    clausesOk pps h ->
    tryClauses equal i0 pps sc res (h, ex) = (m, res', (h', ex')) ->
    (ex' = ex /\
     (forall pp id, pp ∈ pps -> id ∈ ids (mPattern pp) ->
        Id.hasValue h' id = false) /\
     (forall id, Id.hasValue h id = false -> Id.hasValue h' id = false)) \/
    (exists k pk,
       pps !! k = Some pk /\ ex' = ex ++ [(i0 + k)%nat] /\
       forall id,
         Id.owner h id ∉ cellsOf h (mPattern pk) ->
         (exists j pj, (j < k)%nat /\ pps !! j = Some pj /\
                       id ∈ ids (mPattern pj)) \/
         Id.hasValue h id = false ->
         Id.hasValue h' id = false).
Proof.
  induction pps as [|pp rest IH]; intros i0 res h ex m res' h' ex' Hok;
    cbn [tryClauses].
  - intros [= <- <- <- <-]. left. split; [reflexivity|]. split; [|auto].
    intros pp id Hin. apply elem_of_nil in Hin. destruct Hin.
  - destruct (Hok pp ltac:(left)) as [Hd Hc].
    destruct (func_spec equal i0 pp sc res h ex Hd Hc)
      as (m1 & h1 & c1 & Hm & ->).
    set (hr := resetCells (cellsOf h (mPattern pp)) h).
    assert (Hown : forall id, id ∈ ids (mPattern pp) ->
                              Id.hasValue hr id = false).
    { intros id Hin. unfold hr. rewrite hasValue_resetCells.
      destruct (decide _) as [|Hn]; [reflexivity|].
      exfalso. apply Hn, owner_in_cellsOf, Hin. }
    assert (Hkeep : forall id, Id.hasValue h id = false ->
                               Id.hasValue hr id = false).
    { intros id He. unfold hr. rewrite hasValue_resetCells.
      destruct (decide _); auto. }
    destruct m1.
    + intros [= <- <- <- <-]. right. exists 0%nat, pp.
      split; [reflexivity|]. split; [rewrite Nat.add_0_r; reflexivity|].
      intros id Hn [(j & pj & Hj & _)|He]; [lia|].
      rewrite (hasValue_outside _ _ _ _ _ _ _ id Hd Hm Hn). exact He.
    + intros Hrest. fold hr in Hrest.
      destruct (IH _ _ _ _ _ _ _ _ (clausesOk_tail _ _ _ _ Hok) Hrest)
        as [(-> & Hall & Hmono)|(k & pk & Hk & -> & Hout)].
      * left. split; [reflexivity|]. split; [|auto].
        intros pp' id Hin Hid. apply elem_of_cons in Hin.
        destruct Hin as [->|Hin]; [apply Hmono, Hown, Hid|].
        apply (Hall pp' id Hin Hid).
      * right. exists (S k), pk. split; [exact Hk|].
        split; [rewrite Nat.add_succ_r; reflexivity|].
        intros id Hn Hor. apply Hout.
        -- unfold hr. rewrite owner_resetCells, cellsOf_resetCells. exact Hn.
        -- destruct Hor as [(j & pj & Hj & Hpj & Hid)|He]; [|right; auto].
           destruct j as [|j].
           ++ injection Hpj as <-. right. apply Hown, Hid.
           ++ left. exists j, pj. repeat split; [lia|exact Hpj|exact Hid].
Qed.

(** The clauses that lost are cancelled. After a call of the driver, in
    either form, an identifier of clause [i] is empty whenever no handler
    was executed, and also when the handler of a later clause was and the
    pattern of that clause does not reference the cell of the identifier.
    The recorded depths of the cells and the nesting of the patterns are
    within [int32_t]. *)
Theorem losing_clauses_cancelled (result0 : R) sc (pps : list (PatternPair R))
    (h : list BlockVT) (i : nat) (pp : PatternPair R) (id : nat) :
  clausesOk pps h ->
  pps !! i = Some pp ->
  id ∈ ids (mPattern pp) ->
  let run := snd (matchPatterns equal result0 sc pps (h, [])) in
  let run_void := matchPatterns_void equal result0 sc pps (h, []) in
  run = run_void /\
  ((forall k, k ∈ snd run ->
      (i < k)%nat /\
      forall pk, pps !! k = Some pk ->
        Id.owner h id ∉ cellsOf h (mPattern pk)) ->
   Id.hasValue (fst run) id = false).
Proof.
  intros Hok Hi Hin. unfold matchPatterns, matchPatterns_void.
  destruct (tryClauses equal 0 pps sc result0 (h, []))
    as [[m res'] [h' ex']] eqn:E.
  split; [destruct m; reflexivity|].
  assert (Hgoal : (forall k, k ∈ ex' ->
      (i < k)%nat /\
      forall pk, pps !! k = Some pk ->
        Id.owner h id ∉ cellsOf h (mPattern pk)) ->
      Id.hasValue h' id = false).
  { intros Hwin.
    destruct (tryClauses_hygiene _ _ _ _ _ _ _ _ _ _ Hok E)
      as [(_ & Hall & _)|(k & pk & Hk & -> & Hout)].
    - apply (Hall pp id); [eapply list_elem_of_lookup_2, Hi|exact Hin].
    - destruct (Hwin k ltac:(simpl; left)) as [Hlt Hn].
      apply Hout; [apply (Hn pk Hk)|].
      left. exists i, pp. repeat split; auto. }
  destruct m; simpl; exact Hgoal.
Qed.

Lemma tryClauses_run sc (pps : list (PatternPair R)) :
  forall i0 res (h : list BlockVT) (ex : list nat),
    clausesFresh pps h ->
    exists new,
      snd (snd (tryClauses equal i0 pps sc res (h, ex))) = ex ++ new /\
      (length new <= 1)%nat /\
      (new = [] ->
       fst (snd (tryClauses equal i0 pps sc res (h, ex))) = h) /\
      (forall k, k ∈ new ->
       exists j pp, k = (i0 + j)%nat /\ pps !! j = Some pp /\
         fst (snd (tryClauses equal i0 pps sc res (h, ex))) =
         fst (snd (matchPattern equal (mPattern pp) (Scrutinee_value sc)
                     (Scrutinee_lvalue sc) 0 (h, [])))).
Proof.
  induction pps as [|p0 rest IH]; intros i0 res h ex Hf.
  - exists []. simpl. rewrite app_nil_r. repeat split; auto.
    intros k Hk. apply elem_of_nil in Hk. destruct Hk.
  - cbn [tryClauses].
    destruct (Hf p0 ltac:(left)) as [Hd Hc].
    rewrite (func_fresh equal i0 p0 sc res h ex Hd Hc). cbv zeta.
    destruct (fst (matchPattern equal (mPattern p0) (Scrutinee_value sc)
                     (Scrutinee_lvalue sc) 0 (h, []))) eqn:E0.
    + exists [i0]. simpl. repeat split; auto; [discriminate|].
      intros k Hk. apply list_elem_of_singleton in Hk. subst k.
      exists 0%nat, p0. rewrite Nat.add_0_r. repeat split; reflexivity.
    + destruct (IH (S i0) res h ex (clausesFresh_tail _ _ _ Hf))
        as (new & Hex & Hlen & Hnil & Hwin).
      exists new. repeat split; auto.
      intros k Hk. destruct (Hwin k Hk) as (j & pp & -> & Hj & Hh).
      exists (S j), pp. rewrite Nat.add_succ_r. repeat split; auto.
Qed.

(** From cells as [Id()] makes them, a call of the driver executes one
    handler at most, and its two forms leave the same cells: the heap as
    it was found when no handler was executed, and otherwise the heap that
    the match of the executed clause made, where the captures of that
    clause stay bound. *)
Theorem driver_final_heap (result0 : R) sc (pps : list (PatternPair R))
    (h : list BlockVT) (ex : list nat) :
  clausesFresh pps h ->
  let run := matchPatterns_void equal result0 sc pps (h, ex) in
  snd (matchPatterns equal result0 sc pps (h, ex)) = run /\
  exists new,
    (length new <= 1)%nat /\
    snd run = ex ++ new /\
    (new = [] -> fst run = h) /\
    (forall k, k ∈ new ->
     exists pp, pps !! k = Some pp /\
       fst run =
       fst (snd (matchPattern equal (mPattern pp) (Scrutinee_value sc)
                   (Scrutinee_lvalue sc) 0 (h, [])))).
Proof.
  intros Hf. destruct (tryClauses_run sc pps 0 result0 h ex Hf)
    as (new & Hex & Hlen & Hnil & Hwin).
  unfold matchPatterns, matchPatterns_void. cbv zeta.
  destruct (tryClauses equal 0 pps sc result0 (h, ex)) as [[m res'] run'].
  simpl in Hex, Hnil, Hwin.
  split; [destruct m; reflexivity|].
  exists new. repeat split; auto.
  intros k Hk. destruct (Hwin k Hk) as (j & pp & -> & Hj & Hh).
  exists pp. split; [exact Hj|exact Hh].
Qed.

(** The statement form, for a scrutinee that every clause sees unchanged
    and from cells as [Id()] makes them: when no pattern matches, the
    driver returns normally having executed nothing and leaves the cells
    as it found them; when clause [k] is the first whose pattern matches,
    it has executed the handler of clause [k] only and leaves the heap that
    the match of clause [k] made. *)
Theorem statement_form_runs (result0 : R) sc (pps : list (PatternPair R))
    (h : list BlockVT) (ex : list nat) :
  clausesFresh pps h ->
  ((forall pp, pp ∈ pps ->
      fst (matchPattern equal (mPattern pp) (Scrutinee_value sc)
             (Scrutinee_lvalue sc) 0 (h, [])) = false) ->
   matchPatterns_void equal result0 sc pps (h, ex) = (h, ex)) /\
  (forall k pp,
     pps !! k = Some pp ->
     fst (matchPattern equal (mPattern pp) (Scrutinee_value sc)
            (Scrutinee_lvalue sc) 0 (h, [])) = true ->
     (forall j pj, (j < k)%nat -> pps !! j = Some pj ->
        fst (matchPattern equal (mPattern pj) (Scrutinee_value sc)
               (Scrutinee_lvalue sc) 0 (h, [])) = false) ->
     matchPatterns_void equal result0 sc pps (h, ex) =
     (fst (snd (matchPattern equal (mPattern pp) (Scrutinee_value sc)
                  (Scrutinee_lvalue sc) 0 (h, []))),
      ex ++ [k])).
Proof.
  intros Hf. unfold matchPatterns_void. split.
  - intros Hno. rewrite (tryClauses_none equal sc pps 0 result0 h ex Hf Hno).
    reflexivity.
  - intros k pp Hk Hyes Hno.
    rewrite (tryClauses_first equal sc pps 0 result0 h ex k pp Hf Hk Hyes Hno).
    reflexivity.
Qed.

Lemma first_match_exists (f : PatternPair R -> bool)
    (pps : list (PatternPair R)) :
  (exists pp, pp ∈ pps /\ f pp = true) ->
  exists k pp, pps !! k = Some pp /\ f pp = true /\
    forall j pj, (j < k)%nat -> pps !! j = Some pj -> f pj = false.
Proof.
  induction pps as [|p0 rest IH]; intros (pp & Hin & Hpp).
  - apply elem_of_nil in Hin. destruct Hin.
  - destruct (f p0) eqn:E0.
    + exists 0%nat, p0. repeat split; auto. intros j pj Hj. lia.
    + apply elem_of_cons in Hin. destruct Hin as [->|Hin]; [congruence|].
      destruct (IH (ex_intro _ pp (conj Hin Hpp))) as (k & pk & Hk & Hfk & Hno).
      exists (S k), pk. repeat split; auto.
      intros [|j] pj Hj Hpj.
      * injection Hpj as <-. exact E0.
      * apply (Hno j pj); [lia|exact Hpj].
Qed.

(** For a scrutinee that every clause sees unchanged and from cells as
    [Id()] makes them, the expression form throws exactly when the pattern
    of no clause matches, and returns a value exactly when one does. *)
Theorem throws_iff_no_match (result0 : R) sc (pps : list (PatternPair R))
    (h : list BlockVT) (ex : list nat) :
  clausesFresh pps h ->
  (fst (matchPatterns equal result0 sc pps (h, ex)) =
     Throw "Error: no patterns got matched!" <->
   forall pp, pp ∈ pps ->
     fst (matchPattern equal (mPattern pp) (Scrutinee_value sc)
            (Scrutinee_lvalue sc) 0 (h, [])) = false) /\
  ((exists res, fst (matchPatterns equal result0 sc pps (h, ex)) = Ok res) <->
   exists pp, pp ∈ pps /\
     fst (matchPattern equal (mPattern pp) (Scrutinee_value sc)
            (Scrutinee_lvalue sc) 0 (h, [])) = true).
Proof.
  intros Hf.
  set (f := fun pp : PatternPair R =>
              fst (matchPattern equal (mPattern pp) (Scrutinee_value sc)
            (Scrutinee_lvalue sc) 0 (h, []))).
  assert (Hnone : (forall pp, pp ∈ pps -> f pp = false) ->
            fst (matchPatterns equal result0 sc pps (h, ex)) =
            Throw "Error: no patterns got matched!").
  { intros Hno. unfold matchPatterns.
    rewrite (tryClauses_none equal sc pps 0 result0 h ex Hf Hno).
    reflexivity. }
  assert (Hsome : (exists pp, pp ∈ pps /\ f pp = true) ->
            exists res,
              fst (matchPatterns equal result0 sc pps (h, ex)) = Ok res).
  { intros Hex.
    destruct (first_match_exists f pps Hex) as (k & pk & Hk & Hyes & Hno).
    unfold matchPatterns.
    rewrite (tryClauses_first equal sc pps 0 result0 h ex k pk Hf Hk Hyes Hno).
    eexists. reflexivity. }
  assert (Hdec : (forall pp, pp ∈ pps -> f pp = false) \/
                 (exists pp, pp ∈ pps /\ f pp = true)).
  { clear. induction pps as [|p0 rest IH].
    - left. intros pp Hin. apply elem_of_nil in Hin. destruct Hin.
    - destruct (f p0) eqn:E0.
      + right. exists p0. split; [left|exact E0].
      + destruct IH as [Hno|(pp & Hin & Hpp)].
        * left. intros pp Hin. apply elem_of_cons in Hin.
          destruct Hin as [->|Hin]; auto.
        * right. exists pp. split; [right; exact Hin|exact Hpp]. }
  split; split.
  - intros Hthrow. destruct Hdec as [Hno|Hex]; [exact Hno|].
    destruct (Hsome Hex) as [res Hres]. congruence.
  - exact Hnone.
  - intros [res Hres]. destruct Hdec as [Hno|Hex]; [|exact Hex].
    rewrite (Hnone Hno) in Hres. discriminate.
  - exact Hsome.
Qed.
End DriverRuns.

Lemma losing_clauses_cancelled_witness :
  Id.hasValue
    (fst (snd (matchPatterns IdTraits_equal 0 (scalarOf 7)
                 [mkPatternPair (PAnd [PId 0; PLit (VInt 1)])
                    (fun h => captured h 0);
                  mkPatternPair PWildcard (fun _ => 40)]
                 ([ownBlock freshBlock], [])))) 0 = false.
Proof.
  refine (proj2 (losing_clauses_cancelled IdTraits_equal 0 (scalarOf 7)
                   [mkPatternPair (PAnd [PId 0; PLit (VInt 1)])
                      (fun h => captured h 0);
                    mkPatternPair PWildcard (fun _ => 40)]
                   [ownBlock freshBlock] 0 _ 0 _ eq_refl _) _).
  - intros pp Hin. each_clause Hin.
    + split; [unfold depthOk, max32; simpl; lia|].
      intros o Ho. apply list_elem_of_singleton in Ho. subst o.
      unfold cellOk, max32. simpl. lia.
    + split; [unfold depthOk, max32; simpl; lia|].
      intros o Ho. apply elem_of_nil in Ho. destruct Ho.
  - simpl. apply list_elem_of_singleton. reflexivity.
  - intros k Hk. change (k ∈ [1%nat]) in Hk.
    apply list_elem_of_singleton in Hk. subst k.
    split; [lia|]. intros pk Hpk. injection Hpk as <-.
    apply not_elem_of_nil.
Defined.

Lemma driver_final_heap_witness :
  let pps := [mkPatternPair (PLit (VInt 1)) (fun _ => 10);
              mkPatternPair (PId 0) (fun h => 2 * captured h 0)] in
  let start : Run := ([ownBlock freshBlock], []) in
  let run := matchPatterns_void IdTraits_equal 0 (scalarOf 7) pps start in
  snd (matchPatterns IdTraits_equal 0 (scalarOf 7) pps start) = run /\
  exists new,
    (length new <= 1)%nat /\
    snd run = [] ++ new /\
    (new = [] -> fst run = [ownBlock freshBlock]) /\
    (forall k, k ∈ new ->
     exists pp, pps !! k = Some pp /\
       fst run =
       fst (snd (matchPattern IdTraits_equal (mPattern pp) (VInt 7) false 0
                   ([ownBlock freshBlock], [])))).
Proof.
  apply (driver_final_heap IdTraits_equal 0 (scalarOf 7)
           [mkPatternPair (PLit (VInt 1)) (fun _ => 10);
            mkPatternPair (PId 0) (fun h => 2 * captured h 0)]
           [ownBlock freshBlock] []).
  intros pp Hin. each_clause Hin; fresh_clause.
Defined.

Lemma statement_form_runs_witness :
  matchPatterns_void IdTraits_equal 0 (lvalueOf (VInt 99))
    [mkPatternPair (PLit (VInt 1)) (fun _ => 97);
     mkPatternPair (PLit (VInt 2)) (fun _ => 98)]
    ([], [3%nat]) = ([], [3%nat]).
Proof.
  refine (proj1 (statement_form_runs IdTraits_equal 0 (lvalueOf (VInt 99))
                   [mkPatternPair (PLit (VInt 1)) (fun _ => 97);
                    mkPatternPair (PLit (VInt 2)) (fun _ => 98)]
                   [] [3%nat] _) _).
  - intros pp Hin. each_clause Hin; fresh_clause.
  - intros pp Hin. each_clause Hin; reflexivity.
Defined.

Lemma throws_iff_no_match_witness :
  exists res,
    fst (matchPatterns IdTraits_equal 0 (lvalueOf (VInt 2))
           [mkPatternPair (PLit (VInt 1)) (fun _ => 97);
            mkPatternPair (PLit (VInt 2)) (fun _ => 98)]
           ([], [])) = Ok res.
Proof.
  refine (proj2 (proj2 (throws_iff_no_match IdTraits_equal 0
                   (lvalueOf (VInt 2))
                   [mkPatternPair (PLit (VInt 1)) (fun _ => 97);
                    mkPatternPair (PLit (VInt 2)) (fun _ => 98)]
                   [] [] _)) _).
  - intros pp Hin. each_clause Hin; fresh_clause.
  - exists (mkPatternPair (PLit (VInt 2)) (fun _ => 98)).
    split; [right; left|reflexivity].
Defined.

(** ** Alternatives *)

Lemma matchOr_first mp (ps : list Pattern) :
  forall v lvLast (s s2 : St),
    matchOr mp ps v lvLast s = (true, s2) <->
    exists pre q post (s1 : St),
      ps = pre ++ q :: post /\
      FailChain mp v pre s s1 /\
      mp q v (match post with [] => lvLast | _ => true end) s1 = (true, s2).
Proof.
  induction ps as [|p0 rest IH]; intros v lvLast s s2.
  - simpl. split; [discriminate|].
    intros (pre & q & post & s1 & Hps & _). destruct pre; discriminate.
  - cbn [matchOr]. split.
    + destruct (mp p0 v _ s) as [r s'] eqn:E0. destruct r.
      * intros [= <-]. exists [], p0, rest, s.
        split; [reflexivity|]. split; [constructor|exact E0].
      * intros Hrest. apply IH in Hrest.
        destruct Hrest as (pre & q & post & s1 & -> & Hfail & Hq).
        exists (p0 :: pre), q, post, s1.
        split; [reflexivity|]. split; [|exact Hq].
        econstructor; [|exact Hfail].
        destruct pre; exact E0.
    + intros (pre & q & post & s1 & Hps & Hfail & Hq).
      destruct pre as [|p1 pre].
      * simpl in Hps. injection Hps as -> ->.
        inversion Hfail; subst. rewrite Hq. reflexivity.
      * simpl in Hps. injection Hps as -> ->.
        inversion Hfail as [|? ? ? s' ? H1 Hrest]; subst.
        replace (match pre ++ q :: post with [] => lvLast | _ => true end)
          with true by (destruct pre; reflexivity).
        rewrite H1. apply IH. exists pre, q, post, s1. auto.
Qed.

(** [or_]: the node succeeds exactly when, the alternatives being tried in
    order, each from the state its predecessor left, one succeeds after all
    those before it failed; it then leaves the state that alternative left,
    whatever the alternatives after it are. *)
Theorem or_first_success (equal : Val -> Val -> bool) (ps : list Pattern)
    (v : Val) (lv : bool) (depth : Z) (s s2 : St) :
  matchPatternImpl equal (POr ps) v lv depth s = (true, s2) <->
  exists pre q post (s1 : St),
    ps = pre ++ q :: post /\
    FailChain (matchChild equal depth) v pre s s1 /\
    matchChild equal depth q v (match post with [] => lv | _ => true end) s1
      = (true, s2).
Proof.
  rewrite matchPatternImpl_eq. cbv beta iota zeta. apply matchOr_first.
Qed.

(** ** Blocks under confirm and reset *)

(** [confirm(d)] never changes the value slot and leaves a recorded depth
    of [d] at most; a block so confirmed is left alone by every [reset] at a
    greater depth: a confirmed binding survives the rollbacks of deeper
    levels. *)
Theorem confirm_survives_deeper_reset (b : Block) (d d' : Z) :
  okBlock b -> 0 <= d -> d < d' <= max32 ->
  mVariant (Block.confirm d b) = mVariant b /\
  0 <= mDepth (Block.confirm d b) <= d /\
  Block.reset d' (Block.confirm d b) = Block.confirm d b.
Proof.
  unfold okBlock. intros Hb Hd Hd'.
  split; [apply confirm_variant|].
  assert (Hle : 0 <= mDepth (Block.confirm d b) <= d).
  { unfold Block.confirm.
    destruct ((mDepth b >? d) || (mDepth b =? 0)) eqn:E; simpl; [lia|].
    apply orb_false_iff in E. lia. }
  split; [exact Hle|].
  unfold Block.reset. rewrite sub32_exact by lia.
  destruct (mDepth (Block.confirm d b) - d' >=? 0) eqn:E; [lia|reflexivity].
Qed.

Lemma confirm_survives_deeper_reset_witness :
  Block.reset 3 (Block.confirm 1 (mkBlock (owned (VInt 5)) 2)) =
  Block.confirm 1 (mkBlock (owned (VInt 5)) 2).
Proof.
  refine (proj2 (proj2 (confirm_survives_deeper_reset
                          (mkBlock (owned (VInt 5)) 2) 1 3 _ _ _))).
  - unfold okBlock, max32. simpl. lia.
  - lia.
  - unfold max32. lia.
Defined.

Lemma processAll_perm cs cs' proc d h :
  (forall a : nat, a ∈ cs <-> a ∈ cs') ->
  processAll cs proc d h = processAll cs' proc d h.
Proof.
  intros Hiff. unfold processAll. apply heapMap_ext. intros a b _.
  destruct (decide (a ∈ cs)) as [H1|H1], (decide (a ∈ cs')) as [H2|H2];
    try reflexivity; exfalso; [apply H2, Hiff, H1|apply H1, Hiff, H2].
Qed.

(** [processId] may be repeated and reordered: processing the identifiers
    of a pattern twice is processing them once (so an [Id] and its copies
    in one pattern are no trouble), and processing two patterns at one
    depth gives the same heap in either order. *)
Theorem processId_repeat_reorder (p q : Pattern) (depth : Z)
    (proc : IdProcess) (h : list BlockVT) :
  processId p depth proc (processId p depth proc h) = processId p depth proc h
  /\
  processId p depth proc (processId q depth proc h) =
  processId q depth proc (processId p depth proc h).
Proof.
  assert (Hc : forall cs r, cellsOf (processAll cs proc depth h) r = cellsOf h r)
    by (intros cs r; apply cellsOf_heapMap).
  rewrite !processId_processAll, !Hc.
  split; [apply processAll_idemp|].
  rewrite !processAll_app. apply processAll_perm.
  intros a. rewrite !elem_of_app. split; intros [H|H]; auto.
Qed.

(** ** Destructuring, further *)

Lemma no_splice_elem (ps : list Pattern) :
  nbOooOrBinderV ps = 0%nat -> forall q, q ∈ ps -> isOooOrBinderV q = false.
Proof.
  unfold nbOooOrBinderV. induction ps as [|p ps IH]; intros Hnb q Hin.
  - apply elem_of_nil in Hin. destruct Hin.
  - simpl in Hnb. apply elem_of_cons in Hin.
    destruct (isOooOrBinderV p) eqn:Ep; [discriminate|].
    destruct Hin as [->|Hin]; [exact Ep|]. apply IH; assumption.
Qed.

(** With exactly one splice among the sub-patterns of a [Ds], [findOooIdx]
    is the index of that splice, and no other index holds one. *)
Theorem findOooIdx_is_the_splice (ps : list Pattern) :
  nbOooOrBinderV ps = 1%nat ->
  (exists q, ps !! findOooIdx ps = Some q /\ isOooOrBinderV q = true) /\
  (forall j q', ps !! j = Some q' -> isOooOrBinderV q' = true ->
     j = findOooIdx ps).
Proof.
  intros Hnb.
  destruct (findOooIdx_spec ps Hnb)
    as (pre & q & post & -> & Hq & Hpre & Hpost & ->).
  split.
  - exists q. split; [apply list_lookup_middle; reflexivity|exact Hq].
  - intros j q' Hj Hq'.
    destruct (Nat.lt_trichotomy j (length pre)) as [Hlt|[Heq|Hgt]];
      [exfalso|exact Heq|exfalso].
    + rewrite lookup_app_l in Hj by exact Hlt.
      apply list_elem_of_lookup_2 in Hj.
      rewrite (no_splice_elem pre Hpre q' Hj) in Hq'. discriminate.
    + rewrite lookup_app_r in Hj by lia.
      destruct (j - length pre)%nat as [|i] eqn:Ei; [lia|].
      simpl in Hj. apply list_elem_of_lookup_2 in Hj.
      rewrite (no_splice_elem post Hpost q' Hj) in Hq'. discriminate.
Qed.

Lemma findOooIdx_is_the_splice_witness :
  exists q, [PLit (VInt 1); POooBinder 0; PWildcard] !!
              findOooIdx [PLit (VInt 1); POooBinder 0; PWildcard] = Some q /\
            isOooOrBinderV q = true.
Proof.
  exact (proj1 (findOooIdx_is_the_splice
                  [PLit (VInt 1); POooBinder 0; PWildcard] eq_refl)).
Defined.

Lemma ds_range_splice_law_witness :
  let ps := [PLit (VInt 10); POooBinder 0; PLit (VInt 50)] in
  let xs := map VInt [10; 20; 30; 40; 50] in
  let s : St := ([ownBlock freshBlock], []) in
  ((length xs < length ps - 1)%nat ->
   matchPatternImpl IdTraits_equal (PDs ps) (VRange xs) true 0 s
   = (false, s)) /\
  ((length ps - 1 <= length xs)%nat ->
   exists q, ps !! findOooIdx ps = Some q /\ isOooOrBinderV q = true /\
   forall s' : St,
     matchPatternImpl IdTraits_equal (PDs ps) (VRange xs) true 0 s
     = (true, s') <->
     exists s1 s2 : St,
       Chain (matchChild IdTraits_equal 0) (take (findOooIdx ps) ps)
         (take (findOooIdx ps) xs) s s1 /\
       spliceStep IdTraits_equal 0 q
         (VRange (take (length xs - (length ps - 1))
                    (drop (findOooIdx ps) xs))) s1 s2 /\
       Chain (matchChild IdTraits_equal 0) (drop (S (findOooIdx ps)) ps)
         (drop (findOooIdx ps + (length xs - (length ps - 1))) xs) s2 s').
Proof.
  apply (ds_range_splice_law IdTraits_equal
           [PLit (VInt 10); POooBinder 0; PLit (VInt 50)]
           (map VInt [10; 20; 30; 40; 50]) true 0
           ([ownBlock freshBlock], [])).
  - reflexivity.
  - simpl. lia.
  - simpl. lia.
Defined.

Lemma ds_tuple_splice_law_witness :
  let ps := [PLit (VInt 10); POooBinder 0; PLit (VInt 50)] in
  let xs := map VInt [10; 20; 30; 40; 50] in
  let s : St := ([ownBlock freshBlock], []) in
  exists q, ps !! findOooIdx ps = Some q /\ isOooOrBinderV q = true /\
  forall s' : St,
    matchPatternImpl IdTraits_equal (PDs ps) (VArray xs) true 0 s
    = (true, s') <->
    exists s1 s2 : St,
      Chain (matchChild IdTraits_equal 0) (take (findOooIdx ps) ps)
        (take (findOooIdx ps) xs) s s1 /\
      spliceStep IdTraits_equal 0 q
        (VRange (take (length xs - (length ps - 1))
                   (drop (findOooIdx ps) xs))) s1 s2 /\
      Chain (matchChild IdTraits_equal 0) (drop (S (findOooIdx ps)) ps)
        (drop (findOooIdx ps + (length xs - (length ps - 1))) xs) s2 s'.
Proof.
  apply (ds_tuple_splice_law IdTraits_equal true
           [PLit (VInt 10); POooBinder 0; PLit (VInt 50)]
           (map VInt [10; 20; 30; 40; 50]) 0
           ([ownBlock freshBlock], [])).
  - reflexivity.
  - simpl. lia.
  - simpl. lia.
  - simpl. lia.
  - left. reflexivity.
Defined.

(** A [Ds] without splice against a tuple-like value of the same arity
    (another arity does not compile): the match succeeds exactly when every
    sub-pattern matches the component of its index, each from the state the
    previous one left, and it leaves the state the last one left. *)
Theorem ds_tuple_size_law (equal : Val -> Val -> bool) (ps : list Pattern)
    (xs : list Val) (lv : bool) (depth : Z) (s s' : St) :
  nbOooOrBinderV ps = 0%nat ->
  length xs = length ps ->
  (matchPatternImpl equal (PDs ps) (VTuple xs) lv depth s = (true, s') <->
   Chain (matchChild equal depth) ps xs s s') /\
  (matchPatternImpl equal (PDs ps) (VArray xs) lv depth s = (true, s') <->
   Chain (matchChild equal depth) ps xs s s').
Proof.
  intros Hnb Hlen. rewrite !matchPatternImpl_eq. cbv beta iota zeta.
  unfold matchDsTuple. rewrite Hnb.
  rewrite (proj2 (Nat.eqb_eq _ _) (eq_sym Hlen)).
  unfold matchPatternMultiple.
  split; (apply matchElems_chain; [exact Hlen|]);
    intros i _; rewrite Nat.add_0_r; reflexivity.
Qed.

Lemma ds_tuple_size_law_witness :
  matchPatternImpl IdTraits_equal (PDs [PId 0; PLit (VInt 5)])
    (VTuple [VInt 4; VInt 5]) true 0 ([ownBlock freshBlock], []) =
  (true, ([ownBlock (mkBlock (borrowed (VInt 4)) 1)], [])) <->
  Chain (matchChild IdTraits_equal 0) [PId 0; PLit (VInt 5)]
    [VInt 4; VInt 5] ([ownBlock freshBlock], [])
    ([ownBlock (mkBlock (borrowed (VInt 4)) 1)], []).
Proof.
  exact (proj1 (ds_tuple_size_law IdTraits_equal [PId 0; PLit (VInt 5)]
                  [VInt 4; VInt 5] true 0 ([ownBlock freshBlock], [])
                  ([ownBlock (mkBlock (borrowed (VInt 4)) 1)], [])
                  eq_refl eq_refl)).
Defined.

(** ** The context *)

Lemma ctxGrows_refl n (s : St) : ctxGrows n s s.
Proof. exists []. rewrite app_nil_r. split; [reflexivity|simpl; lia]. Qed.

Lemma ctxGrows_trans n m k (s s1 s2 : St) :
  ctxGrows n s s1 -> ctxGrows m s1 s2 -> (n + m <= k)%nat -> ctxGrows k s s2.
Proof.
  intros (e1 & H1 & L1) (e2 & H2 & L2) Hk. exists (e1 ++ e2).
  rewrite H2, H1, app_assoc, length_app. split; [reflexivity|lia].
Qed.

Lemma ctxGrows_mono n k (s s' : St) :
  ctxGrows n s s' -> (n <= k)%nat -> ctxGrows k s s'.
Proof. intros (e & H & L) Hk. exists e. split; [exact H|lia]. Qed.

Lemma afterMatch_ctx p depth (r : bool * St) :
  snd (snd (afterMatch p depth r)) = snd (snd r).
Proof. destruct r as [b [h c]]. reflexivity. Qed.

Section ContextGrowth.
Variable mp : Pattern -> Val -> bool -> St -> bool * St.

Definition pushSpec (ps : list Pattern) : Prop :=
  forall q, q ∈ ps -> forall x lvx (s : St) r (s' : St),
    mp q x lvx s = (r, s') -> ctxGrows (nbPush q) s s'.

Lemma pushSpec_tail q qs : pushSpec (q :: qs) -> pushSpec qs.
Proof. intros H q' Hin. apply H. right. exact Hin. Qed.

Lemma matchOr_ctx ps : pushSpec ps ->
  forall v lvLast (s : St) r (s' : St),
    matchOr mp ps v lvLast s = (r, s') ->
    ctxGrows (list_sum (map nbPush ps)) s s'.
Proof.
  induction ps as [|q qs IH]; intros Hsp v lvLast s r s'; simpl.
  - intros [= <- <-]. apply ctxGrows_refl.
  - destruct (mp q v _ s) as [r1 s1] eqn:Hq.
    pose proof (Hsp q ltac:(left) _ _ _ _ _ Hq) as G1. destruct r1.
    + intros [= <- <-]. eapply ctxGrows_mono; [exact G1|lia].
    + intros Hrest. eapply ctxGrows_trans; [exact G1| |reflexivity].
      eapply IH; eauto using pushSpec_tail.
Qed.

Lemma matchAnd_ctx ps : pushSpec ps ->
  forall v lvLast (s : St) r (s' : St),
    matchAnd mp ps v lvLast s = (r, s') ->
    ctxGrows (list_sum (map nbPush ps)) s s'.
Proof.
  induction ps as [|q qs IH]; intros Hsp v lvLast s r s'; simpl.
  - intros [= <- <-]. apply ctxGrows_refl.
  - destruct (mp q v _ s) as [r1 s1] eqn:Hq.
    pose proof (Hsp q ltac:(left) _ _ _ _ _ Hq) as G1. destruct r1.
    + intros Hrest. eapply ctxGrows_trans; [exact G1| |reflexivity].
      eapply IH; eauto using pushSpec_tail.
    + intros [= <- <-]. eapply ctxGrows_mono; [exact G1|lia].
Qed.

(** [matchElems] pushes for the patterns it matches only: those of the
    indices from [skip] on, [size] of them. *)
Lemma matchElems_ctx ps : pushSpec ps ->
  forall skip size elem I0 lv (s : St) r (s' : St),
    matchElems mp ps skip size elem I0 lv s = (r, s') ->
    ctxGrows (list_sum (map nbPush (take size (drop skip ps)))) s s'.
Proof.
  induction ps as [|q qs IH]; intros Hsp skip size elem I0 lv s r s'; simpl.
  - intros [= <- <-]. apply ctxGrows_refl.
  - destruct skip as [|k].
    + destruct size as [|sz].
      { intros [= <- <-]. apply ctxGrows_refl. }
      destruct (elem I0) as [x|].
      2: { intros [= <- <-]. apply ctxGrows_refl. }
      destruct (mp q x lv s) as [r1 s1] eqn:Hq.
      pose proof (Hsp q ltac:(left) _ _ _ _ _ Hq) as G1.
      simpl. destruct r1.
      * intros Hrest. eapply ctxGrows_trans; [exact G1| |reflexivity].
        specialize (IH (pushSpec_tail _ _ Hsp) 0%nat sz elem (S I0) lv
                      s1 r s' Hrest).
        rewrite drop_0 in IH. exact IH.
      * intros [= <- <-]. eapply ctxGrows_mono; [exact G1|lia].
    + intros Hrest. simpl.
      exact (IH (pushSpec_tail _ _ Hsp) k size elem I0 lv s r s' Hrest).
Qed.
End ContextGrowth.

Lemma sum_take_le (f : Pattern -> nat) (l : list Pattern) n :
  (list_sum (map f (take n l)) <= list_sum (map f l))%nat.
Proof.
  revert n. induction l as [|x l IH]; intros [|n]; simpl; try lia.
  specialize (IH n). lia.
Qed.

Lemma sum_around (f : Pattern -> nat) (ps : list Pattern) k m :
  (k < length ps)%nat ->
  (list_sum (map f (take k ps))
   + match ps !! k with Some q => f q | None => 0 end
   + list_sum (map f (take m (drop (k + 1) ps)))
   <= list_sum (map f ps))%nat.
Proof.
  intros Hk. destruct (lookup_lt_is_Some_2 ps k Hk) as [q Hq]. rewrite Hq.
  pose proof (sum_take_le f (drop (k + 1) ps) m) as Hm.
  assert (Hsplit : list_sum (map f ps) =
            (list_sum (map f (take k ps)) + (f q
             + list_sum (map f (drop (k + 1) ps))))%nat).
  { rewrite <- (take_drop_middle ps k q Hq) at 1.
    rewrite map_app, list_sum_app. simpl.
    replace (S k) with (k + 1)%nat by lia. reflexivity. }
  lia.
Qed.

Section ContextOfMatch.
Variable equal : Val -> Val -> bool.

Lemma matchPattern_OooBinder_ctx id v lv depth (s : St) :
  snd (snd (matchPattern_OooBinder equal id v lv depth s)) = snd s.
Proof.
  unfold matchPattern_OooBinder, matchPattern_Id.
  rewrite !afterMatch_ctx. destruct s as [h c].
  destruct (Id.matchValue equal h id v lv). reflexivity.
Qed.

Lemma matchSplice_ctx ps idxOoo sub depth (r0 : bool) (s1 : St) r (s2 : St) :
  matchSplice equal ps idxOoo sub depth (r0, s1) = (r, s2) ->
  ctxGrows (match ps !! idxOoo with Some q => nbPush q | None => 0%nat end)
    s1 s2.
Proof.
  unfold matchSplice. destruct s1 as [h c].
  destruct (ps !! idxOoo) as [q|];
    [destruct q|]; try (intros [= <- <-]; apply ctxGrows_refl).
  simpl. destruct r0.
  - intros Hm. exists [sub].
    pose proof (matchPattern_OooBinder_ctx id sub true depth
                  (h, emplace_back c sub)) as Hc.
    rewrite Hm in Hc. simpl in Hc. split; [exact Hc|simpl; lia].
  - intros [= <- <-]. exists [sub]. split; [reflexivity|simpl; lia].
Qed.

Section DsContext.
Variable mp : Pattern -> Val -> bool -> St -> bool * St.
Variable ps : list Pattern.
Hypothesis children : pushSpec mp ps.

Lemma ds_three_phases (s s1 s2 s3 : St) k m :
  nbOooOrBinderV ps = 1%nat -> k = findOooIdx ps ->
  ctxGrows (list_sum (map nbPush (take k (drop 0 ps)))) s s1 ->
  ctxGrows (match ps !! k with Some q => nbPush q | None => 0%nat end) s1 s2 ->
  ctxGrows (list_sum (map nbPush (take m (drop (k + 1) ps)))) s2 s3 ->
  ctxGrows (list_sum (map nbPush ps)) s s3.
Proof.
  intros Hnb -> G1 G2 G3. rewrite drop_0 in G1.
  pose proof (sum_around nbPush ps (findOooIdx ps) m (findOooIdx_lt ps Hnb)).
  eapply ctxGrows_trans; [|exact G3|exact H].
  eapply ctxGrows_trans; [exact G1|exact G2|reflexivity].
Qed.

Lemma matchDsTuple_ctx isArray xs lv depth (s : St) r (s' : St) :
  matchDsTuple equal mp isArray xs lv ps depth s = (r, s') ->
  ctxGrows (list_sum (map nbPush ps)) s s'.
Proof.
  unfold matchDsTuple.
  destruct (nbOooOrBinderV ps) as [|[|n]] eqn:Hnb.
  - destruct (length ps =? length xs)%nat.
    + unfold matchPatternMultiple. intros Hm.
      apply (matchElems_ctx mp ps children) in Hm.
      rewrite drop_0, firstn_all in Hm. exact Hm.
    + intros [= <- <-]. apply ctxGrows_refl.
  - destruct (_ && negb isArray).
    { intros [= <- <-]. apply ctxGrows_refl. }
    destruct (matchPatternMultiple mp 0 0 _ xs lv ps s) as [r0 s1] eqn:E1.
    destruct (matchSplice equal ps _ _ depth (r0, s1)) as [r2 s2] eqn:E2.
    apply (matchElems_ctx mp ps children) in E1.
    apply matchSplice_ctx in E2.
    destruct r2.
    + unfold matchPatternMultiple. intros E3.
      apply (matchElems_ctx mp ps children) in E3.
      eapply ds_three_phases; eauto.
    + intros [= <- <-].
      eapply (ds_three_phases s s1 s2 s2 _ 0); eauto.
      apply ctxGrows_refl.
  - intros [= <- <-]. apply ctxGrows_refl.
Qed.

Lemma matchDsRange_ctx xs depth (s : St) r (s' : St) :
  matchDsRange equal mp xs ps depth s = (r, s') ->
  ctxGrows (list_sum (map nbPush ps)) s s'.
Proof.
  unfold matchDsRange.
  destruct (nbOooOrBinderV ps) as [|[|n]] eqn:Hnb.
  - destruct (negb _).
    + intros [= <- <-]. apply ctxGrows_refl.
    + unfold matchPatternRange. intros Hm.
      apply (matchElems_ctx mp ps children) in Hm.
      rewrite drop_0, firstn_all in Hm. exact Hm.
  - destruct (_ <? _).
    { intros [= <- <-]. apply ctxGrows_refl. }
    destruct (matchPatternRange mp 0 _ xs ps s) as [r0 s1] eqn:E1.
    destruct (matchSplice equal ps _ _ depth (r0, s1)) as [r2 s2] eqn:E2.
    apply (matchElems_ctx mp ps children) in E1.
    apply matchSplice_ctx in E2.
    destruct r2.
    + unfold matchPatternRange. intros E3.
      apply (matchElems_ctx mp ps children) in E3.
      eapply ds_three_phases; eauto.
    + intros [= <- <-].
      eapply (ds_three_phases s s1 s2 s2 _ 0); eauto.
      apply ctxGrows_refl.
  - intros [= <- <-]. apply ctxGrows_refl.
Qed.
End DsContext.
End ContextOfMatch.

Section ContextTheorem.
Variable equal : Val -> Val -> bool.

Lemma matchPattern_ctx_of_impl q :
  (forall v lv depth (s : St),
     ctxGrows (nbPush q) s (snd (matchPatternImpl equal q v lv depth s))) ->
  forall v lv depth (s : St),
    ctxGrows (nbPush q) s (snd (matchPattern equal q v lv depth s)).
Proof.
  intros IH v lv depth s. specialize (IH v lv depth s).
  unfold matchPattern, ctxGrows in *. rewrite afterMatch_ctx. exact IH.
Qed.

Lemma children_push ps depth :
  Forall (fun q => forall v lv depth (s : St),
            ctxGrows (nbPush q) s
              (snd (matchPatternImpl equal q v lv depth s))) ps ->
  pushSpec (matchChild equal depth) ps.
Proof.
  intros IH q Hin x lvx s r s' Hm. rewrite Forall_forall in IH.
  pose proof (matchPattern_ctx_of_impl q (IH q Hin) x lvx (add32 depth 1) s)
    as G.
  unfold matchChild in Hm. rewrite Hm in G. exact G.
Qed.

Lemma matchPatternImpl_ctx p :
  forall v lv depth (s : St),
    ctxGrows (nbPush p) s (snd (matchPatternImpl equal p v lv depth s)).
Proof.
  induction p as [c| |ps IH|pred|unary byRef q IH|ps IH|q IH|id
                  |ps IH| |id|q pred IH] using Pattern_ind';
    intros v lv depth s; rewrite matchPatternImpl_eq; cbv beta iota zeta;
    try apply ctxGrows_refl.
  - destruct (matchOr _ ps v lv s) as [r s'] eqn:E.
    exact (matchOr_ctx _ ps (children_push ps depth IH) _ _ _ _ _ E).
  - pose proof (matchPattern_ctx_of_impl q IH) as Hq. unfold matchChild.
    destruct (byRef || is_scalar (unary (fst s) v)) eqn:Eb.
    + eapply ctxGrows_mono; [apply Hq|simpl; lia].
    + apply orb_false_iff in Eb. destruct Eb as [-> _].
      eapply (ctxGrows_trans 1 (nbPush q)); [|apply Hq|simpl; lia].
      exists [unary (fst s) v]. split; [reflexivity|simpl; lia].
  - destruct (matchAnd _ ps v _ s) as [r s'] eqn:E.
    exact (matchAnd_ctx _ ps (children_push ps depth IH) _ _ _ _ _ E).
  - pose proof (matchPattern_ctx_of_impl q IH v lv (add32 depth 1) s) as Hq.
    unfold matchChild.
    destruct (matchPattern equal q v lv (add32 depth 1) s) as [r s1].
    exact Hq.
  - destruct s as [h c]. destruct (Id.matchValue equal h id v lv).
    exists []. simpl. rewrite app_nil_r. split; [reflexivity|lia].
  - pose proof (children_push ps depth IH) as Hc.
    destruct v as [n|xs|xs|xs]; simpl nbPush.
    + apply ctxGrows_refl.
    + destruct (matchDsTuple _ _ false xs lv ps depth s) as [r s'] eqn:E.
      exact (matchDsTuple_ctx equal _ ps Hc _ _ _ _ _ _ _ E).
    + destruct (matchDsTuple _ _ true xs lv ps depth s) as [r s'] eqn:E.
      exact (matchDsTuple_ctx equal _ ps Hc _ _ _ _ _ _ _ E).
    + destruct (matchDsRange _ _ xs ps depth s) as [r s'] eqn:E.
      exact (matchDsRange_ctx equal _ ps Hc _ _ _ _ _ E).
  - unfold matchPattern_Id. unfold ctxGrows. rewrite afterMatch_ctx.
    destruct s as [h c]. destruct (Id.matchValue equal h id v lv).
    exists []. simpl. rewrite app_nil_r. split; [reflexivity|lia].
  - pose proof (matchPattern_ctx_of_impl q IH v lv (add32 depth 1) s) as Hq.
    unfold matchChild.
    destruct (matchPattern equal q v lv (add32 depth 1) s) as [r s1].
    exact Hq.
Qed.

(** The context is append-only: a call of [matchPattern] keeps the elements
    it found, in place, and appends one element at most for each [App] of
    the pattern whose result goes through the context and for each binding
    splice, whatever the value and the outcome. *)
Theorem context_append_only (p : Pattern) (v : Val) (lv : bool) (depth : Z)
    (s : St) :
  exists ext : list Val,
    snd (snd (matchPattern equal p v lv depth s)) = snd s ++ ext /\
    (length ext <= nbPush p)%nat.
Proof.
  exact (matchPattern_ctx_of_impl p (matchPatternImpl_ctx p) v lv depth s).
Qed.
End ContextTheorem.

(** ** Type lists *)

Section TypeListFacts.
Context {A : Type} `{EqDecision A}.

Lemma WithinTypes_spec (T : A) (Ts : list A) :
  WithinTypes T Ts = true <-> T ∈ Ts.
Proof.
  unfold WithinTypes. induction Ts as [|U Ts IH]; simpl.
  - split; [discriminate|intros H; apply elem_of_nil in H; destruct H].
  - rewrite orb_true_iff, IH, elem_of_cons, bool_decide_eq_true. reflexivity.
Qed.

Lemma PrependUnique_elem (T U : A) (Ts : list A) :
  U ∈ PrependUnique T Ts <-> U = T \/ U ∈ Ts.
Proof.
  unfold PrependUnique. destruct (WithinTypes T Ts) eqn:E; simpl.
  - apply WithinTypes_spec in E. split; [auto|]. intros [->|H]; auto.
  - apply elem_of_cons.
Qed.

Lemma Unique_of_NoDup (Ts : list A) : NoDup Ts -> Unique Ts = Ts.
Proof.
  induction 1 as [|T Ts Hn _ IH]; simpl; [reflexivity|].
  rewrite IH. unfold PrependUnique.
  destruct (WithinTypes T Ts) eqn:E; [|reflexivity].
  apply WithinTypes_spec in E. contradiction.
Qed.

Lemma Unique_elem (T : A) (Ts : list A) : T ∈ Unique Ts <-> T ∈ Ts.
Proof.
  induction Ts as [|U Ts IH]; simpl; [reflexivity|].
  rewrite PrependUnique_elem, IH, elem_of_cons. reflexivity.
Qed.

Lemma PrependUnique_in (T : A) (Ts : list A) :
  T ∈ Ts -> PrependUnique T Ts = Ts.
Proof.
  intros Hin. apply WithinTypes_spec in Hin.
  unfold PrependUnique. rewrite Hin. reflexivity.
Qed.

Lemma PrependUnique_notin (T : A) (Ts : list A) :
  T ∉ Ts -> PrependUnique T Ts = T :: Ts.
Proof.
  intros Hn. unfold PrependUnique.
  destruct (WithinTypes T Ts) eqn:E; [|reflexivity].
  apply WithinTypes_spec in E. contradiction.
Qed.

(** [Unique] of a concatenation: of the types of the first part, those
    that do not come again in the second, then the types of the second. *)
Lemma Unique_app (l1 l2 : list A) :
  Unique (l1 ++ l2) = filter (fun U => U ∉ l2) (Unique l1) ++ Unique l2.
Proof.
  induction l1 as [|a l1 IH]; [reflexivity|].
  simpl. destruct (decide (a ∈ l1)) as [H1|H1].
  - rewrite (PrependUnique_in a (Unique l1)) by (apply Unique_elem, H1).
    rewrite PrependUnique_in; [exact IH|].
    apply Unique_elem, elem_of_app. left. exact H1.
  - rewrite (PrependUnique_notin a (Unique l1))
      by (rewrite Unique_elem; exact H1).
    destruct (decide (a ∈ l2)) as [H2|H2].
    + rewrite PrependUnique_in
        by (apply Unique_elem, elem_of_app; right; exact H2).
      rewrite filter_cons_False by (intros Hn; exact (Hn H2)).
      exact IH.
    + rewrite PrependUnique_notin.
      * rewrite filter_cons_True by exact H2. rewrite IH. reflexivity.
      * rewrite Unique_elem, elem_of_app. intros [H|H]; contradiction.
Qed.

(** [Unique] gives a list without repetition of exactly the types of its
    argument, which is what makes [std::get<T>] on the variant of the
    context unambiguous. Each type is kept at its last occurrence: around
    the last occurrence of [T], the result is made of the types before it
    that do not come again, then [T], then the result for the types after
    it. So the result is a sublist of the argument; it is neither longer
    than its argument nor changed by a second application. *)
Theorem Unique_spec (Ts : list A) :
  NoDup (Unique Ts) /\
  (forall T, T ∈ Unique Ts <-> T ∈ Ts) /\
  (forall l1 T l2, Ts = l1 ++ T :: l2 -> T ∉ l2 ->
     Unique Ts =
     filter (fun U => U ∉ T :: l2) (Unique l1) ++ T :: Unique l2) /\
  sublist (Unique Ts) Ts /\
  (length (Unique Ts) <= length Ts)%nat /\
  Unique (Unique Ts) = Unique Ts.
Proof.
  assert (Hnd : NoDup (Unique Ts) /\ sublist (Unique Ts) Ts).
  { induction Ts as [|T Ts (IHn & IHs)]; simpl.
    - split; constructor.
    - split.
      + unfold PrependUnique. destruct (WithinTypes T (Unique Ts)) eqn:E;
          simpl; [exact IHn|].
        constructor; [|exact IHn]. intros Hin.
        apply WithinTypes_spec in Hin. congruence.
      + unfold PrependUnique. destruct (WithinTypes T (Unique Ts)); simpl.
        * apply sublist_cons, IHs.
        * apply sublist_skip, IHs. }
  destruct Hnd as (Hn & Hs).
  split; [exact Hn|]. split; [intros T; apply Unique_elem|].
  split.
  { intros l1 T l2 -> Hlast. rewrite Unique_app. simpl.
    rewrite PrependUnique_notin by (rewrite Unique_elem; exact Hlast).
    reflexivity. }
  split; [exact Hs|].
  split; [apply sublist_length, Hs|apply Unique_of_NoDup, Hn].
Qed.
End TypeListFacts.

(** ** Well-formed heaps *)

Lemma wfHeap_heapMap f (h : list BlockVT) : wfHeap h -> wfHeap (heapMap f h).
Proof.
  intros Hwf a p. rewrite heapMap_lookup.
  destruct (h !! a) as [[b|q]|] eqn:Ea; try discriminate.
  intros [= ->]. destruct (Hwf a p Ea) as [b Hb].
  exists (f p b). rewrite heapMap_lookup, Hb. reflexivity.
Qed.

Lemma Eff_wfHeap (Rel : Block -> Block -> Prop) cs (h h' : list BlockVT) :
  Eff Rel cs h h' -> wfHeap h -> wfHeap h'.
Proof.
  intros E Hwf a p Ha. pose proof (E a) as Ea.
  destruct (h !! a) as [[b|q]|] eqn:Eha.
  - destruct Ea as (b' & Hb' & _). congruence.
  - rewrite Ha in Ea. injection Ea as ->.
    destruct (Hwf a q Eha) as [b Hb]. pose proof (E q) as Eq.
    rewrite Hb in Eq. destruct Eq as (b' & Hb' & _). eauto.
  - congruence.
Qed.

(** Every block pointer designates an owned block, and stays so: creating
    an [Id], copying an existing one, processing the identifiers of a
    pattern and matching a pattern all keep the heap well formed. *)
Theorem wfHeap_kept (equal : Val -> Val -> bool) (h : list BlockVT) :
  wfHeap h ->
  wfHeap (fst (Id.new h)) /\
  (forall x, (x < length h)%nat -> wfHeap (fst (Id.copy h x))) /\
  (forall p depth proc, wfHeap (processId p depth proc h)) /\
  (forall p v lv depth c,
     depthOk depth p ->
     wfHeap (fst (snd (matchPattern equal p v lv depth (h, c))))).
Proof.
  intros Hwf. split; [|split; [|split]].
  - intros a p Ha. unfold Id.new in Ha. simpl in Ha.
    destruct (decide (a < length h)%nat) as [Hlt|Hge].
    + rewrite lookup_app_l in Ha by exact Hlt.
      destruct (Hwf a p Ha) as [b Hb]. exists b. simpl.
      rewrite lookup_app_l; [exact Hb|]. apply lookup_lt_is_Some. eauto.
    + rewrite lookup_app_r in Ha by lia.
      destruct (a - length h)%nat; simpl in Ha; discriminate.
  - intros x Hx a p Ha. unfold Id.copy in *. simpl in *.
    assert (Hold : forall p', (exists b, h !! p' = Some (ownBlock b)) ->
              exists b, (h ++ [ptrBlock (Id.owner h x)]) !! p'
                        = Some (ownBlock b)).
    { intros p' [b Hb]. exists b. rewrite lookup_app_l; [exact Hb|].
      apply lookup_lt_is_Some. eauto. }
    destruct (decide (a < length h)%nat) as [Hlt|Hge].
    + rewrite lookup_app_l in Ha by exact Hlt. apply Hold, (Hwf a p Ha).
    + rewrite lookup_app_r in Ha by lia.
      destruct (a - length h)%nat as [|n]; simpl in Ha; [|discriminate].
      injection Ha as <-. apply Hold.
      destruct (wfHeap_owner h x Hwf Hx) as (b & Hb & _). eauto.
  - intros p depth proc. rewrite processId_processAll.
    apply wfHeap_heapMap, Hwf.
  - intros p v lv depth c Hd.
    destruct (matchPattern equal p v lv depth (h, c)) as [r s'] eqn:E.
    eapply Eff_wfHeap; [|exact Hwf].
    exact (matchPattern_eff equal _ _ _ _ _ _ _ Hd E).
Qed.

Lemma wfHeap_kept_witness :
  wfHeap (fst (Id.copy (fst (Id.new [])) 0)).
Proof.
  assert (Hnil : wfHeap []) by (intros a p Ha; discriminate).
  refine (proj1 (proj2 (wfHeap_kept IdTraits_equal (fst (Id.new [])) _))
            0%nat _).
  - exact (proj1 (wfHeap_kept IdTraits_equal [] Hnil)).
  - simpl. lia.
Defined.

(** ** Binding through identifiers *)

Lemma Val_ind' (P : Val -> Prop) :
  (forall n, P (VInt n)) ->
  (forall xs, Forall P xs -> P (VTuple xs)) ->
  (forall xs, Forall P xs -> P (VArray xs)) ->
  (forall xs, Forall P xs -> P (VRange xs)) ->
  forall v, P v.
Proof.
  intros HI HT HA HR. fix IH 1. intros [n|xs|xs|xs].
  - apply HI.
  - apply HT. induction xs as [|x xs IHxs]; constructor; [apply IH|exact IHxs].
  - apply HA. induction xs as [|x xs IHxs]; constructor; [apply IH|exact IHxs].
  - apply HR. induction xs as [|x xs IHxs]; constructor; [apply IH|exact IHxs].
Qed.

Lemma Val_list_eqb_eq (xs : list Val) :
  Forall (fun a => forall b, Val_eqb a b = true <-> a = b) xs ->
  forall ys,
    (fix list_eqb (xs ys : list Val) {struct xs} : bool :=
       match xs, ys with
       | [], [] => true
       | x :: xs', y :: ys' => Val_eqb x y && list_eqb xs' ys'
       | _, _ => false
       end) xs ys = true <-> xs = ys.
Proof.
  induction 1 as [|x xs Hx _ IH]; intros [|y ys]; simpl;
    try (split; [discriminate|discriminate]); [tauto|].
  rewrite andb_true_iff, Hx, IH. split; [intros [-> ->]|intros [= -> ->]]; auto.
Qed.

(** The host equality of the modelled values is equality. *)
Lemma Val_eqb_eq (a b : Val) : Val_eqb a b = true <-> a = b.
Proof.
  revert b. induction a as [n|xs IH|xs IH|xs IH] using Val_ind';
    intros [m|ys|ys|ys]; simpl; try (split; discriminate).
  - rewrite Z.eqb_eq. split; [intros ->|intros [= ->]]; reflexivity.
  - rewrite (Val_list_eqb_eq xs IH ys). split; [intros ->|intros [= ->]]; auto.
  - rewrite (Val_list_eqb_eq xs IH ys). split; [intros ->|intros [= ->]]; auto.
  - rewrite (Val_list_eqb_eq xs IH ys). split; [intros ->|intros [= ->]]; auto.
Qed.

Lemma setBlock_lookup (h : list BlockVT) id b b' :
  h !! Id.owner h id = Some (ownBlock b) ->
  Id.setBlock h id b' !! Id.owner h id = Some (ownBlock b') /\
  forall id', Id.owner (Id.setBlock h id b') id' = Id.owner h id'.
Proof.
  intros Ho. unfold Id.setBlock. rewrite store_heapMap. split.
  - rewrite heapMap_lookup, Ho.
    destruct (decide _); [reflexivity|congruence].
  - intros id'. apply owner_heapMap.
Qed.

Section IdMatches.
Variable equal : Val -> Val -> bool.

(** [matchPattern] on an empty cell: it binds the value and confirms. *)
Lemma matchPattern_Id_binds (h : list BlockVT) (c : list Val) id b v lv d :
  h !! Id.owner h id = Some (ownBlock b) ->
  mVariant b = monostate ->
  exists h2,
    matchPattern equal (PId id) v lv d (h, c) = (true, (h2, c)) /\
    h2 !! Id.owner h id =
      Some (ownBlock (Block.confirm d
                        (mkBlock (Block.bindValue v lv) (mDepth b)))) /\
    (forall id', Id.owner h2 id' = Id.owner h id').
Proof.
  intros Ho Hm. unfold matchPattern. simpl matchPatternImpl.
  unfold Id.matchValue, Id.hasValue. rewrite (block_owned h id b Ho).
  unfold Block.hasValue. rewrite Hm. simpl.
  unfold Id.confirm.
  set (b1 := mkBlock (Block.bindValue v lv) (mDepth b)).
  destruct (setBlock_lookup h id b b1 Ho) as [Hl1 Ho1].
  assert (Hl1' : Id.setBlock h id b1 !! Id.owner (Id.setBlock h id b1) id
                 = Some (ownBlock b1)) by (rewrite Ho1; exact Hl1).
  rewrite (block_owned _ id b1 Hl1').
  destruct (setBlock_lookup _ id b1 (Block.confirm d b1) Hl1') as [Hl2 Ho2].
  eexists. split; [reflexivity|]. split.
  - rewrite Ho1 in Hl2. exact Hl2.
  - intros id'. rewrite Ho2, Ho1. reflexivity.
Qed.

(** [matchPattern] on a cell that holds a value: the hook decides. *)
Lemma matchPattern_Id_bound (h : list BlockVT) (c : list Val) id stored v lv d :
  Id.value h id = Ok stored ->
  fst (matchPattern equal (PId id) v lv d (h, c)) = equal stored v.
Proof.
  intros Hv. unfold matchPattern. simpl matchPatternImpl.
  unfold Id.matchValue, Id.hasValue. unfold Id.value in Hv.
  unfold Block.hasValue. unfold Block.value in Hv |- *.
  destruct (mVariant (Id.block h id)); try discriminate;
    injection Hv as ->; reflexivity.
Qed.

Lemma value_of_confirmed (h2 : list BlockVT) id o d v lv m :
  Id.owner h2 id = o ->
  h2 !! o = Some (ownBlock (Block.confirm d (mkBlock (Block.bindValue v lv) m))) ->
  Id.value h2 id = Ok v.
Proof.
  intros Ho Hl. unfold Id.value, Id.block, Id.load. rewrite Ho, Hl.
  unfold Block.value. rewrite confirm_variant. simpl.
  destruct lv; reflexivity.
Qed.

Lemma ds_same_id (x : nat) (a b : Val) (lv : bool) (depth : Z)
    (h : list BlockVT) (c : list Val) (blk : Block) :
  h !! Id.owner h x = Some (ownBlock blk) ->
  mVariant blk = monostate ->
  fst (matchPatternImpl equal (PDs [PId x; PId x]) (VTuple [a; b]) lv depth
         (h, c)) = equal a b.
Proof.
  intros Ho Hm. rewrite matchPatternImpl_eq. cbv beta iota zeta.
  unfold matchDsTuple. change (nbOooOrBinderV [PId x; PId x]) with 0%nat.
  unfold matchPatternMultiple, matchChild.
  cbn -[matchPattern add32].
  destruct (matchPattern_Id_binds h c x blk a true (add32 depth 1) Ho Hm)
    as (h2 & -> & Hl & Hown).
  pose proof (value_of_confirmed h2 x _ _ _ _ _ (Hown x) Hl) as Hv.
  pose proof (matchPattern_Id_bound h2 c x a b true (add32 depth 1) Hv) as Hb.
  destruct (matchPattern equal (PId x) b true (add32 depth 1) (h2, c))
    as [r s2]. simpl in Hb. subst r. destruct (equal a b); reflexivity.
Qed.

Lemma and_same_id (x : nat) (a : Val) (lv : bool) (depth : Z)
    (h : list BlockVT) (c : list Val) (blk : Block) :
  h !! Id.owner h x = Some (ownBlock blk) ->
  mVariant blk = monostate ->
  fst (matchPatternImpl equal (PAnd [PId x; PId x]) a lv depth (h, c))
    = equal a a.
Proof.
  intros Ho Hm.
  rewrite matchPatternImpl_eq. cbv beta iota zeta. cbn [matchAnd].
  unfold matchChild.
  destruct (matchPattern_Id_binds h c x blk a true (add32 depth 1) Ho Hm)
    as (h2 & -> & Hl & Hown).
  pose proof (value_of_confirmed h2 x _ _ _ _ _ (Hown x) Hl) as Hv.
  pose proof (matchPattern_Id_bound h2 c x a a
                (if (NbIdInTuple (removelast [PId x; PId x]) =? 0)%nat
                 then lv else true) (add32 depth 1) Hv) as Hb.
  destruct (matchPattern equal (PId x) a _ (add32 depth 1) (h2, c))
    as [r s2]. simpl in Hb. subst r. destruct (equal a a); reflexivity.
Qed.
End IdMatches.

(** One identifier used twice (the idempotent binding of the
    specification): on an empty cell [x], [ds(x, x)] matches a pair exactly
    when the hook [equal] accepts its two components, and [and_(x, x)]
    matches a value exactly when the hook accepts it against itself; with
    the equality the library gives [IdTraits], [ds(x, x)] matches the pairs
    of equal components and no other. *)
Theorem same_identifier_twice (equal : Val -> Val -> bool) (x : nat)
    (a b : Val) (lv : bool) (depth : Z) (h : list BlockVT) (c : list Val)
    (blk : Block) :
  h !! Id.owner h x = Some (ownBlock blk) ->
  mVariant blk = monostate ->
  fst (matchPatternImpl equal (PDs [PId x; PId x]) (VTuple [a; b]) lv depth
         (h, c)) = equal a b /\
  fst (matchPatternImpl equal (PAnd [PId x; PId x]) a lv depth (h, c))
    = equal a a /\
  (fst (matchPatternImpl IdTraits_equal (PDs [PId x; PId x]) (VTuple [a; b])
          lv depth (h, c)) = true <-> a = b).
Proof.
  intros Ho Hm.
  split; [exact (ds_same_id equal x a b lv depth h c blk Ho Hm)|].
  split; [exact (and_same_id equal x a lv depth h c blk Ho Hm)|].
  rewrite (ds_same_id IdTraits_equal x a b lv depth h c blk Ho Hm).
  apply Val_eqb_eq.
Qed.

Lemma same_identifier_twice_witness :
  fst (matchPatternImpl IdTraits_equal (PDs [PId 0; PId 0])
         (VTuple [VInt 4; VInt 5]) true 0 ([ownBlock freshBlock], []))
  = IdTraits_equal (VInt 4) (VInt 5).
Proof.
  exact (proj1 (same_identifier_twice IdTraits_equal 0 (VInt 4) (VInt 5) true
                  0 [ownBlock freshBlock] [] freshBlock eq_refl eq_refl)).
Defined.

(** [Id()] gives an empty cell of its own: a value bound through the new
    [Id] is read back through it, and the block of no [Id] that existed
    before is changed by the binding. *)
Theorem new_is_independent (equal : Val -> Val -> bool) (h : list BlockVT)
    (v : Val) (lv : bool) :
  wfHeap h ->
  let h1 := fst (Id.new h) in
  let y := snd (Id.new h) in
  let h2 := snd (Id.matchValue equal h1 y v lv) in
  Id.hasValue h1 y = false /\
  Id.value h2 y = Ok v /\
  forall id, (id < length h)%nat -> Id.block h2 id = Id.block h id.
Proof.
  intros Hwf h1 y h2.
  assert (Hy : h1 !! y = Some (ownBlock freshBlock)).
  { unfold h1, y, Id.new. simpl. rewrite lookup_app_r by lia.
    rewrite Nat.sub_diag. reflexivity. }
  assert (Hoy : Id.owner h1 y = y) by (unfold Id.owner; rewrite Hy; reflexivity).
  assert (Hoy' : h1 !! Id.owner h1 y = Some (ownBlock freshBlock))
    by (rewrite Hoy; exact Hy).
  assert (Hempty : Id.hasValue h1 y = false).
  { unfold Id.hasValue. rewrite (block_owned h1 y _ Hoy'). reflexivity. }
  assert (Hh2 : h2 = Id.setBlock h1 y
                       (mkBlock (Block.bindValue v lv) (mDepth (Id.block h1 y)))).
  { unfold h2, Id.matchValue. rewrite Hempty. reflexivity. }
  split; [exact Hempty|]. split.
  - rewrite Hh2. unfold Id.value. rewrite (block_setBlock h1 y _ _ Hoy').
    unfold Block.value, Block.bindValue. destruct lv; reflexivity.
  - intros id Hid.
    destruct (wfHeap_owner h id Hwf Hid) as (b & Hb & Hlt).
    assert (Ho1 : Id.owner h1 id = Id.owner h id).
    { unfold h1, Id.new, Id.owner. simpl.
      rewrite lookup_app_l by exact Hid. reflexivity. }
    rewrite Hh2. unfold Id.block at 1.
    rewrite (proj2 (setBlock_lookup h1 y _ _ Hoy') id), Ho1.
    unfold Id.setBlock. rewrite store_heapMap, load_heapMap.
    assert (Hb1 : h1 !! Id.owner h id = Some (ownBlock b)).
    { unfold h1, Id.new. simpl. rewrite lookup_app_l by exact Hlt. exact Hb. }
    rewrite Hb1. rewrite Hoy.
    destruct (decide (Id.owner h id = y)) as [Heq|_].
    + unfold y, Id.new in Heq. simpl in Heq. lia.
    + symmetry. apply block_owned, Hb.
Qed.

Lemma new_is_independent_witness :
  Id.value
    (snd (Id.matchValue IdTraits_equal (fst (Id.new [ownBlock freshBlock]))
            (snd (Id.new [ownBlock freshBlock])) (VInt 5) false))
    (snd (Id.new [ownBlock freshBlock])) = Ok (VInt 5).
Proof.
  refine (proj1 (proj2 (new_is_independent IdTraits_equal
                          [ownBlock freshBlock] (VInt 5) false _))).
  intros a p Ha. destruct a as [|a]; simpl in Ha; discriminate.
Defined.

Section IdAt.
Variable equal : Val -> Val -> bool.

(** [cell.at(pattern)]: when the cell is empty and [pattern] does not
    refer to it, matching [cell.at(pattern)] against a value succeeds
    exactly when [pattern] matches it, and the cell then holds the whole
    value. *)
Theorem at_binds_whole_value (h : list BlockVT) (x : nat) (p : Pattern)
    (v : Val) (lv : bool) (depth : Z) (c : list Val) :
  let h1 := fst (Id_at h x p) in
  let q := snd (Id_at h x p) in
  let r := matchPattern equal q v lv depth (h1, c) in
  wfHeap h -> (x < length h)%nat ->
  depthOk depth q ->
  Id.hasValue h x = false ->
  Id.owner h x ∉ cellsOf h1 p ->
  fst r = fst (matchChild equal depth p v true (h1, c)) /\
  (fst r = true -> Id.value (fst (snd r)) x = Ok v).
Proof.
  intros h1 q r Hwf Hx Hd Hempty Hfree.
  set (o := Id.owner h x) in *.
  set (y := length h).
  assert (Hq : q = PAnd [p; PId y]) by reflexivity.
  assert (Hh1 : h1 = h ++ [ptrBlock o]) by reflexivity.
  destruct (wfHeap_owner h x Hwf Hx) as (b & Hb & Hob). fold o in Hb, Hob.
  assert (Hb1 : h1 !! o = Some (ownBlock b))
    by (rewrite Hh1, lookup_app_l by exact Hob; exact Hb).
  assert (Hm : mVariant b = monostate).
  { unfold Id.hasValue in Hempty. rewrite (block_owned h x b Hb) in Hempty.
    unfold Block.hasValue in Hempty. destruct (mVariant b); congruence. }
  assert (Hoy : Id.owner h1 y = o).
  { rewrite Hh1. unfold Id.owner at 1. rewrite lookup_app_r by (unfold y; lia).
    unfold y. rewrite Nat.sub_diag. reflexivity. }
  assert (Hox : Id.owner h1 x = o).
  { rewrite Hh1. unfold Id.owner at 1. rewrite lookup_app_l by exact Hx.
    reflexivity. }
  destruct Hd as [H0 Hmax]. rewrite Hq in Hmax. simpl height in Hmax.
  pose proof (height_nonneg p) as Hhp.
  unfold r. rewrite Hq. unfold matchPattern.
  rewrite matchPatternImpl_eq. cbv beta iota zeta. cbn [matchAnd].
  destruct (matchChild equal depth p v true (h1, c)) as [r1 [hp cp]] eqn:Ep.
  assert (Hdp : depthOk (depth + 1) p) by (split; lia).
  assert (Ep' : matchPattern equal p v true (depth + 1) (h1, c)
                = (r1, (hp, cp))).
  { unfold matchChild in Ep. rewrite add32_succ in Ep by lia. exact Ep. }
  pose proof (matchPattern_eff equal _ _ _ _ _ _ _ Hdp Ep') as E.
  simpl fst in E.
  destruct r1; [|split; [reflexivity|discriminate]].
  assert (Hbp : hp !! o = Some (ownBlock b)).
  { specialize (E o). rewrite Hb1 in E.
    destruct E as (b' & Hb' & _ & F). rewrite (F Hfree) in Hb'. exact Hb'. }
  assert (Hop : forall id, Id.owner hp id = Id.owner h1 id)
    by (intros id; eapply Eff_owner, E).
  assert (Hbp' : hp !! Id.owner hp y = Some (ownBlock b))
    by (rewrite Hop, Hoy; exact Hbp).
  unfold matchChild.
  destruct (matchPattern_Id_binds equal hp cp y b v
              (if (NbIdInTuple (removelast [p; PId y]) =? 0)%nat
               then lv else true) (add32 depth 1) Hbp' Hm)
    as (h2 & -> & Hl & Hown).
  unfold afterMatch. cbn [fst snd]. split; [reflexivity|]. intros _.
  rewrite processId_processAll.
  unfold Id.value, Id.block, processAll.
  rewrite owner_heapMap, load_heapMap, Hown, Hop, Hox.
  rewrite Hop, Hoy in Hl. rewrite Hl.
  unfold Block.value.
  destruct (decide _); cbn [processBlock]; rewrite ?confirm_variant;
    cbn [mVariant]; unfold Block.bindValue;
    destruct (if (NbIdInTuple (removelast [p; PId y]) =? 0)%nat
              then lv else true); reflexivity.
Qed.
End IdAt.

Lemma at_binds_whole_value_witness :
  Id.value
    (fst (snd (matchPattern IdTraits_equal
                 (snd (Id_at [ownBlock freshBlock] 0 (PLit (VInt 3))))
                 (VInt 3) true 0
                 (fst (Id_at [ownBlock freshBlock] 0 (PLit (VInt 3))), []))))
    0 = Ok (VInt 3).
Proof.
  refine (proj2 (at_binds_whole_value IdTraits_equal [ownBlock freshBlock] 0
                   (PLit (VInt 3)) (VInt 3) true 0 [] _ _ _ _ _) _).
  - intros a p Ha. destruct a as [|a]; simpl in Ha; discriminate.
  - simpl. lia.
  - unfold depthOk, max32. simpl. lia.
  - reflexivity.
  - simpl. apply not_elem_of_nil.
  - reflexivity.
Defined.

(** The [static_assert]s of the source on these functions, on the model. *)
Example source_static_asserts :
  @Unique string String.string_dec ["int32_t"; "int32_t"]%string
    = ["int32_t"]%string /\
  @Unique string String.string_dec
    ["int32_t"; "std::tuple<>"; "int32_t"]%string
    = ["std::tuple<>"; "int32_t"]%string /\
  nbOooOrBinderV [PLit (VInt 0); POoo; PLit (VInt 0); PWildcard; POoo] = 2%nat
  /\
  findOooIdx [PLit (VInt 0); POooBinder 0; PLit (VInt 0)] = 1%nat /\
  findOooIdx [PLit (VInt 0); POoo; PLit (VInt 0)] = 1%nat /\
  nbIdV (PAnd [PApp (fun _ t => t) false PWildcard]) = 0%nat /\
  nbIdV (PAnd [PApp (fun _ t => t) false (PId 0)]) = 1%nat /\
  nbIdV (PAnd [PId 0; PId 1]) = 2%nat /\
  nbIdV (POr [PId 0; PId 1]) = 2%nat /\
  nbIdV (POr [PWildcard; PLit (VInt 0)]) = 0%nat.
Proof. repeat split. Qed.

(** ** What a binding splice captures *)

Lemma childrenSpec_subset mp Rel (ps qs : list Pattern) :
  qs ⊆ ps -> childrenSpec mp Rel ps -> childrenSpec mp Rel qs.
Proof. intros Hsub H q Hin. apply H, Hsub, Hin. Qed.

(** [matchElems] touches the cells of the patterns it matches only. *)
Lemma matchElems_eff_slice mp (Rel : Block -> Block -> Prop) ps :
  (forall b, Rel b b) ->
  (forall b1 b2 b3, Rel b1 b2 -> Rel b2 b3 -> Rel b1 b3) ->
  childrenSpec mp Rel ps ->
  forall skip size elem I0 lv (s : St) r (s' : St),
    matchElems mp ps skip size elem I0 lv s = (r, s') ->
    Eff Rel (concat (map (cellsOf (fst s)) (take size (drop skip ps))))
      (fst s) (fst s').
Proof.
  intros Hrefl Htrans.
  induction ps as [|q qs IH]; intros Hsp skip size elem I0 lv s r s'; simpl.
  - intros [= <- <-]. apply Eff_refl, Hrefl.
  - destruct skip as [|k].
    + destruct size as [|sz].
      { intros [= <- <-]. apply Eff_refl, Hrefl. }
      destruct (elem I0) as [x|].
      2: { intros [= <- <-]. apply Eff_refl, Hrefl. }
      assert (Hsp' : childrenSpec mp Rel (q :: take sz qs)).
      { eapply childrenSpec_subset; [|exact Hsp].
        intros a Ha. apply elem_of_cons in Ha. destruct Ha as [->|Ha];
          [left|right; exact (subseteq_take sz qs a Ha)]. }
      destruct (mp q x lv s) as [r1 s1] eqn:Hq. destruct r1.
      * intros Hrest.
        specialize (IH (childrenSpec_tail mp Rel _ _ Hsp) 0%nat sz elem
                      (S I0) lv s1 r s' Hrest).
        rewrite drop_0 in IH.
        eapply (child_then_rest mp Rel); eauto.
      * intros [= <- <-].
        eapply (child_only mp Rel); eauto.
    + intros Hrest. simpl.
      exact (IH (childrenSpec_tail mp Rel _ _ Hsp) k size elem I0 lv s r s'
               Hrest).
Qed.

Lemma holds_frame (Rel : Block -> Block -> Prop) cs (h h' : list BlockVT) o v :
  Eff Rel cs h h' -> o ∉ cs -> holds h o v -> holds h' o v.
Proof.
  intros E Hn (bb & Hb & Hv). specialize (E o). rewrite Hb in E.
  destruct E as (b' & Hb' & _ & F). rewrite (F Hn) in Hb'. exists bb. auto.
Qed.

Lemma holds_confirm cs depth (h : list BlockVT) o v :
  holds h o v -> holds (processAll cs kCONFIRM depth h) o v.
Proof.
  intros (bb & Hb & Hv). unfold processAll, holds.
  rewrite heapMap_lookup, Hb. eexists. split; [reflexivity|].
  destruct (decide (o ∈ cs)); [|exact Hv].
  simpl. unfold Block.value in *. rewrite confirm_variant. exact Hv.
Qed.

Lemma holds_value (h : list BlockVT) id o v :
  Id.owner h id = o -> holds h o v -> Id.value h id = Ok v.
Proof.
  intros Ho (bb & Hb & Hv). unfold Id.value, Id.block, Id.load.
  rewrite Ho, Hb. exact Hv.
Qed.

Lemma elem_concat_map (f : Pattern -> list nat) (l : list Pattern) (o : nat) :
  o ∈ concat (map f l) -> exists q, q ∈ l /\ o ∈ f q.
Proof.
  induction l as [|q l IH]; simpl; intros Hin.
  - apply elem_of_nil in Hin. destruct Hin.
  - apply elem_of_app in Hin. destruct Hin as [Hin|Hin].
    + exists q. split; [left|exact Hin].
    + destruct (IH Hin) as (q' & Hq' & Ho). exists q'. split; [right|]; auto.
Qed.

Lemma slice_cells_free (h : list BlockVT) (ps : list Pattern) o skip size k :
  (forall j q, ps !! j = Some q -> j <> k -> o ∉ cellsOf h q) ->
  (skip + size <= k \/ k < skip)%nat ->
  o ∉ concat (map (cellsOf h) (take size (drop skip ps))).
Proof.
  intros Hfree Hk Hin. apply elem_concat_map in Hin.
  destruct Hin as (q & Hq & Ho). apply list_elem_of_lookup in Hq.
  destruct Hq as [i Hi]. rewrite lookup_take_Some in Hi.
  destruct Hi as [Hi Hlt]. rewrite lookup_drop in Hi.
  apply (Hfree (skip + i)%nat q Hi); [lia|exact Ho].
Qed.

Lemma cellsOf_same_owners (h h' : list BlockVT) q :
  (forall id, Id.owner h' id = Id.owner h id) -> cellsOf h' q = cellsOf h q.
Proof. intros Ho. unfold cellsOf. apply map_ext. intros id. apply Ho. Qed.

Section BindingSplice.
Variable equal : Val -> Val -> bool.

Lemma all_children_eff ps depth :
  0 <= depth -> depth + height (PDs ps) <= max32 ->
  childrenSpec (matchChild equal depth) (Touch depth (depth + height (PDs ps)))
    ps.
Proof.
  intros H0 Hmax. simpl height in *.
  apply children_eff; [|exact H0|lia|lia].
  apply Forall_forall. intros q _. apply matchPatternImpl_eff.
Qed.

Lemma OooBinder_binds (h : list BlockVT) (c : list Val) id b v depth :
  h !! Id.owner h id = Some (ownBlock b) ->
  mVariant b = monostate ->
  exists h2,
    matchPattern_OooBinder equal id v true depth (h, c) = (true, (h2, c)) /\
    holds h2 (Id.owner h id) v /\
    (forall id', Id.owner h2 id' = Id.owner h id').
Proof.
  intros Ho Hm. unfold matchPattern_OooBinder.
  change (matchPattern_Id equal id v true (add32 depth 1) (h, c))
    with (matchPattern equal (PId id) v true (add32 depth 1) (h, c)).
  destruct (matchPattern_Id_binds equal h c id b v true (add32 depth 1) Ho Hm)
    as (h2 & -> & Hl & Hown).
  unfold afterMatch. rewrite processId_processAll.
  eexists. split; [reflexivity|]. split.
  - apply holds_confirm. exists (Block.confirm (add32 depth 1)
      (mkBlock (Block.bindValue v true) (mDepth b))).
    split; [exact Hl|]. unfold Block.value. rewrite confirm_variant.
    reflexivity.
  - intros id'. unfold processAll. rewrite owner_heapMap. apply Hown.
Qed.

(** A binding splice captures its subrange. When a [Ds] with the binding
    splice [ooo(tail)] at index [k] among its [n] sub-patterns matches a
    range of [L] elements, [tail] being empty before and referenced by no
    other sub-pattern, then [L >= n - 1] and [tail] holds the subrange of
    the [L - (n - 1)] elements from index [k] on. *)
Theorem binding_splice_captures (ps : list Pattern) (xs : list Val)
    (lv : bool) (depth : Z) (s s' : St) (tail : nat) (b : Block) :
  nbOooOrBinderV ps = 1%nat ->
  ps !! findOooIdx ps = Some (POooBinder tail) ->
  Z.of_nat (length xs) < 2 ^ 63 -> Z.of_nat (length ps) < 2 ^ 63 ->
  depthOk depth (PDs ps) ->
  fst s !! Id.owner (fst s) tail = Some (ownBlock b) ->
  mVariant b = monostate ->
  (forall j q, ps !! j = Some q -> j <> findOooIdx ps ->
     Id.owner (fst s) tail ∉ cellsOf (fst s) q) ->
  matchPattern equal (PDs ps) (VRange xs) lv depth s = (true, s') ->
  (length ps - 1 <= length xs)%nat /\
  Id.value (fst s') tail =
  Ok (VRange (take (length xs - (length ps - 1)) (drop (findOooIdx ps) xs))).
Proof.
  intros Hnb Hk HL Hn [H0 Hmax] Hb Hm Hfree.
  pose proof (all_children_eff ps depth H0 Hmax) as Hc.
  pose proof (findOooIdx_lt ps Hnb) as Hklt.
  pose proof (foldr_max_lower (map height ps)) as Hfold.
  simpl height in Hmax.
  set (k := findOooIdx ps) in *. set (n := length ps) in *.
  set (L := length xs) in *. set (o := Id.owner (fst s) tail) in *.
  set (Rel := Touch depth (depth + height (PDs ps))) in *.
  assert (Hrefl : forall b0, Rel b0 b0) by (intros; apply Touch_refl).
  assert (Htrans : forall b1 b2 b3, Rel b1 b2 -> Rel b2 b3 -> Rel b1 b3)
    by (intros b1 b2 b3; apply Touch_trans).
  unfold matchPattern. rewrite matchPatternImpl_eq. cbv beta iota zeta.
  unfold matchDsRange. rewrite Hnb. fold n L k.
  rewrite (wrap_size_t_id (Z.of_nat n - 1)) by lia.
  destruct (Z.of_nat L <? Z.of_nat n - 1) eqn:E.
  { destruct s as [h c]. simpl. discriminate. }
  apply Z.ltb_ge in E.
  rewrite (wrap_size_t_id (Z.of_nat L - (Z.of_nat n - 1))) by lia.
  rewrite (to_long_id (Z.of_nat L - (Z.of_nat n - 1))) by lia.
  replace (Z.to_nat (Z.of_nat L - (Z.of_nat n - 1))) with (L - (n - 1))%nat
    by lia.
  set (sub := VRange (take (L - (n - 1)) (drop k xs))).
  unfold matchSplice. rewrite Hk.
  destruct (matchPatternRange (matchChild equal depth) 0 k xs ps s)
    as [r0 [h1 c1]] eqn:E1.
  pose proof (matchElems_eff_slice _ Rel ps Hrefl Htrans Hc _ _ _ _ _ _ _ _ E1)
    as Eff1.
  simpl fst in Eff1.
  assert (Hfree1 : o ∉ concat (map (cellsOf (fst s)) (take k (drop 0 ps))))
    by (apply (slice_cells_free _ ps o 0 k k Hfree); lia).
  assert (Hb1 : h1 !! o = Some (ownBlock b)).
  { pose proof (Eff1 o) as Eo. rewrite Hb in Eo.
    destruct Eo as (b' & Hb' & _ & F). rewrite (F Hfree1) in Hb'. exact Hb'. }
  assert (Ho1 : forall id, Id.owner h1 id = Id.owner (fst s) id)
    by (intros id; eapply Eff_owner, Eff1).
  destruct r0.
  2: { simpl. discriminate. }
  assert (Hb1' : h1 !! Id.owner h1 tail = Some (ownBlock b))
    by (rewrite Ho1; exact Hb1).
  destruct (OooBinder_binds h1 (emplace_back c1 sub) tail b sub depth Hb1' Hm)
    as (h2 & -> & Hh2 & Ho2).
  rewrite Ho1 in Hh2. fold o in Hh2.
  destruct (matchPatternRange (matchChild equal depth) (k + 1) (n - k - 1)
              _ ps (h2, emplace_back c1 sub)) as [r3 [h3 c3]] eqn:E3.
  pose proof (matchElems_eff_slice _ Rel ps Hrefl Htrans Hc _ _ _ _ _ _ _ _ E3)
    as Eff3.
  simpl fst in Eff3.
  assert (Ho2s : forall id, Id.owner h2 id = Id.owner (fst s) id)
    by (intros id; rewrite Ho2; apply Ho1).
  assert (Hfree3 : o ∉ concat (map (cellsOf h2)
                                 (take (n - k - 1) (drop (k + 1) ps)))).
  { apply (slice_cells_free _ ps o (k + 1) (n - k - 1) k); [|lia].
    intros j q Hj Hne. rewrite (cellsOf_same_owners (fst s) h2 q Ho2s).
    apply (Hfree j q Hj Hne). }
  pose proof (holds_frame _ _ _ _ _ _ Eff3 Hfree3 Hh2) as Hh3.
  assert (Ho3 : forall id, Id.owner h3 id = Id.owner (fst s) id).
  { intros id. rewrite (Eff_owner _ _ _ _ id Eff3). apply Ho2s. }
  unfold afterMatch. intros [= -> <-].
  split; [lia|]. cbn [fst].
  change (Id.value (processId (PDs ps) depth kCONFIRM h3) tail = Ok sub).
  rewrite processId_processAll.
  apply (holds_value _ tail o).
  - unfold processAll. rewrite owner_heapMap. apply Ho3.
  - apply holds_confirm. exact Hh3.
Qed.
End BindingSplice.

Lemma binding_splice_captures_witness :
  Id.value
    (fst (snd (matchPattern IdTraits_equal
                 (PDs [PLit (VInt 10); POooBinder 0; PLit (VInt 50)])
                 (VRange (map VInt [10; 20; 30; 40; 50])) true 0
                 ([ownBlock freshBlock], [])))) 0
  = Ok (VRange (map VInt [20; 30; 40])).
Proof.
  refine (proj2 (binding_splice_captures IdTraits_equal
                   [PLit (VInt 10); POooBinder 0; PLit (VInt 50)]
                   (map VInt [10; 20; 30; 40; 50]) true 0
                   ([ownBlock freshBlock], []) _ 0 freshBlock
                   eq_refl eq_refl _ _ _ eq_refl eq_refl _ _)).
  - simpl. lia.
  - simpl. lia.
  - unfold depthOk, max32. simpl. lia.
  - intros j q Hj Hne.
    destruct j as [|[|[|j]]]; simpl in Hj; try discriminate;
      try (injection Hj as <-; simpl; apply not_elem_of_nil).
    exfalso. apply Hne. reflexivity.
  - apply surjective_pairing.
Defined.

(** ** Conjunctions *)

Lemma matchAnd_chain mp (ps : list Pattern) :
  forall v lvLast (s s' : St),
    matchAnd mp ps v lvLast s = (true, s') <-> AndChain mp v lvLast ps s s'.
Proof.
  induction ps as [|q qs IH]; intros v lvLast s s'; cbn [matchAnd].
  - split; [intros [= <-]; constructor|inversion 1; reflexivity].
  - destruct (mp q v _ s) as [r s1] eqn:E. split.
    + destruct r; [|discriminate]. intros Hm.
      econstructor; [exact E|]. apply IH, Hm.
    + inversion 1 as [|? ? ? s1' ? Hq Hc]; subst.
      rewrite E in Hq. injection Hq as -> ->. apply IH, Hc.
Qed.

(** [and_]: the node succeeds exactly when every conjunct matches the
    value, in order, each from the state the previous one left (so that a
    later conjunct sees the captures of an earlier one), and it leaves the
    state the last one left; the last conjunct receives the forwarded value
    only when no conjunct before it holds an identifier. *)
Theorem and_all_succeed (equal : Val -> Val -> bool) (ps : list Pattern)
    (v : Val) (lv : bool) (depth : Z) (s s' : St) :
  matchPatternImpl equal (PAnd ps) v lv depth s = (true, s') <->
  AndChain (matchChild equal depth) v
    (if (NbIdInTuple (removelast ps) =? 0)%nat then lv else true) ps s s'.
Proof.
  rewrite matchPatternImpl_eq. cbv beta iota zeta. apply matchAnd_chain.
Qed.
